(** * Rank-1 update (GER) library node of DaCe: expansions and validation

    Shallow embedding of [dace/libraries/blas/nodes/ger.py]:
    - [ExpandGerPure]: the whole-array reference expansion;
    - [Expand_GER_FPGA_Streaming_RowTiles]: the tiled streaming expansion;
    - [Ger.validate]: the node validation.

    The Python code builds dataflow graphs (SDFGs).  Each builder function
    is embedded as the behaviour of the graph it builds: maps scheduled on
    the FPGA device are sequential loops, streams are FIFO lists, arrays are
    lists updated by index, and inter-state edges are conditionals.

    Arrays and streams hold their elements as integers.  What the integer
    stands for, and how the tasklets compute on it, is given by the element
    type [Dtype] that a graph is built for: with [exact] the integer is the
    value and the arithmetic is that of the integers; with [float32] (the
    default [dtype] of the node) and [float64] the integer is the IEEE-754
    bit pattern of the value and the arithmetic rounds to nearest even.
    A statement that names no element type is about [exact]. *)

From stdpp Require Import base list numbers strings pretty.
From Stdlib Require Import ZArith Lia ArithRing SpecFloat.

(** ** Errors and results *)

Inductive Error :=
| SyntaxError (msg : string)
| ValueError (msg : string)
| StreamUnderrun (stream : string)
| OutOfBounds (array : string).

Inductive Result (A : Type) :=
| Ok (a : A)
| Raise (e : Error).
Arguments Ok {A} a.
Arguments Raise {A} e.

Global Instance Result_ret : MRet Result := fun _ a => Ok a.
Global Instance Result_bind : MBind Result := fun _ _ f r =>
  match r with
  | Ok a => f a
  | Raise e => Raise e
  end.

(** A sequential loop over the index list [l], threading the state. *)
Fixpoint for_range {S : Type} (body : nat -> S -> Result S) (l : list nat)
    (s : S) : Result S :=
  match l with
  | [] => Ok s
  | i :: l' => s' ← body i s; for_range body l' s'
  end.

(** A map producing one value per index, failing at the first failure. *)
Fixpoint map_range {B : Type} (f : nat -> Result B) (l : list nat)
    : Result (list B) :=
  match l with
  | [] => Ok []
  | i :: l' => b ← f i; bs ← map_range f l'; Ok (b :: bs)
  end.

(** ** Element types *)

(** The [dtype] argument of the graph builders, as far as the tasklets
    depend on it: the sum and the product of two elements, and the element
    for an integer constant or symbol of the tasklet code. *)
Class Dtype := {
  e_add : Z -> Z -> Z;
  e_mul : Z -> Z -> Z;
  e_const : Z -> Z
}.

(** Exact arithmetic: the integer is the value. *)
Global Instance exact : Dtype :=
  {| e_add := Z.add; e_mul := Z.mul; e_const := fun v => v |}.

(** IEEE-754 binary interchange formats with [ebits] bits of exponent and
    [mbits] bits of mantissa: an element is the bit pattern of a number,
    [decode] reads it and [encode] writes it (one pattern for all NaNs);
    sums and products round to nearest even. *)
Module IEEE.
Section Format.

Local Open Scope Z_scope.

Variables ebits mbits : Z.

Definition prec : Z := mbits + 1.
Definition emax : Z := 2 ^ (ebits - 1).

Definition decode (w : Z) : spec_float :=
  let sign := Z.testbit w (ebits + mbits) in
  let e := (w / 2 ^ mbits) mod 2 ^ ebits in
  let mant := w mod 2 ^ mbits in
  if decide (e = 2 ^ ebits - 1) then
    if decide (mant = 0) then S754_infinity sign else S754_nan
  else if decide (e = 0) then
    match mant with
    | Zpos p => S754_finite sign p (emin prec emax)
    | _ => S754_zero sign
    end
  else
    match mant + 2 ^ mbits with
    | Zpos p => S754_finite sign p (e + emin prec emax - 1)
    | _ => S754_nan
    end.

Definition sign_bit (sign : bool) : Z :=
  if sign then 2 ^ (ebits + mbits) else 0.

Definition encode (f : spec_float) : Z :=
  match f with
  | S754_zero sign => sign_bit sign
  | S754_infinity sign => sign_bit sign + (2 ^ ebits - 1) * 2 ^ mbits
  | S754_nan => (2 ^ ebits - 1) * 2 ^ mbits + 2 ^ (mbits - 1)
  | S754_finite sign p e =>
      if decide (Zpos p < 2 ^ mbits) then sign_bit sign + Zpos p
      else sign_bit sign + (e - emin prec emax + 1) * 2 ^ mbits
           + (Zpos p - 2 ^ mbits)
  end.

Definition add (v w : Z) : Z :=
  encode (SFadd prec emax (decode v) (decode w)).
Definition mul (v w : Z) : Z :=
  encode (SFmul prec emax (decode v) (decode w)).
Definition const (v : Z) : Z :=
  encode (binary_normalize prec emax v 0 false).

Definition dtype : Dtype :=
  {| e_add := add; e_mul := mul; e_const := const |}.

(** A zero or another finite number; a NaN; the comparison [==] of two
    numbers (the two zeros are equal, a NaN is equal to nothing). *)
Definition is_finite (w : Z) : bool :=
  match decode w with
  | S754_zero _ | S754_finite _ _ _ => true
  | _ => false
  end.
Definition is_nan (w : Z) : bool :=
  match decode w with
  | S754_nan => true
  | _ => false
  end.
Definition eqb (v w : Z) : bool := SFeqb (decode v) (decode w).

End Format.
End IEEE.

(** [dace.float32], the default [dtype] of the node, and [dace.float64]. *)
Definition float32 : Dtype := IEEE.dtype 8 23.
Definition float64 : Dtype := IEEE.dtype 11 52.

(** A value of [dtypes.vector(dtype, veclen)]: its lanes. *)
Abbreviation Vec := (list Z).

(** A dense row-major [rows] x [cols] array given by its entries. *)
Definition tabulate2 {B : Type} (rows cols : nat) (f : nat -> nat -> B)
    : list B :=
  flat_map (fun r => map (f r) (seq 0 cols)) (seq 0 rows).

(** The same, from entries that may fail. *)
Definition map2_range {B : Type} (rows cols : nat)
    (f : nat -> nat -> Result B) : Result (list B) :=
  rs ← map_range (fun r => map_range (f r) (seq 0 cols)) (seq 0 rows);
  Ok (concat rs).

(** Reading an array element through a memlet. *)
Definition read (name : string) (arr : list Z) (off : nat) : Result Z :=
  match arr !! off with
  | Some v => Ok v
  | None => Raise (OutOfBounds name)
  end.

(** ** Stream adapters ([dace.libraries.blas.utility.fpga_helper]) *)

(** One vector of [veclen] lanes loaded from [src] at offset [off]. *)
Definition pack (veclen : nat) (src : list Z) (off : nat) : Vec :=
  map (fun l => src !!! (off + l)) (seq 0 veclen).

(** Modelled from the spec: [StreamReadVector] of [fpga_helper], the adapter
    read-vector-with-repeat(source, length, repeat-count, vector-width).
    The source vector is streamed in order, packed in vectors of [veclen]
    lanes, and streamed again in full [repeat] times in total. *)
Definition StreamReadVector (src : list Z) (len veclen repeat : nat)
    : list Vec :=
  flat_map (fun _ => map (fun k => pack veclen src (k * veclen))
                       (seq 0 (len / veclen)))
    (seq 0 repeat).

(** Modelled from the spec: [StreamReadMatrixFull] of [fpga_helper] with
    [tileByRow], the adapter read-tiled-matrix(source, rows, cols, row-tile,
    col-tile, vector-width, row-major).  The row-major [rows] x [cols]
    source is streamed in row-tile order: outer loop over the
    [rows / rowTile] row-blocks, middle loop over the [cols / colTile]
    column-tiles, inner loop over the [rowTile] rows of the block, each
    carrying [colTile] contiguous elements packed in vectors. *)
Definition StreamReadMatrixFull (src : list Z)
    (rows cols rowTile colTile vecWidth : nat) : list Vec :=
  flat_map (fun i =>
    flat_map (fun j =>
      flat_map (fun ii =>
        map (fun jj => pack vecWidth src
                         ((i * rowTile + ii) * cols
                          + (j * colTile + jj * vecWidth)))
          (seq 0 (colTile / vecWidth)))
        (seq 0 rowTile))
      (seq 0 (cols / colTile)))
    (seq 0 (rows / rowTile)).

(** Modelled from the spec: [StreamWriteMatrixFull] of [fpga_helper] with
    [tileByRow], the write-stream adapter matching [StreamReadMatrixFull]:
    the element of row [r] and column [col] of the row-major destination is
    the lane of the vector that the row-tile order puts at that place. *)
Definition StreamWriteMatrixFull (stream : list Vec)
    (rows cols rowTile colTile vecWidth : nat) : list Z :=
  tabulate2 rows cols (fun r col =>
    let i := r / rowTile in
    let ii := r mod rowTile in
    let j := col / colTile in
    let jj := (col mod colTile) / vecWidth in
    let l := (col mod colTile) mod vecWidth in
    (stream !!! (((i * (cols / colTile) + j) * rowTile + ii)
                 * (colTile / vecWidth) + jj)) !!! l).

(** ** The library node [Ger] *)

Module Ger.

(** The properties of the node.  [a] is the symbol given to the streaming
    expansion, [alpha] the constant used by the pure expansion. *)
Record Node := {
  label : string;
  dtype : option string;
  nTile : nat;
  mTile : nat;
  n : nat;
  m : nat;
  a : Z;
  vecWidthM : nat;
  alpha : Z
}.

(** The node with another scalar, for both expansions. *)
Definition with_scalar (node : Node) (v : Z) : Node :=
  {| label := label node; dtype := dtype node;
     nTile := nTile node; mTile := mTile node; n := n node; m := m node;
     a := v; vecWidthM := vecWidthM node; alpha := v |}.

(** An edge of the state at the node: its connector and the sizes of the
    subset of its memlet. *)
Record Edge := {
  conn : string;
  subset : list nat
}.

Section Validate.

(** [Range.squeeze] followed by [size()] of [dace.subsets], which is not
    part of the sources here. *)
Variable squeeze_size : list nat -> list nat.

(** The loop of [validate] over the incoming edges: the last edge of each
    connector [_A], [_x], [_y] sets [size_a], [size_x], [size_y]. *)
Definition operand_sizes (in_edges : list Edge)
    : option (list nat) * option (list nat) * option (list nat) :=
  foldl (fun '(size_a, size_x, size_y) e =>
           let size_a := if decide (conn e = "_A")
                         then Some (squeeze_size (subset e)) else size_a in
           let size_x := if decide (conn e = "_x")
                         then Some (squeeze_size (subset e)) else size_x in
           let size_y := if decide (conn e = "_y")
                         then Some (squeeze_size (subset e)) else size_y in
           (size_a, size_x, size_y))
    (None, None, None) in_edges.

(** [Ger.validate].  The comparisons of [size_a], [size_x], [size_y] and
    [size_out] are commented out in the source: the sizes are computed and
    not used. *)
Definition validate (in_edges out_edges : list Edge) : Result unit :=
  if decide (length in_edges <> 3) then
    Raise (ValueError "Expected exactly three inputs to the ger operation (vectors x, y and matrix A)")
  else if decide (length out_edges <> 1) then
    Raise (ValueError "Expected exactly one output from the ger operation")
  else
    let '(size_a, size_x, size_y) := operand_sizes in_edges in
    if decide (length out_edges <> 1) then
      Raise (ValueError "Expected exactly one output from ger rank 1 operation.")
    else
      match out_edges with
      | out :: _ =>
          let size_out := squeeze_size (subset out) in
          Ok tt
      | [] => Raise (OutOfBounds "out_edges")
      end.

End Validate.

(** [getStreamReader]: [_x] is streamed [n / nTile] times in vectors of
    [vecWidthM] lanes, [_y] once in vectors of one lane, [_A] in row-tile
    order. *)
Definition getStreamReader_x (node : Node) (x : list Z) : list Vec :=
  StreamReadVector x (m node) (vecWidthM node) (n node / nTile node).

Definition getStreamReader_y (node : Node) (y : list Z) : list Vec :=
  StreamReadVector y (n node) 1 1.

Definition getStreamReader_A (node : Node) (A : list Z) : list Vec :=
  StreamReadMatrixFull A (n node) (m node) (nTile node) (mTile node)
    (vecWidthM node).

(** [getStreamWriter]. *)
Definition getStreamWriter_RES (node : Node) (stream : list Vec) : list Z :=
  StreamWriteMatrixFull stream (n node) (m node) (nTile node) (mTile node)
    (vecWidthM node).

(** The node with another constant [alpha], the symbol [a] unchanged. *)
Definition with_alpha (node : Node) (v : Z) : Node :=
  {| label := label node; dtype := dtype node;
     nTile := nTile node; mTile := mTile node; n := n node; m := m node;
     a := a node; vecWidthM := vecWidthM node; alpha := v |}.

(** [compare]: a node comes with the property [implementation] of library
    nodes, which may be unset. *)
Definition compare (self other : Node * option string) : bool :=
  if decide (dtype self.1 = dtype other.1
             /\ vecWidthM self.1 = vecWidthM other.1
             /\ self.2 = other.2
             /\ nTile self.1 = nTile other.1
             /\ mTile self.1 = mTile other.1)
  then true else false.

(** [streamProductionLatency]. *)
Definition streamProductionLatency (node : Node) : Z := 0.

(** [streamConsumptionLatency]: the dictionary, in the order of its keys.
    The division is exact for the configurations in which [mTile] divides
    [m]. *)
Definition streamConsumptionLatency (node : Node) : list (string * Z) :=
  [ ("_x", Z.of_nat (nTile node));
    ("_y", (Z.of_nat (m node) / Z.of_nat (mTile node) - 1)
           * Z.of_nat (mTile node) * Z.of_nat (nTile node)
           + Z.of_nat (mTile node))%Z;
    ("_A", 0%Z) ].

End Ger.

(** ** The pure expansion [ExpandGerPure] *)

Module ExpandGerPure.

(** One operand as [_get_matmul_operands] of [matmul.py] returns it (that
    function is not part of the sources here): shape, strides and the
    storage class of the outer array. *)
Record Operand := {
  shape : list nat;
  strides : list nat;
  storage : string
}.

(** The two forms of [mul_program]. *)
Inductive MulProgram :=
| mul_x_y                       (* "__out = __x * __y" *)
| mul_alpha_x_y (alpha : Z).    (* "__out = {} * __x * __y".format(alpha) *)

(** The four forms of [memlet_idx]. *)
Inductive MemletIdx :=
| idx_i0_i1                     (* '__i0, __i1' *)
| idx_0_i1                      (* '0, __i1' *)
| idx_i0_0                      (* '__i0, 0' *)
| idx_i1.                       (* '__i1' *)

(** The calls that add something to the graph, in order. *)
Inductive BuildOp :=
| add_array (name : string) (shp : list nat) (stor : string)
| add_state (name : string)
| add_state_after (name : string)
| add_temp_transient (shp : list nat) (stor : string)
| add_read (name : string)
| add_mapped_tasklet (name : string).

(** What the built graph computes. *)
Record SDFG := {
  M : nat;
  N : nat;
  shape_c : list nat;
  mul_program : MulProgram;
  memlet_idx : MemletIdx
}.

Global Instance MulProgram_eq_dec : EqDecision MulProgram.
Proof. solve_decision. Defined.
Global Instance MemletIdx_eq_dec : EqDecision MemletIdx.
Proof. solve_decision. Defined.

(** The chain of comparisons of [list(shape_c)]. *)
Definition broadcast_idx (shape_c : list nat) (M N : nat)
    : option MemletIdx :=
  if decide (shape_c = [M; N]) then Some idx_i0_i1
  else if decide (shape_c = [1; N]) then Some idx_0_i1
  else if decide (shape_c = [M; 1]) then Some idx_i0_0
  else if decide (shape_c = [N]) then Some idx_i1
  else None.

(** [make_sdfg].  The operands [x], [y] and [cdata] are the result of
    [_get_matmul_operands]; [cdata] is not used.  The result is the list of
    the calls that added something to the graph (the empty graph object
    itself exists from the first line on), and the graph or the exception
    raised. *)
Definition make_sdfg (node : Ger.Node) (x y cdata : Operand)
    : list BuildOp * Result SDFG :=
  let shape_x := shape x in
  let shape_y := shape y in
  if decide (length shape_x <> 1 \/ length shape_y <> 1) then
    ([], Raise (SyntaxError "Vectors must have single dimension"))
  else
    let M := shape_x !!! 0 in
    let N := shape_y !!! 0 in
    let shape_c := [M; N] in
    if decide (storage x <> storage y) then
      ([], Raise (ValueError "Input vectors must have same storage."))
    else
      let stor := storage x in
      let mul_program :=
        if decide (Ger.alpha node = 1%Z) then mul_x_y
        else mul_alpha_x_y (Ger.alpha node) in
      let ops :=
        [ add_array "_x" shape_x stor; add_array "_y" shape_y stor;
          add_array "_A" shape_c stor; add_array "_res" shape_c stor;
          add_state (Ger.label node +:+ "_initstate");
          add_state_after (Ger.label node +:+ "_state");
          add_temp_transient shape_c stor; add_read "tmp";
          add_mapped_tasklet "_GER_init";
          add_mapped_tasklet "_GER_outer_" ] in
      match broadcast_idx shape_c M N with
      | Some memlet_idx =>
          (ops ++ [add_mapped_tasklet "_GER_add_"],
           Ok {| M := M; N := N; shape_c := shape_c;
                 mul_program := mul_program; memlet_idx := memlet_idx |})
      | None =>
          (ops, Raise (ValueError ("Could not broadcast input _res to ("
                                   +:+ pretty M +:+ ", " +:+ pretty N
                                   +:+ ")")))
      end.

(** [expansion]: validation, the test of the data type, then [make_sdfg]. *)
Definition expansion (squeeze_size : list nat -> list nat)
    (node : Ger.Node) (in_edges out_edges : list Ger.Edge)
    (x y cdata : Operand) : list BuildOp * Result SDFG :=
  match Ger.validate squeeze_size in_edges out_edges with
  | Raise e => ([], Raise e)
  | Ok _ =>
      match Ger.dtype node with
      | None => ([], Raise (ValueError ("Data type must be set to expand "
                                        +:+ Ger.label node +:+ ".")))
      | Some _ => make_sdfg node x y cdata
      end
  end.

(** The tasklet code [mul_program]. *)
Definition run_mul {dt : Dtype} (p : MulProgram) (__x __y : Z) : Z :=
  match p with
  | mul_x_y => e_mul __x __y
  | mul_alpha_x_y alpha => e_mul (e_mul (e_const alpha) __x) __y
  end.

(** The offset of the memlet on [_A] in an array of shape [shape_c], at the
    map indices [__i0], [__i1]. *)
Definition memlet_offset (g : SDFG) (__i0 __i1 : nat) : nat :=
  match memlet_idx g with
  | idx_i0_i1 => __i0 * N g + __i1
  | idx_0_i1 => 0 * N g + __i1
  | idx_i0_0 => __i0 * N g + 0
  | idx_i1 => __i1
  end.

(** The behaviour of the built graph on the arrays bound to [_x], [_y] and
    [_A]; the result is the array [_res], row-major of shape [(M, N)].
    - [_GER_init] sets the transient to zero;
    - [_GER_outer_] adds [mul_program] of [_x[__i0]] and [_y[__i1]] to the
      transient at [__i0, __i1] (write-conflict resolution by sum);
    - [_GER_add_] runs [__res = __A + __tmp]. *)
Definition run {dt : Dtype} (g : SDFG) (_x _y _A : list Z)
    : Result (list Z) :=
  let tmp0 := tabulate2 (M g) (N g) (fun _ _ => e_const 0) in
  tmp ← map2_range (M g) (N g) (fun __i0 __i1 =>
           old ← read "tmp" tmp0 (__i0 * N g + __i1);
           __x ← read "_x" _x __i0;
           __y ← read "_y" _y __i1;
           Ok (e_add old (run_mul (mul_program g) __x __y)));
  map2_range (M g) (N g) (fun __i0 __i1 =>
    __A ← read "_A" _A (memlet_offset g __i0 __i1);
    __tmp ← read "tmp" tmp (__i0 * N g + __i1);
    Ok (e_add __A __tmp)).

(** The row-major [M] x [N] matrix with [A + (0 + alpha * x[i0] * y[i1])]
    at row [i0] and column [i1], computed as the three tasklets of the graph
    do: the transient starts at 0, the product (without the factor when
    [alpha] is 1) is added to it, and the sum is added to [A]. *)
Definition update {dt : Dtype} (alpha : Z) (M N : nat)
    (x y A : list Z) : list Z :=
  tabulate2 M N (fun __i0 __i1 =>
    let __A := A !!! (__i0 * N + __i1) in
    let __x := x !!! __i0 in
    let __y := y !!! __i1 in
    e_add __A
      (e_add (e_const 0)
         (if decide (alpha = 1%Z) then e_mul __x __y
          else e_mul (e_mul (e_const alpha) __x) __y))).

(** The operands of a call on arrays in the default storage: [x] and [y]
    are vectors, the matrix operand has the shape [shape_A]. *)
Definition vector_operand (v : list Z) : Operand :=
  {| shape := [length v]; strides := [1]; storage := "Default" |}.

Definition matrix_operand (shape_A : list nat) : Operand :=
  {| shape := shape_A; strides := [shape_A !!! 1; 1]; storage := "Default" |}.

(** The pure expansion as a reference: the graph is built for the operands
    and run on them. *)
Definition reference {dt : Dtype} (node : Ger.Node) (shape_A : list nat)
    (x y A : list Z) : Result (list Z) :=
  match make_sdfg node (vector_operand x) (vector_operand y)
          (matrix_operand shape_A) with
  | (_, Ok g) => run g x y A
  | (_, Raise e) => Raise e
  end.

End ExpandGerPure.

(** ** The tiled streaming expansion [Expand_GER_FPGA_Streaming_RowTiles] *)

Module Expand_GER_FPGA_Streaming_RowTiles.

(** The arguments of [make_sdfg] other than [dtype]; [a] is the scalar
    multiplier, a symbol of the graph. *)
Record Config := {
  nTile : nat;
  mTile : nat;
  n : nat;
  m : nat;
  vecWidthM : nat;
  a : Z
}.

(** Instrumentation of the buffering protocol of the tile graph: which of
    the two states after [init_state_tile] ran, and which value of the
    [y] buffer each compute tasklet received. *)
Inductive Event :=
| ReadY (i j ii : nat) (v : Z)
| ReadEmpty (i j ii : nat)
| Compute (i j ii jj : nat) (y_con : Z).

Global Instance Event_eq_dec : EqDecision Event.
Proof. solve_decision. Defined.

(** The containers of [ger_fpga_stream_rowTiles]: the four streams, the
    transient [y_buf_row] of [nTile] elements (connector [_y_buf_tile],
    [_y_unroll] in the inner graph) and the transient [x_buf] of [mTile]
    elements of the tile graph (connector [_x_buf_unroll]).  The two
    buffers are on-chip memories: they keep what was stored in them from
    one run of the nested graphs to the next, which is what the states
    [read_empty_reduceTile] and [readEmpty_state] rely on; what they hold
    when the graph starts is not fixed.  A stream that is empty when a
    vector is taken from it is a data error ([StreamUnderrun]); the bounded
    size of the streams is not modelled.  [trace] is the instrumentation;
    no operation reads it. *)
Record Store := {
  A_in : list Vec;
  x_in : list Vec;
  y_in : list Vec;
  res : list Vec;
  y_buf_row : list Z;
  x_buf : list Z;
  trace : list Event
}.

(** The tasklet [compute_task], [outCon = A_con + x_con * y_con * a], on
    every lane of the vectors [A_con] and [x_con]. *)
Definition compute_task {dt : Dtype} (a : Z) (A_con x_con : Vec)
    (y_con : Z) : Vec :=
  zip_with (fun A_l x_l => e_add A_l (e_mul (e_mul x_l y_con) (e_const a)))
    A_con x_con.

(** [make_unrolledCompute]: one run of [vectorize_inner_graph] inside the
    maps at indices [i], [j], [ii], [jj].
    - [init_state] goes to [readX_state] when [ii == 0] (one vector is taken
      from the stream [_x_unroll] and stored at [jj * vecWidthM] of
      [_x_buf_unroll]) and to [readEmpty_state] otherwise;
    - [compute_state] takes one vector from [_A_unroll], reads
      [_x_buf_unroll] at [jj * vecWidthM] and [_y_unroll] at [ii], and runs
      [outCon = A_con + x_con * y_con * a] on every lane;
    - [streamOut_state] puts [A_out_buf] on the stream [_A_out_unroll]. *)
Definition make_unrolledCompute {dt : Dtype} (c : Config)
    (i j ii jj : nat) (s : Store) : Result Store :=
  s1 ← (if decide (ii = 0) then
          match x_in s with
          | [] => Raise (StreamUnderrun "_x")
          | inCon :: rest =>
              if decide (jj * vecWidthM c + vecWidthM c <= length (x_buf s))
              then Ok {| A_in := A_in s; x_in := rest; y_in := y_in s;
                         res := res s; y_buf_row := y_buf_row s;
                         x_buf := list_inserts (jj * vecWidthM c) inCon
                                    (x_buf s);
                         trace := trace s |}
              else Raise (OutOfBounds "_x_buf_unroll")
          end
        else Ok s);
  match A_in s1 with
  | [] => Raise (StreamUnderrun "_A")
  | A_con :: rest =>
      match sublist_lookup (jj * vecWidthM c) (vecWidthM c) (x_buf s1),
            y_buf_row s1 !! ii with
      | Some x_con, Some y_con =>
          let A_out_buf := compute_task (a c) A_con x_con y_con in
          Ok {| A_in := rest; x_in := x_in s1; y_in := y_in s1;
                res := res s1 ++ [A_out_buf];
                y_buf_row := y_buf_row s1; x_buf := x_buf s1;
                trace := trace s1 ++ [Compute i j ii jj y_con] |}
      | None, _ => Raise (OutOfBounds "_x_buf_unroll")
      | _, None => Raise (OutOfBounds "_y_unroll")
      end
  end.

(** [make_computeTileRowStreamed]: one run of [tile_sdfg] inside the maps
    at indices [i], [j], [ii].
    - [init_state_tile] goes to [read_y_reduceTile] when [j == 0] (one
      vector of one lane is taken from the stream [_y_tile] into the
      register [y_buf] and copied to [_y_buf_tile] at [ii]) and to
      [read_empty_reduceTile] when [j != 0];
    - [copmute_state_tile] runs the inner graph over
      [jj] in [0 : mTile / vecWidthM]. *)
Definition make_computeTileRowStreamed {dt : Dtype} (c : Config)
    (i j ii : nat) (s : Store) : Result Store :=
  s1 ← (if decide (j = 0) then
          match y_in s with
          | [] => Raise (StreamUnderrun "_y")
          | y_buf :: rest =>
              if decide (ii < length (y_buf_row s))
              then Ok {| A_in := A_in s; x_in := x_in s; y_in := rest;
                         res := res s;
                         y_buf_row := <[ii := y_buf !!! 0]> (y_buf_row s);
                         x_buf := x_buf s;
                         trace := trace s ++ [ReadY i j ii (y_buf !!! 0)] |}
              else Raise (OutOfBounds "_y_buf_tile")
          end
        else Ok {| A_in := A_in s; x_in := x_in s; y_in := y_in s;
                   res := res s; y_buf_row := y_buf_row s;
                   x_buf := x_buf s;
                   trace := trace s ++ [ReadEmpty i j ii] |});
  for_range (make_unrolledCompute c i j ii)
    (seq 0 (mTile c / vecWidthM c)) s1.

(** [make_sdfg]: the state [ger_compute], three nested maps
    [nBlock_map] ([i] in [0 : n / nTile]), [mTile_map]
    ([j] in [0 : m / mTile]) and [outerCompute_map] ([ii] in [0 : nTile])
    around the tile graph. *)
Definition make_sdfg {dt : Dtype} (c : Config) (s : Store)
    : Result Store :=
  for_range (fun i =>
    for_range (fun j =>
      for_range (fun ii => make_computeTileRowStreamed c i j ii)
        (seq 0 (nTile c)))
      (seq 0 (m c / mTile c)))
    (seq 0 (n c / nTile c)) s.

(** [expansion]: validation, the test of the data type, then [make_sdfg]
    on the properties of the node; the scalar is the property [a]. *)
Definition config (node : Ger.Node) : Config :=
  {| nTile := Ger.nTile node; mTile := Ger.mTile node;
     n := Ger.n node; m := Ger.m node;
     vecWidthM := Ger.vecWidthM node; a := Ger.a node |}.

Definition expansion {dt : Dtype} (squeeze_size : list nat -> list nat)
    (node : Ger.Node) (in_edges out_edges : list Ger.Edge) (s : Store)
    : Result Store :=
  _ ← Ger.validate squeeze_size in_edges out_edges;
  match Ger.dtype node with
  | None => Raise (ValueError ("Data type must be set to expand "
                               +:+ Ger.label node +:+ "."))
  | Some _ => make_sdfg (config node) s
  end.

(** The store when the graph starts: the streams hold what the stream
    readers of the node produce from [x], [y] and [A]; the two buffers hold
    whatever they held before. *)
Definition initial_store (node : Ger.Node) (x y A : list Z)
    (y_buf_row0 x_buf0 : list Z) : Store :=
  {| A_in := Ger.getStreamReader_A node A;
     x_in := Ger.getStreamReader_x node x;
     y_in := Ger.getStreamReader_y node y;
     res := [];
     y_buf_row := y_buf_row0;
     x_buf := x_buf0;
     trace := [] |}.

(** The graph between its stream readers and its stream writer: the final
    store, and the matrix that the writer stores. *)
Definition run_streams {dt : Dtype} (node : Ger.Node) (x y A : list Z)
    (y_buf_row0 x_buf0 : list Z) : Result Store :=
  make_sdfg (config node) (initial_store node x y A y_buf_row0 x_buf0).

Definition run {dt : Dtype} (node : Ger.Node) (x y A : list Z)
    (y_buf_row0 x_buf0 : list Z) : Result (list Z) :=
  s ← run_streams node x y A y_buf_row0 x_buf0;
  Ok (Ger.getStreamWriter_RES node (res s)).

(** *** Counters over the instrumentation *)

Fixpoint count (p : Event -> bool) (t : list Event) : nat :=
  match t with
  | [] => 0
  | e :: t' => (if p e then 1 else 0) + count p t'
  end.

Definition is_ReadY (e : Event) : bool :=
  match e with ReadY _ _ _ _ => true | _ => false end.
Definition is_ReadEmpty (e : Event) : bool :=
  match e with ReadEmpty _ _ _ => true | _ => false end.
Definition is_Compute (e : Event) : bool :=
  match e with Compute _ _ _ _ _ => true | _ => false end.

(** The row-block in which an event happens. *)
Definition block_of (e : Event) : nat :=
  match e with
  | ReadY i _ _ _ | ReadEmpty i _ _ | Compute i _ _ _ _ => i
  end.

Definition in_block (i : nat) (p : Event -> bool) (e : Event) : bool :=
  p e && Nat.eqb (block_of e) i.

(** The elements taken from the stream of [y]: in all, and in the
    row-block [i]. *)
Definition y_stream_reads (t : list Event) : nat := count is_ReadY t.
Definition y_stream_reads_in (i : nat) (t : list Event) : nat :=
  count (in_block i is_ReadY) t.
(** The rows of tiles of the row-block [i] that ran the state
    [read_empty_reduceTile]. *)
Definition reuse_passes_in (i : nat) (t : list Event) : nat :=
  count (in_block i is_ReadEmpty) t.
(** The reads of the buffer of [y] by the tasklet in the row-block [i]. *)
Definition y_buffer_reads_in (i : nat) (t : list Event) : nat :=
  count (in_block i is_Compute) t.

(** The configurations of the node that the expansion is written for:
    positive sizes, [nTile] divides [n], [mTile] divides [m] and
    [vecWidthM] divides [mTile]. *)
Definition valid (node : Ger.Node) : Prop :=
  0 < Ger.n node /\ 0 < Ger.m node /\
  0 < Ger.nTile node /\ 0 < Ger.mTile node /\ 0 < Ger.vecWidthM node /\
  (Ger.nTile node | Ger.n node) /\
  (Ger.mTile node | Ger.m node) /\
  (Ger.vecWidthM node | Ger.mTile node).

(** The vectors that the stream readers of the node put on the streams, by
    the indices of the maps at which the graph takes them. *)
Definition node_Avec (node : Ger.Node) (A : list Z) (i j ii jj : nat) : Vec :=
  pack (Ger.vecWidthM node) A
    ((i * Ger.nTile node + ii) * Ger.m node
     + (j * Ger.mTile node + jj * Ger.vecWidthM node)).

Definition node_xvec (node : Ger.Node) (x : list Z) (i j jj : nat) : Vec :=
  pack (Ger.vecWidthM node) x
    ((j * (Ger.mTile node / Ger.vecWidthM node) + jj) * Ger.vecWidthM node).

Definition node_yvec (node : Ger.Node) (y : list Z) (i ii : nat) : Vec :=
  pack 1 y ((i * Ger.nTile node + ii) * 1).

(** The row-major [rows] x [cols] matrix with [A + x[col] * y[r] * a] at row
    [r] and column [col], computed as the tasklet [compute_task] does. *)
Definition rank1_update {dt : Dtype} (a : Z) (rows cols : nat)
    (x y A : list Z) : list Z :=
  tabulate2 rows cols (fun r col =>
    let A_rc := A !!! (r * cols + col) in
    let x_c := x !!! col in
    let y_r := y !!! r in
    e_add A_rc (e_mul (e_mul x_c y_r) (e_const a))).

(** *** The schedule in closed form

    What the graph does to streams that hold, in the order of the maps, the
    vectors [Avec i j ii jj] of the matrix, the vectors [xvec i j jj] of [x]
    (read in the row [ii = 0] of the tile) and the vectors [yvec i ii] of
    [y] (read in the tile [j = 0] of the row-block). *)
Section Schedule.

Context {dt : Dtype}.
Variable c : Config.
Variable Avec : nat -> nat -> nat -> nat -> Vec.
Variable xvec : nat -> nat -> nat -> Vec.
Variable yvec : nat -> nat -> Vec.

Definition lanes : list nat := seq 0 (mTile c / vecWidthM c).
Definition rows : list nat := seq 0 (nTile c).
Definition tiles : list nat := seq 0 (m c / mTile c).
Definition blocks : list nat := seq 0 (n c / nTile c).

Definition yval (i ii : nat) : Z := yvec i ii !!! 0.

Definition out_vec (i j ii jj : nat) : Vec :=
  compute_task (a c) (Avec i j ii jj) (xvec i j jj) (yval i ii).

(** The stream that holds one vector [vec i j ii jj] per step, in the order
    of the maps. *)
Definition stream_of (vec : nat -> nat -> nat -> nat -> Vec) : list Vec :=
  flat_map (fun i =>
    flat_map (fun j =>
      flat_map (fun ii => map (vec i j ii) lanes) rows) tiles) blocks.

Definition row_A (i j ii : nat) : list Vec := map (Avec i j ii) lanes.
Definition tile_A (i j : nat) : list Vec := flat_map (row_A i j) rows.
Definition block_A (i : nat) : list Vec := flat_map (tile_A i) tiles.

Definition tile_x (i j : nat) : list Vec := map (xvec i j) lanes.
Definition block_x (i : nat) : list Vec := flat_map (tile_x i) tiles.

Definition block_y (i : nat) : list Vec := map (yvec i) rows.

Definition row_res (i j ii : nat) : list Vec := map (out_vec i j ii) lanes.
Definition tile_res (i j : nat) : list Vec := flat_map (row_res i j) rows.
Definition block_res (i : nat) : list Vec := flat_map (tile_res i) tiles.

Definition row_trace (i j ii : nat) : list Event :=
  (if decide (j = 0) then ReadY i j ii (yval i ii) else ReadEmpty i j ii)
  :: map (fun jj => Compute i j ii jj (yval i ii)) lanes.
Definition tile_trace (i j : nat) : list Event :=
  flat_map (row_trace i j) rows.
Definition block_trace (i : nat) : list Event :=
  flat_map (tile_trace i) tiles.

(** The buffers after the reads of the indices in [l]. *)
Definition fill_x (i j : nat) (l : list nat) (buf : list Z) : list Z :=
  foldl (fun b jj => list_inserts (jj * vecWidthM c) (xvec i j jj) b) buf l.
Definition fill_y (i : nat) (l : list nat) (buf : list Z) : list Z :=
  foldl (fun b ii => <[ii := yval i ii]> b) buf l.
Definition fill_x_block (i : nat) (l : list nat) (buf : list Z) : list Z :=
  foldl (fun b j => fill_x i j lanes b) buf l.
Definition fill_x_all (l : list nat) (buf : list Z) : list Z :=
  foldl (fun b i => fill_x_block i tiles b) buf l.
Definition fill_y_all (l : list nat) (buf : list Z) : list Z :=
  foldl (fun b i => fill_y i rows b) buf l.

End Schedule.

End Expand_GER_FPGA_Streaming_RowTiles.

Module RT := Expand_GER_FPGA_Streaming_RowTiles.
Module Pure := ExpandGerPure.

(** ** Concrete nodes and inputs *)

(** The scenario [n = 4], [m = 4], tiles of 2 by 2, vectors of one lane,
    scalar 1. *)
Definition scenario_node : Ger.Node :=
  {| Ger.label := "ger"; Ger.dtype := Some "float32";
     Ger.nTile := 2; Ger.mTile := 2; Ger.n := 4; Ger.m := 4;
     Ger.a := 1; Ger.vecWidthM := 1; Ger.alpha := 1 |}.

Definition scenario_x : list Z := [1; 2; 3; 4]%Z.
Definition scenario_y : list Z := [1; 1; 1; 1]%Z.
Definition scenario_A : list Z := replicate 16 0%Z.

(** A node with vectors of two lanes: [n = 4], [m = 8], tiles of 2 rows
    by 4 columns. *)
Definition wide_node : Ger.Node :=
  {| Ger.label := "ger"; Ger.dtype := Some "float32";
     Ger.nTile := 2; Ger.mTile := 4; Ger.n := 4; Ger.m := 8;
     Ger.a := 3; Ger.vecWidthM := 2; Ger.alpha := 3 |}.

(** The smallest node: one row, one column, one tile, one lane. *)
Definition unit_node : Ger.Node :=
  {| Ger.label := "ger"; Ger.dtype := Some "float32";
     Ger.nTile := 1; Ger.mTile := 1; Ger.n := 1; Ger.m := 1;
     Ger.a := 1; Ger.vecWidthM := 1; Ger.alpha := 1 |}.

(** Some elements of [float32] and [float64]: 1, the successor of 1, half
    the distance between them, [2 ^ 100], infinity and the NaN. *)
Definition f32_one : Z := IEEE.encode 8 23 (S754_finite false 8388608 (-23)).
Definition f32_one_succ : Z :=
  IEEE.encode 8 23 (S754_finite false 8388609 (-23)).
Definition f32_half_ulp : Z :=
  IEEE.encode 8 23 (S754_finite false 8388608 (-47)).
Definition f32_big : Z := IEEE.encode 8 23 (S754_finite false 8388608 77).
Definition f32_inf : Z := IEEE.encode 8 23 (S754_infinity false).
Definition f32_nan : Z := IEEE.encode 8 23 S754_nan.

Definition f64_one : Z :=
  IEEE.encode 11 52 (S754_finite false 4503599627370496 (-52)).
Definition f64_one_succ : Z :=
  IEEE.encode 11 52 (S754_finite false 4503599627370497 (-52)).
Definition f64_half_ulp : Z :=
  IEEE.encode 11 52 (S754_finite false 4503599627370496 (-105)).
Definition f64_inf : Z := IEEE.encode 11 52 (S754_infinity false).
Definition f64_nan : Z := IEEE.encode 11 52 S754_nan.

(** The edges of the scenario at the node. *)
Definition scenario_in_edges : list Ger.Edge :=
  [ {| Ger.conn := "_x"; Ger.subset := [4] |};
    {| Ger.conn := "_y"; Ger.subset := [4] |};
    {| Ger.conn := "_A"; Ger.subset := [4; 4] |} ].

Definition scenario_out_edges : list Ger.Edge :=
  [ {| Ger.conn := "_res"; Ger.subset := [4; 4] |} ].

(** One instance of [Range.squeeze] and [size()]: the sizes other than 1. *)
Definition squeeze_ones (subset : list nat) : list nat :=
  filter (fun d => d <> 1) subset.

(** A store of the node with vectors of two lanes before the graph runs,
    and the store after the run. *)
Definition wide_store : RT.Store :=
  RT.initial_store wide_node (seqZ 0 8) (seqZ 0 4) (seqZ 0 32)
    [7; 7]%Z [9; 9; 9; 9]%Z.

Definition wide_final : RT.Store :=
  Eval vm_compute in
    match RT.make_sdfg (RT.config wide_node) wide_store with
    | Ok s => s
    | Raise _ => wide_store
    end.


(** * Properties *)

(** ** Loops, lists and buffers *)

Lemma bind_Ok {A B : Type} (f : A -> Result B) (x : A) :
  (Ok x ≫= f) = f x.
Proof. reflexivity. Qed.

Lemma lookup_map {A B : Type} (f : A -> B) (l : list A) (i : nat) :
  map f l !! i = f <$> (l !! i).
Proof. apply list_lookup_fmap. Qed.

Lemma length_pack veclen src off : length (pack veclen src off) = veclen.
Proof. unfold pack. by rewrite length_map, length_seq. Qed.

Lemma lookup_pack veclen src off l :
  l < veclen -> pack veclen src off !!! l = src !!! (off + l).
Proof.
  intros Hl. unfold pack. apply list_lookup_total_correct.
  rewrite lookup_map, lookup_seq_lt by done. reflexivity.
Qed.

(** Writing a vector in a buffer and reading the same place. *)
Lemma sublist_lookup_inserts (buf v : list Z) (off : nat) :
  off + length v <= length buf ->
  sublist_lookup off (length v) (list_inserts off v buf) = Some v.
Proof.
  intros Hb. apply sublist_lookup_Some'. split; [|by rewrite length_inserts].
  apply list_eq. intros k.
  destruct (decide (k < length v)) as [Hk|Hk].
  - rewrite lookup_take_lt, lookup_drop, list_lookup_inserts by lia.
    f_equal. lia.
  - rewrite lookup_take_ge by lia. apply lookup_ge_None_2. lia.
Qed.

(** Writing a vector does not change a place that it does not overlap. *)
Lemma sublist_lookup_inserts_disjoint (buf v : list Z) (off off' w : nat) :
  off' + w <= off \/ off + length v <= off' ->
  sublist_lookup off' w (list_inserts off v buf) = sublist_lookup off' w buf.
Proof.
  intros Hd. unfold sublist_lookup. rewrite length_inserts.
  case_guard; simpl; [|done]. f_equal. apply list_eq. intros k.
  destruct (decide (k < w)) as [Hk|Hk].
  - rewrite !lookup_take_lt, !lookup_drop by lia.
    destruct Hd; [apply list_lookup_inserts_lt|apply list_lookup_inserts_ge];
      lia.
  - by rewrite !lookup_take_ge by lia.
Qed.

(** The place of the element [y] of the group [x], in [a] groups of [b]. *)
Lemma index_bound (a b x y : nat) : x < a -> y < b -> x * b + y < a * b.
Proof. nia. Qed.

(** Lists built by nested loops. *)
Lemma flat_map_ext_seq {B : Type} (f g : nat -> list B) (N : nat) :
  (forall k, k < N -> f k = g k) ->
  flat_map f (seq 0 N) = flat_map g (seq 0 N).
Proof.
  intros Hfg. rewrite !flat_map_concat_map. f_equal.
  apply map_ext_in. intros k Hk%in_seq. apply Hfg. lia.
Qed.

Lemma map_ext_seq {B : Type} (f g : nat -> B) (N : nat) :
  (forall k, k < N -> f k = g k) -> map f (seq 0 N) = map g (seq 0 N).
Proof. intros Hfg. apply map_ext_in. intros k Hk%in_seq. apply Hfg. lia. Qed.

Lemma tabulate2_ext {B : Type} (rows cols : nat) (f g : nat -> nat -> B) :
  (forall r col, r < rows -> col < cols -> f r col = g r col) ->
  tabulate2 rows cols f = tabulate2 rows cols g.
Proof.
  intros Hfg. unfold tabulate2. apply flat_map_ext_seq. intros r Hr.
  apply map_ext_seq. intros col Hcol. by apply Hfg.
Qed.

Lemma length_flat_map_seq {B : Type} (f : nat -> list B) (L N : nat) :
  (forall k, k < N -> length (f k) = L) ->
  length (flat_map f (seq 0 N)) = N * L.
Proof.
  intros Hf. rewrite (flat_map_constant_length (c := L)).
  - by rewrite length_seq.
  - intros k Hk%in_seq. apply Hf. lia.
Qed.

(** The element [q] of the part [k] of a list made of parts of the same
    length [L]. *)
Lemma lookup_total_flat_map_seq {B : Type} `{!Inhabited B}
    (f : nat -> list B) (L N k q : nat) :
  (forall k', k' < N -> length (f k') = L) ->
  k < N -> q < L ->
  flat_map f (seq 0 N) !!! (k * L + q) = f k !!! q.
Proof.
  induction N as [|N IH]; intros Hf Hk Hq; [lia|].
  rewrite seq_S, flat_map_app. simpl. rewrite app_nil_r.
  assert (Hlen : length (flat_map f (seq 0 N)) = N * L).
  { apply length_flat_map_seq. intros k' Hk'. apply Hf. lia. }
  destruct (decide (k < N)) as [Hlt|Hge].
  - rewrite lookup_total_app_l by (rewrite Hlen; nia).
    apply IH; [|done..]. intros k' Hk'. apply Hf. lia.
  - assert (k = N) as -> by lia.
    rewrite lookup_total_app_r by (rewrite Hlen; lia).
    rewrite Hlen. f_equal. lia.
Qed.

(** A loop over [a * b] indices is a loop over [a] groups of [b]. *)
Lemma map_seq_mul {B : Type} (f : nat -> B) (a b : nat) :
  map f (seq 0 (a * b)) =
  flat_map (fun j => map (fun jj => f (j * b + jj)) (seq 0 b)) (seq 0 a).
Proof.
  induction a as [|a IH]; [done|].
  rewrite seq_S, flat_map_app. simpl flat_map. rewrite app_nil_r, <- IH.
  replace (S a * b) with (a * b + b) by lia.
  rewrite seq_app, map_app. f_equal. simpl.
  replace (seq (a * b) b) with (map (Nat.add (a * b)) (seq 0 b)).
  - by rewrite map_map.
  - rewrite <- (Nat.add_0_r (a * b)) at 2. apply fmap_add_seq.
Qed.

Lemma length_tabulate2 {B : Type} (rows cols : nat) (f : nat -> nat -> B) :
  length (tabulate2 rows cols f) = rows * cols.
Proof.
  unfold tabulate2. apply length_flat_map_seq. intros r _.
  by rewrite length_map, length_seq.
Qed.

Lemma lookup_total_tabulate2 {B : Type} `{!Inhabited B} (rows cols : nat)
    (f : nat -> nat -> B) (r col : nat) :
  r < rows -> col < cols ->
  tabulate2 rows cols f !!! (r * cols + col) = f r col.
Proof.
  intros Hr Hcol. unfold tabulate2.
  rewrite (lookup_total_flat_map_seq _ cols) by
    (try done; intros; by rewrite length_map, length_seq).
  apply list_lookup_total_correct.
  by rewrite lookup_map, lookup_seq_lt.
Qed.

Lemma lookup_tabulate2 {B : Type} (rows cols : nat)
    (f : nat -> nat -> B) (r col : nat) :
  r < rows -> col < cols ->
  tabulate2 rows cols f !! (r * cols + col) = Some (f r col).
Proof.
  intros Hr Hcol.
  destruct (lookup_lt_is_Some_2 (tabulate2 rows cols f) (r * cols + col))
    as [v Hv]; [rewrite length_tabulate2; nia|].
  rewrite Hv. f_equal.
  pose (HI := populate v). apply list_lookup_total_correct in Hv.
  by rewrite lookup_total_tabulate2 in Hv.
Qed.

(** ** The pure expansion *)

Lemma map_range_ok {B : Type} (f : nat -> Result B) (g : nat -> B)
    (l : list nat) :
  (forall k, k ∈ l -> f k = Ok (g k)) ->
  map_range f l = Ok (map g l).
Proof.
  induction l as [|k l IH]; intros Hf; simpl; [done|].
  rewrite Hf by (by left). rewrite bind_Ok, IH, bind_Ok; [done|].
  intros k' Hk'. apply Hf. by right.
Qed.

Lemma map2_range_ok {B : Type} (rows cols : nat)
    (f : nat -> nat -> Result B) (g : nat -> nat -> B) :
  (forall r col, r < rows -> col < cols -> f r col = Ok (g r col)) ->
  map2_range rows cols f = Ok (tabulate2 rows cols g).
Proof.
  intros Hf. unfold map2_range.
  rewrite (map_range_ok _ (fun r => map (g r) (seq 0 cols))).
  - rewrite bind_Ok. unfold tabulate2. by rewrite flat_map_concat_map.
  - intros r Hr%elem_of_seq. apply map_range_ok.
    intros col Hcol%elem_of_seq. apply Hf; lia.
Qed.

Lemma read_ok name arr off :
  off < length arr -> read name arr off = Ok (arr !!! off).
Proof.
  intros Hoff. unfold read.
  destruct (lookup_lt_is_Some_2 arr off Hoff) as [v Hv].
  rewrite Hv. f_equal. symmetry. by apply list_lookup_total_correct.
Qed.

(** The arrays of the size of the matrix are their own table. *)
Lemma tabulate2_lookup_total (rows cols : nat) (A : list Z) :
  length A = rows * cols ->
  tabulate2 rows cols (fun r col => A !!! (r * cols + col)) = A.
Proof.
  intros HA. apply (list_eq_same_length _ _ (rows * cols));
    [done|by rewrite length_tabulate2|].
  intros k v v' Hk Hv Hv'.
  assert (Hcols : cols <> 0) by (intros ->; lia).
  pose proof (Nat.div_mod_eq k cols) as Hk_eq.
  pose proof (Nat.mod_upper_bound k cols Hcols) as Hcol.
  assert (Hr : k / cols < rows).
  { apply Nat.Div0.div_lt_upper_bound. lia. }
  replace k with (k / cols * cols + k mod cols) in Hv, Hv' by lia.
  rewrite lookup_tabulate2 in Hv by done.
  apply list_lookup_total_correct in Hv'. congruence.
Qed.

Section PureProofs.

Import ExpandGerPure.

Context {dt : Dtype}.

(** In exact arithmetic the tasklet of the outer product multiplies by
    [alpha] in both of its forms. *)
Lemma run_mul_alpha node __x __y :
  run_mul (dt := exact)
    (if decide (Ger.alpha node = 1%Z) then mul_x_y
     else mul_alpha_x_y (Ger.alpha node)) __x __y
  = (Ger.alpha node * __x * __y)%Z.
Proof. case_decide as Halpha; simpl; [rewrite Halpha|]; lia. Qed.

(** The graph built by [make_sdfg] for vectors of one dimension in the same
    storage. *)
Lemma make_sdfg_ok node x y cdata :
  length (shape x) = 1 ->
  length (shape y) = 1 ->
  storage x = storage y ->
  exists ops,
    make_sdfg node x y cdata =
    (ops, Ok {| M := shape x !!! 0; N := shape y !!! 0;
                shape_c := [shape x !!! 0; shape y !!! 0];
                mul_program := if decide (Ger.alpha node = 1%Z) then mul_x_y
                               else mul_alpha_x_y (Ger.alpha node);
                memlet_idx := idx_i0_i1 |}).
Proof.
  intros Hx Hy Hstor. unfold make_sdfg.
  rewrite decide_False by lia. rewrite decide_False by (by intros []).
  unfold broadcast_idx. rewrite decide_True by done. eauto.
Qed.

(** What the built graph computes on arrays of the sizes of its shapes. *)
Lemma run_closed_form g _x _y _A :
  length _x = M g ->
  length _y = N g ->
  length _A = M g * N g ->
  memlet_idx g = idx_i0_i1 ->
  run g _x _y _A =
  Ok (tabulate2 (M g) (N g) (fun __i0 __i1 =>
        let __A := _A !!! (__i0 * N g + __i1) in
        let __x := _x !!! __i0 in
        let __y := _y !!! __i1 in
        e_add __A (e_add (e_const 0) (run_mul (mul_program g) __x __y)))).
Proof.
  intros Hx Hy HA Hidx. unfold run.
  rewrite (map2_range_ok _ _ _ (fun __i0 __i1 =>
             e_add (e_const 0)
               (run_mul (mul_program g) (_x !!! __i0) (_y !!! __i1)))).
  - rewrite bind_Ok. apply map2_range_ok. intros r col Hr Hcol.
    unfold memlet_offset. rewrite Hidx.
    rewrite !read_ok, !bind_Ok;
      [by rewrite lookup_total_tabulate2|..];
      rewrite ?length_tabulate2, ?HA; by apply index_bound.
  - intros r col Hr Hcol.
    rewrite !read_ok, !bind_Ok;
      [by rewrite lookup_total_tabulate2|..];
      rewrite ?length_tabulate2; first [by apply index_bound|lia].
Qed.

(** The reference on a matrix of the shape of the outer product, for
    every element type. *)
Lemma reference_update node shape_A x y A :
  length A = length x * length y ->
  reference node shape_A x y A =
  Ok (update (Ger.alpha node) (length x) (length y) x y A).
Proof.
  intros HA. unfold reference.
  destruct (make_sdfg_ok node (vector_operand x) (vector_operand y)
              (matrix_operand shape_A)) as [ops ->]; [done..|].
  rewrite run_closed_form by done. simpl. f_equal.
  apply tabulate2_ext. intros r col _ _. cbv zeta.
  by case_decide.
Qed.

End PureProofs.

(** The same in exact arithmetic. *)
Lemma reference_closed_form node shape_A x y A :
  length A = length x * length y ->
  Pure.reference node shape_A x y A =
  Ok (tabulate2 (length x) (length y) (fun __i0 __i1 =>
        let __A := A !!! (__i0 * length y + __i1) in
        let __x := x !!! __i0 in
        let __y := y !!! __i1 in
        (__A + Ger.alpha node * __x * __y)%Z)).
Proof.
  intros HA. rewrite reference_update by done. f_equal.
  apply tabulate2_ext. intros r col _ _. cbv zeta.
  case_decide as Halpha; simpl; [rewrite Halpha|]; lia.
Qed.

(** ** Counting events *)

Section Counting.

Import Expand_GER_FPGA_Streaming_RowTiles.

Variable p : Event -> bool.

Lemma count_app t1 t2 : count p (t1 ++ t2) = count p t1 + count p t2.
Proof. induction t1 as [|e t1 IH]; simpl; [done|]. rewrite IH. lia. Qed.

Lemma count_all {B : Type} (f : B -> Event) (l : list B) :
  (forall b, p (f b) = true) -> count p (map f l) = length l.
Proof.
  intros Hp. induction l as [|b l IH]; simpl; [done|]. by rewrite Hp, IH.
Qed.

Lemma count_none (t : list Event) :
  (forall e, In e t -> p e = false) -> count p t = 0.
Proof.
  induction t as [|e t IH]; intros Hp; simpl; [done|].
  rewrite Hp by (by left). rewrite IH; [done|].
  intros e' He'. apply Hp. by right.
Qed.

(** Parts with the same count. *)
Lemma count_flat_map_uniform (f : nat -> list Event) (l : list nat) (k : nat) :
  (forall i, In i l -> count p (f i) = k) ->
  count p (flat_map f l) = length l * k.
Proof.
  induction l as [|i l IH]; intros Hf; simpl; [done|].
  rewrite count_app, Hf by (by left). rewrite IH; [done|].
  intros i' Hi'. apply Hf. by right.
Qed.

(** A first part, then parts with the same count. *)
Lemma count_flat_map_first (f : nat -> list Event) (N k : nat) :
  (forall i, 1 <= i < S N -> count p (f i) = k) ->
  count p (flat_map f (seq 0 (S N))) = count p (f 0) + N * k.
Proof.
  intros Hf. rewrite <- cons_seq. simpl. rewrite count_app. f_equal.
  rewrite (count_flat_map_uniform _ _ k), length_seq; [done|].
  intros i Hi%in_seq. apply Hf. lia.
Qed.

End Counting.

(** The events of one row-block among the events of all the row-blocks. *)
Lemma count_in_block (p : RT.Event -> bool) (f : nat -> list RT.Event)
    (N i : nat) :
  (forall k e, In e (f k) -> RT.block_of e = k) ->
  i < N ->
  RT.count (RT.in_block i p) (flat_map f (seq 0 N)) = RT.count p (f i).
Proof.
  intros Hblock Hi.
  assert (Hother : forall k, k <> i -> RT.count (RT.in_block i p) (f k) = 0).
  { intros k Hk. apply count_none. intros e He. unfold RT.in_block.
    rewrite (Hblock k e He). apply andb_false_intro2. by apply Nat.eqb_neq. }
  assert (Hsame : RT.count (RT.in_block i p) (f i) = RT.count p (f i)).
  { specialize (Hblock i). induction (f i) as [|e t IH]; simpl; [done|].
    unfold RT.in_block at 1. rewrite (Hblock e) by (by left).
    rewrite Nat.eqb_refl, andb_true_r, IH; [done|].
    intros e' He'. apply Hblock. by right. }
  replace N with (i + S (N - S i)) by lia.
  rewrite seq_app, flat_map_app, count_app. simpl.
  rewrite count_app, Hsame.
  rewrite !(count_flat_map_uniform _ _ _ 0).
  - lia.
  - intros k Hk%in_seq. apply Hother. lia.
  - intros k Hk%in_seq. apply Hother. lia.
Qed.

(** ** The schedule of the tiled streaming graph *)

Section ScheduleProofs.

Import Expand_GER_FPGA_Streaming_RowTiles.

Context {dt : Dtype}.
Variable c : Config.
Variable Avec : nat -> nat -> nat -> nat -> Vec.
Variable xvec : nat -> nat -> nat -> Vec.
Variable yvec : nat -> nat -> Vec.

Hypothesis xvec_length :
  forall i j jj, length (xvec i j jj) = vecWidthM c.

Local Abbreviation W := (vecWidthM c).
Local Abbreviation yval := (yval yvec).
Local Abbreviation out_vec := (out_vec c Avec xvec yvec).

Lemma length_fill_x i j l buf :
  length (fill_x c xvec i j l buf) = length buf.
Proof.
  revert buf. induction l as [|jj l IH]; intros buf; simpl; [done|].
  unfold fill_x in *. simpl. by rewrite IH, length_inserts.
Qed.

Lemma length_fill_y i l buf :
  length (fill_y yvec i l buf) = length buf.
Proof.
  revert buf. induction l as [|ii l IH]; intros buf; simpl; [done|].
  unfold fill_y in *. simpl. by rewrite IH, length_insert.
Qed.

(** After the reads of the row [ii = 0], each place of the buffer that was
    read holds its vector of [x]. *)
Lemma sublist_lookup_fill_x i j l buf jj :
  (forall jj', jj' ∈ l -> jj' * W + W <= length buf) ->
  jj ∈ l \/ sublist_lookup (jj * W) W buf = Some (xvec i j jj) ->
  sublist_lookup (jj * W) W (fill_x c xvec i j l buf) = Some (xvec i j jj).
Proof.
  revert buf. induction l as [|k l IH]; intros buf Hb Hjj.
  { destruct Hjj as [Hjj|Hjj]; [by apply elem_of_nil in Hjj|done]. }
  unfold fill_x. simpl. apply IH.
  { intros jj' Hjj'. rewrite length_inserts. apply Hb. by right. }
  destruct (decide (jj = k)) as [->|Hne].
  { right. rewrite <- (xvec_length i j k) at 2.
    apply sublist_lookup_inserts. rewrite xvec_length. apply Hb. by left. }
  destruct Hjj as [Hjj|Hjj].
  { left. apply elem_of_cons in Hjj. by destruct Hjj. }
  right. rewrite sublist_lookup_inserts_disjoint; [done|].
  rewrite xvec_length. nia.
Qed.

Lemma lookup_fill_y i l buf ii :
  (forall ii', ii' ∈ l -> ii' < length buf) ->
  ii ∈ l \/ buf !! ii = Some (yval i ii) ->
  fill_y yvec i l buf !! ii = Some (yval i ii).
Proof.
  revert buf. induction l as [|k l IH]; intros buf Hb Hii.
  { destruct Hii as [Hii|Hii]; [by apply elem_of_nil in Hii|done]. }
  unfold fill_y. simpl. apply IH.
  { intros ii' Hii'. rewrite length_insert. apply Hb. by right. }
  destruct (decide (ii = k)) as [->|Hne].
  { right. apply list_lookup_insert_eq. apply Hb. by left. }
  destruct Hii as [Hii|Hii].
  { left. apply elem_of_cons in Hii. by destruct Hii. }
  right. by rewrite list_lookup_insert_ne.
Qed.

(** One step with [ii = 0]: a vector of [x] is read in the buffer. *)
Lemma unrolled_read i j jj s A_con Arest x_con xrest yv :
  A_in s = A_con :: Arest ->
  x_in s = x_con :: xrest ->
  length x_con = W ->
  jj * W + W <= length (x_buf s) ->
  y_buf_row s !! 0 = Some yv ->
  make_unrolledCompute c i j 0 jj s =
  Ok {| A_in := Arest; x_in := xrest; y_in := y_in s;
        res := res s ++ [compute_task (a c) A_con x_con yv];
        y_buf_row := y_buf_row s;
        x_buf := list_inserts (jj * W) x_con (x_buf s);
        trace := trace s ++ [Compute i j 0 jj yv] |}.
Proof.
  intros HA Hx Hlen Hb Hy. unfold make_unrolledCompute.
  rewrite decide_True, Hx, decide_True, bind_Ok by done. simpl.
  rewrite HA, Hy. rewrite <- Hlen at 2.
  rewrite sublist_lookup_inserts by (rewrite Hlen; done). done.
Qed.

(** One step with [ii <> 0]: the buffer is used as it is. *)
Lemma unrolled_reuse i j ii jj s A_con Arest x_con yv :
  ii <> 0 ->
  A_in s = A_con :: Arest ->
  sublist_lookup (jj * W) W (x_buf s) = Some x_con ->
  y_buf_row s !! ii = Some yv ->
  make_unrolledCompute c i j ii jj s =
  Ok {| A_in := Arest; x_in := x_in s; y_in := y_in s;
        res := res s ++ [compute_task (a c) A_con x_con yv];
        y_buf_row := y_buf_row s;
        x_buf := x_buf s;
        trace := trace s ++ [Compute i j ii jj yv] |}.
Proof.
  intros Hii HA Hx Hy. unfold make_unrolledCompute.
  rewrite decide_False, bind_Ok by done. by rewrite HA, Hx, Hy.
Qed.

(** The row [ii = 0] of a tile: every step reads a vector of [x] in the
    buffer and computes with it. *)
Lemma row_read i j l s Arest xrest yv :
  A_in s = map (Avec i j 0) l ++ Arest ->
  x_in s = map (xvec i j) l ++ xrest ->
  (forall jj, jj ∈ l -> jj * W + W <= length (x_buf s)) ->
  y_buf_row s !! 0 = Some yv ->
  for_range (make_unrolledCompute c i j 0) l s =
  Ok {| A_in := Arest; x_in := xrest; y_in := y_in s;
        res := res s ++ map (fun jj => compute_task (a c) (Avec i j 0 jj)
                                         (xvec i j jj) yv) l;
        y_buf_row := y_buf_row s;
        x_buf := fill_x c xvec i j l (x_buf s);
        trace := trace s ++ map (fun jj => Compute i j 0 jj yv) l |}.
Proof.
  revert s. induction l as [|jj l IH]; intros s HA Hx Hb Hy; simpl.
  { destruct s; simpl in *; subst. by rewrite !app_nil_r. }
  rewrite (unrolled_read i j jj s (Avec i j 0 jj) (map (Avec i j 0) l ++ Arest)
             (xvec i j jj) (map (xvec i j) l ++ xrest) yv);
    [|exact HA|exact Hx|apply xvec_length|apply Hb; by left|exact Hy].
  rewrite bind_Ok, (IH _); simpl; try done.
  - by rewrite <- !app_assoc.
  - intros jj' Hjj'. rewrite length_inserts. apply Hb. by right.
Qed.

(** A row [ii <> 0] of a tile: no vector of [x] is read, the buffer is
    used as it is. *)
Lemma row_reuse i j ii l s Arest yv :
  ii <> 0 ->
  A_in s = map (Avec i j ii) l ++ Arest ->
  (forall jj, jj ∈ l ->
     sublist_lookup (jj * W) W (x_buf s) = Some (xvec i j jj)) ->
  y_buf_row s !! ii = Some yv ->
  for_range (make_unrolledCompute c i j ii) l s =
  Ok {| A_in := Arest; x_in := x_in s; y_in := y_in s;
        res := res s ++ map (fun jj => compute_task (a c) (Avec i j ii jj)
                                         (xvec i j jj) yv) l;
        y_buf_row := y_buf_row s;
        x_buf := x_buf s;
        trace := trace s ++ map (fun jj => Compute i j ii jj yv) l |}.
Proof.
  intros Hii. revert s.
  induction l as [|jj l IH]; intros s HA Hb Hy; simpl.
  { destruct s; simpl in *; subst. by rewrite !app_nil_r. }
  rewrite (unrolled_reuse i j ii jj s (Avec i j ii jj)
             (map (Avec i j ii) l ++ Arest) (xvec i j jj) yv);
    [|exact Hii|exact HA|apply Hb; by left|exact Hy].
  rewrite bind_Ok, (IH _); simpl; try done.
  - by rewrite <- !app_assoc.
  - intros jj' Hjj'. apply Hb. by right.
Qed.

Local Abbreviation K := (mTile c / vecWidthM c).

Lemma elem_of_lanes jj : jj ∈ lanes c <-> jj < K.
Proof. unfold lanes. rewrite elem_of_seq. lia. Qed.

Lemma elem_of_rows ii : ii ∈ rows c <-> ii < nTile c.
Proof. unfold rows. rewrite elem_of_seq. lia. Qed.

(** One row of a tile: the state [read_y_reduceTile] or
    [read_empty_reduceTile], then the steps of the row. *)
Lemma tile_row i j ii s Arest xrest yrest :
  A_in s = row_A c Avec i j ii ++ Arest ->
  (ii = 0 -> x_in s = tile_x c xvec i j ++ xrest
             /\ K * W <= length (x_buf s)) ->
  (ii <> 0 -> forall jj, jj < K ->
     sublist_lookup (jj * W) W (x_buf s) = Some (xvec i j jj)) ->
  (j = 0 -> y_in s = yvec i ii :: yrest /\ ii < length (y_buf_row s)) ->
  (j <> 0 -> y_buf_row s !! ii = Some (yval i ii)) ->
  make_computeTileRowStreamed c i j ii s =
  Ok {| A_in := Arest;
        x_in := if decide (ii = 0) then xrest else x_in s;
        y_in := if decide (j = 0) then yrest else y_in s;
        res := res s ++ row_res c Avec xvec yvec i j ii;
        y_buf_row := if decide (j = 0)
                     then <[ii := yval i ii]> (y_buf_row s)
                     else y_buf_row s;
        x_buf := if decide (ii = 0)
                 then fill_x c xvec i j (lanes c) (x_buf s) else x_buf s;
        trace := trace s ++ row_trace c yvec i j ii |}.
Proof.
  intros HA Hx0 Hx1 Hy0 Hy1. unfold make_computeTileRowStreamed.
  assert (Hlanes : forall jj, jj ∈ lanes c -> jj * W + W <= K * W).
  { intros jj Hjj%elem_of_lanes. nia. }
  unfold row_res, row_trace, RT.out_vec.
  destruct (decide (j = 0)) as [Hj|Hj], (decide (ii = 0)) as [Hii|Hii].
  - destruct (Hx0 Hii) as [Hx Hb], (Hy0 Hj) as [Hy Hl]. subst ii.
    rewrite Hy, decide_True, bind_Ok by done.
    erewrite (row_read i j (lanes c) _ Arest xrest (yval i 0)); simpl.
    + by rewrite <- !app_assoc.
    + exact HA.
    + exact Hx.
    + intros jj Hjj. specialize (Hlanes jj Hjj). lia.
    + by apply list_lookup_insert_eq.
  - destruct (Hy0 Hj) as [Hy Hl].
    rewrite Hy, decide_True, bind_Ok by done.
    erewrite (row_reuse i j ii (lanes c) _ Arest (yval i ii)); simpl.
    + by rewrite <- !app_assoc.
    + exact Hii.
    + exact HA.
    + intros jj Hjj%elem_of_lanes. by apply Hx1.
    + by apply list_lookup_insert_eq.
  - destruct (Hx0 Hii) as [Hx Hb]. subst ii. rewrite bind_Ok.
    erewrite (row_read i j (lanes c) _ Arest xrest (yval i 0)); simpl.
    + by rewrite <- !app_assoc.
    + exact HA.
    + exact Hx.
    + intros jj Hjj. specialize (Hlanes jj Hjj). lia.
    + by apply Hy1.
  - rewrite bind_Ok.
    erewrite (row_reuse i j ii (lanes c) _ Arest (yval i ii)); simpl.
    + by rewrite <- !app_assoc.
    + exact Hii.
    + exact HA.
    + intros jj Hjj%elem_of_lanes. by apply Hx1.
    + by apply Hy1.
Qed.

(** The rows after the first of a tile: the buffer of [x] is full. *)
Lemma tile_rows_tail i j l s Arest yrest :
  (forall ii, ii ∈ l -> ii <> 0) ->
  A_in s = flat_map (row_A c Avec i j) l ++ Arest ->
  (forall jj, jj < K ->
     sublist_lookup (jj * W) W (x_buf s) = Some (xvec i j jj)) ->
  (j = 0 -> y_in s = map (yvec i) l ++ yrest
            /\ forall ii, ii ∈ l -> ii < length (y_buf_row s)) ->
  (j <> 0 -> forall ii, ii ∈ l -> y_buf_row s !! ii = Some (yval i ii)) ->
  for_range (make_computeTileRowStreamed c i j) l s =
  Ok {| A_in := Arest;
        x_in := x_in s;
        y_in := if decide (j = 0) then yrest else y_in s;
        res := res s ++ flat_map (row_res c Avec xvec yvec i j) l;
        y_buf_row := if decide (j = 0)
                     then fill_y yvec i l (y_buf_row s) else y_buf_row s;
        x_buf := x_buf s;
        trace := trace s ++ flat_map (row_trace c yvec i j) l |}.
Proof.
  revert s. induction l as [|ii l IH]; intros s Hl HA Hx Hy0 Hy1; simpl.
  { destruct s; simpl in *. rewrite !app_nil_r.
    destruct (decide (j = 0)) as [Hj|Hj]; [|by subst].
    destruct (Hy0 Hj) as [-> _]. by subst. }
  assert (Hii : ii <> 0) by (apply Hl; by left).
  rewrite (tile_row i j ii s (flat_map (row_A c Avec i j) l ++ Arest)
             (x_in s) (map (yvec i) l ++ yrest)); first last.
  - intros Hj. apply Hy1; [done|by left].
  - intros Hj. destruct (Hy0 Hj) as [Hy Hb]. split; [done|].
    apply Hb. by left.
  - done.
  - done.
  - rewrite HA. simpl. by rewrite <- app_assoc.
  - rewrite bind_Ok, (IH _ ); simpl.
    + rewrite !(decide_False (P := ii = 0)) by done.
      rewrite <- !app_assoc. unfold row_trace.
      destruct (decide (j = 0)); do 2 f_equal; reflexivity.
    + intros ii' Hii'. apply Hl. by right.
    + done.
    + by rewrite !(decide_False (P := ii = 0)) by done.
    + intros Hj. rewrite !(decide_True (P := j = 0)) by done.
      split; [done|]. intros ii' Hii'. rewrite length_insert.
      destruct (Hy0 Hj) as [_ Hb]. apply Hb. by right.
    + intros Hj ii' Hii'. rewrite !(decide_False (P := j = 0)) by done.
      apply Hy1; [done|by right].
Qed.

(** A whole tile: the first row fills the buffer of [x], the other rows
    use it. *)
Lemma tile_all i j s Arest xrest yrest :
  0 < nTile c ->
  A_in s = tile_A c Avec i j ++ Arest ->
  x_in s = tile_x c xvec i j ++ xrest ->
  K * W <= length (x_buf s) ->
  (j = 0 -> y_in s = block_y c yvec i ++ yrest
            /\ nTile c <= length (y_buf_row s)) ->
  (j <> 0 -> forall ii, ii < nTile c ->
     y_buf_row s !! ii = Some (yval i ii)) ->
  for_range (make_computeTileRowStreamed c i j) (rows c) s =
  Ok {| A_in := Arest;
        x_in := xrest;
        y_in := if decide (j = 0) then yrest else y_in s;
        res := res s ++ tile_res c Avec xvec yvec i j;
        y_buf_row := if decide (j = 0)
                     then fill_y yvec i (rows c) (y_buf_row s)
                     else y_buf_row s;
        x_buf := fill_x c xvec i j (lanes c) (x_buf s);
        trace := trace s ++ tile_trace c yvec i j |}.
Proof.
  intros Hpos HA Hx Hb Hy0 Hy1.
  unfold tile_res, tile_trace, tile_A, block_y in *.
  assert (Hrows : forall ii, ii ∈ rows c <-> ii < nTile c)
    by apply elem_of_rows.
  unfold rows in *. destruct (nTile c) as [|nT]; [lia|].
  rewrite <- cons_seq in *. simpl in HA. simpl.
  rewrite (tile_row i j 0 s (flat_map (row_A c Avec i j) (seq 1 nT) ++ Arest)
             xrest (map (yvec i) (seq 1 nT) ++ yrest)); first last.
  - intros Hj. apply Hy1; [done|lia].
  - intros Hj. destruct (Hy0 Hj) as [Hy Hl]. split; [done|lia].
  - done.
  - done.
  - rewrite HA. by rewrite <- app_assoc.
  - rewrite bind_Ok, (tile_rows_tail i j (seq 1 nT) _ Arest yrest); simpl.
    + rewrite <- !app_assoc. unfold row_trace.
      destruct (decide (j = 0)); do 2 f_equal; reflexivity.
    + intros ii Hii%elem_of_seq. lia.
    + done.
    + intros jj Hjj. apply sublist_lookup_fill_x.
      * intros jj' Hjj'%elem_of_lanes. nia.
      * left. by apply elem_of_lanes.
    + intros Hj. rewrite !(decide_True (P := j = 0)) by done.
      split; [done|]. intros ii Hii%elem_of_seq. rewrite length_insert.
      destruct (Hy0 Hj) as [_ Hl]. lia.
    + intros Hj ii Hii%elem_of_seq.
      rewrite !(decide_False (P := j = 0)) by done. apply Hy1; [done|lia].
Qed.

Lemma length_fill_x_block i l buf :
  length (fill_x_block c xvec i l buf) = length buf.
Proof.
  revert buf. induction l as [|j l IH]; intros buf; simpl; [done|].
  unfold fill_x_block in *. simpl. by rewrite IH, length_fill_x.
Qed.

(** The tiles after the first of a row-block: the buffer of [y] is full,
    nothing is read from the stream of [y]. *)
Lemma block_tiles_tail i l s Arest xrest :
  0 < nTile c ->
  (forall j, j ∈ l -> j <> 0) ->
  A_in s = flat_map (tile_A c Avec i) l ++ Arest ->
  x_in s = flat_map (tile_x c xvec i) l ++ xrest ->
  K * W <= length (x_buf s) ->
  (forall ii, ii < nTile c -> y_buf_row s !! ii = Some (yval i ii)) ->
  for_range (fun j => for_range (make_computeTileRowStreamed c i j) (rows c))
    l s =
  Ok {| A_in := Arest;
        x_in := xrest;
        y_in := y_in s;
        res := res s ++ flat_map (tile_res c Avec xvec yvec i) l;
        y_buf_row := y_buf_row s;
        x_buf := fill_x_block c xvec i l (x_buf s);
        trace := trace s ++ flat_map (tile_trace c yvec i) l |}.
Proof.
  intros Hpos. revert s.
  induction l as [|j l IH]; intros s Hl HA Hx Hb Hy; simpl.
  { destruct s; simpl in *; subst. by rewrite !app_nil_r. }
  assert (Hj : j <> 0) by (apply Hl; by left).
  rewrite (tile_all i j s (flat_map (tile_A c Avec i) l ++ Arest)
             (flat_map (tile_x c xvec i) l ++ xrest) []); first last.
  - done.
  - done.
  - done.
  - rewrite Hx. simpl. by rewrite <- app_assoc.
  - rewrite HA. simpl. by rewrite <- app_assoc.
  - done.
  - rewrite bind_Ok, (IH _); simpl.
    + rewrite !(decide_False (P := j = 0)) by done.
      rewrite <- !app_assoc. do 2 f_equal.
    + intros j' Hj'. apply Hl. by right.
    + done.
    + done.
    + by rewrite length_fill_x.
    + by rewrite !(decide_False (P := j = 0)) by done.
Qed.

(** A whole row-block: the first tile fills the buffer of [y], the other
    tiles use it. *)
Lemma block_all i s Arest xrest yrest :
  0 < nTile c ->
  0 < m c / mTile c ->
  A_in s = block_A c Avec i ++ Arest ->
  x_in s = block_x c xvec i ++ xrest ->
  y_in s = block_y c yvec i ++ yrest ->
  K * W <= length (x_buf s) ->
  nTile c <= length (y_buf_row s) ->
  for_range (fun j => for_range (make_computeTileRowStreamed c i j) (rows c))
    (tiles c) s =
  Ok {| A_in := Arest;
        x_in := xrest;
        y_in := yrest;
        res := res s ++ block_res c Avec xvec yvec i;
        y_buf_row := fill_y yvec i (rows c) (y_buf_row s);
        x_buf := fill_x_block c xvec i (tiles c) (x_buf s);
        trace := trace s ++ block_trace c yvec i |}.
Proof.
  intros Hpos Htiles HA Hx Hy Hbx Hby.
  unfold block_res, block_trace, block_A, block_x, tiles in *.
  destruct (m c / mTile c) as [|mT]; [lia|].
  rewrite <- cons_seq in *. simpl in HA, Hx. simpl.
  rewrite (tile_all i 0 s (flat_map (tile_A c Avec i) (seq 1 mT) ++ Arest)
             (flat_map (tile_x c xvec i) (seq 1 mT) ++ xrest) yrest);
    first last.
  - done.
  - done.
  - done.
  - rewrite Hx. by rewrite <- app_assoc.
  - rewrite HA. by rewrite <- app_assoc.
  - done.
  - rewrite bind_Ok, (block_tiles_tail i (seq 1 mT) _ Arest xrest); simpl.
    + rewrite <- !app_assoc. do 2 f_equal.
    + done.
    + intros j Hj%elem_of_seq. lia.
    + done.
    + done.
    + by rewrite length_fill_x.
    + intros ii Hii. apply lookup_fill_y.
      * intros ii' Hii'%elem_of_rows. lia.
      * left. by apply elem_of_rows.
Qed.

(** The row-blocks in [l], one after the other. *)
Lemma blocks_all l s Arest xrest yrest :
  0 < nTile c ->
  0 < m c / mTile c ->
  A_in s = flat_map (block_A c Avec) l ++ Arest ->
  x_in s = flat_map (block_x c xvec) l ++ xrest ->
  y_in s = flat_map (block_y c yvec) l ++ yrest ->
  K * W <= length (x_buf s) ->
  nTile c <= length (y_buf_row s) ->
  for_range (fun i =>
    for_range (fun j => for_range (make_computeTileRowStreamed c i j)
                          (rows c)) (tiles c)) l s =
  Ok {| A_in := Arest;
        x_in := xrest;
        y_in := yrest;
        res := res s ++ flat_map (block_res c Avec xvec yvec) l;
        y_buf_row := fill_y_all c yvec l (y_buf_row s);
        x_buf := fill_x_all c xvec l (x_buf s);
        trace := trace s ++ flat_map (block_trace c yvec) l |}.
Proof.
  intros Hpos Htiles. revert s.
  induction l as [|i l IH]; intros s HA Hx Hy Hbx Hby; simpl.
  { destruct s; simpl in *; subst. by rewrite !app_nil_r. }
  rewrite (block_all i s (flat_map (block_A c Avec) l ++ Arest)
             (flat_map (block_x c xvec) l ++ xrest)
             (flat_map (block_y c yvec) l ++ yrest)); first last.
  - done.
  - done.
  - rewrite Hy. simpl. by rewrite <- app_assoc.
  - rewrite Hx. simpl. by rewrite <- app_assoc.
  - rewrite HA. simpl. by rewrite <- app_assoc.
  - done.
  - done.
  - rewrite bind_Ok, (IH _); simpl.
    + rewrite <- !app_assoc. do 2 f_equal.
    + done.
    + done.
    + done.
    + by rewrite length_fill_x_block.
    + by rewrite length_fill_y.
Qed.

(** The whole graph on streams that hold what the schedule reads. *)
Lemma make_sdfg_closed_form s Arest xrest yrest :
  0 < nTile c ->
  0 < m c / mTile c ->
  A_in s = flat_map (block_A c Avec) (blocks c) ++ Arest ->
  x_in s = flat_map (block_x c xvec) (blocks c) ++ xrest ->
  y_in s = flat_map (block_y c yvec) (blocks c) ++ yrest ->
  K * W <= length (x_buf s) ->
  nTile c <= length (y_buf_row s) ->
  make_sdfg c s =
  Ok {| A_in := Arest;
        x_in := xrest;
        y_in := yrest;
        res := res s ++ flat_map (block_res c Avec xvec yvec) (blocks c);
        y_buf_row := fill_y_all c yvec (blocks c) (y_buf_row s);
        x_buf := fill_x_all c xvec (blocks c) (x_buf s);
        trace := trace s ++ flat_map (block_trace c yvec) (blocks c) |}.
Proof. intros. by apply blocks_all. Qed.

(** The streams of the matrix and of the results are streams of one
    vector per step. *)
Lemma stream_of_A :
  flat_map (block_A c Avec) (blocks c) = stream_of c Avec.
Proof. reflexivity. Qed.

Lemma stream_of_res :
  flat_map (block_res c Avec xvec yvec) (blocks c) = stream_of c out_vec.
Proof. reflexivity. Qed.

Section StreamOf.

Variable vec : nat -> nat -> nat -> nat -> Vec.

Lemma length_stream_of_row i j ii :
  length (map (vec i j ii) (lanes c)) = K.
Proof. unfold lanes. by rewrite length_map, length_seq. Qed.

Lemma length_stream_of_tile i j :
  length (flat_map (fun ii => map (vec i j ii) (lanes c)) (rows c))
  = nTile c * K.
Proof.
  unfold rows. apply length_flat_map_seq.
  intros. apply length_stream_of_row.
Qed.

Lemma length_stream_of_block i :
  length (flat_map (fun j =>
            flat_map (fun ii => map (vec i j ii) (lanes c)) (rows c))
            (tiles c))
  = m c / mTile c * (nTile c * K).
Proof.
  unfold tiles. apply length_flat_map_seq.
  intros. apply length_stream_of_tile.
Qed.

Lemma length_stream_of :
  length (stream_of c vec)
  = n c / nTile c * (m c / mTile c * (nTile c * K)).
Proof.
  unfold stream_of, blocks. apply length_flat_map_seq.
  intros. apply length_stream_of_block.
Qed.

(** The place of the vector of the step [i], [j], [ii], [jj] on the
    stream. *)
Lemma lookup_total_stream_of i j ii jj :
  i < n c / nTile c -> j < m c / mTile c -> ii < nTile c -> jj < K ->
  stream_of c vec !!! (((i * (m c / mTile c) + j) * nTile c + ii) * K + jj)
  = vec i j ii jj.
Proof.
  intros Hi Hj Hii Hjj.
  replace (((i * (m c / mTile c) + j) * nTile c + ii) * K + jj)
    with (i * (m c / mTile c * (nTile c * K))
          + (j * (nTile c * K) + (ii * K + jj))) by ring.
  unfold stream_of, blocks.
  rewrite (lookup_total_flat_map_seq _ (m c / mTile c * (nTile c * K)));
    [|intros; apply length_stream_of_block|done
     |by repeat apply index_bound].
  unfold tiles.
  rewrite (lookup_total_flat_map_seq _ (nTile c * K));
    [|intros; apply length_stream_of_tile|done|by apply index_bound].
  unfold rows.
  rewrite (lookup_total_flat_map_seq _ K);
    [|intros; apply length_stream_of_row|done|done].
  unfold lanes. apply list_lookup_total_correct.
  by rewrite lookup_map, lookup_seq_lt.
Qed.

End StreamOf.

(** The events of the schedule. *)
Lemma in_row_trace e i j ii :
  In e (row_trace c yvec i j ii) <->
  e = (if decide (j = 0) then ReadY i j ii (yval i ii)
       else ReadEmpty i j ii)
  \/ exists jj, jj < K /\ e = Compute i j ii jj (yval i ii).
Proof.
  unfold row_trace, lanes. simpl. rewrite in_map_iff.
  split; (intros [He|(jj & H1 & H2)]; [by left|right; exists jj]).
  - apply in_seq in H2. split; [lia|done].
  - split; [done|apply in_seq; lia].
Qed.

Lemma in_trace e :
  In e (flat_map (block_trace c yvec) (blocks c)) <->
  exists i j ii,
    i < n c / nTile c /\ j < m c / mTile c /\ ii < nTile c /\
    In e (row_trace c yvec i j ii).
Proof.
  unfold blocks, block_trace, tiles, tile_trace, rows.
  rewrite in_flat_map. split.
  - intros (i & Hi%in_seq & (j & Hj%in_seq & (ii & Hii%in_seq & He)
                              %in_flat_map)%in_flat_map).
    exists i, j, ii. repeat split; [lia..|done].
  - intros (i & j & ii & Hi & Hj & Hii & He).
    exists i. split; [apply in_seq; lia|]. apply in_flat_map.
    exists j. split; [apply in_seq; lia|]. apply in_flat_map.
    exists ii. split; [apply in_seq; lia|done].
Qed.

Lemma block_of_block_trace i e :
  In e (block_trace c yvec i) -> block_of e = i.
Proof.
  unfold block_trace, tile_trace.
  intros (j & _ & (ii & _ & He%in_row_trace)%in_flat_map)%in_flat_map.
  destruct He as [->|(jj & _ & ->)]; [by case_decide|done].
Qed.

(** The events of one row of a tile, of one tile and of one row-block. *)
Lemma count_ReadY_row i j ii :
  count is_ReadY (row_trace c yvec i j ii) = if decide (j = 0) then 1 else 0.
Proof.
  unfold row_trace. simpl. rewrite count_none.
  - by case_decide.
  - by intros e (jj & <- & _)%in_map_iff.
Qed.

Lemma count_ReadEmpty_row i j ii :
  count is_ReadEmpty (row_trace c yvec i j ii)
  = if decide (j = 0) then 0 else 1.
Proof.
  unfold row_trace. simpl. rewrite count_none.
  - by case_decide.
  - by intros e (jj & <- & _)%in_map_iff.
Qed.

Lemma count_Compute_row i j ii :
  count is_Compute (row_trace c yvec i j ii) = K.
Proof.
  unfold row_trace. simpl. rewrite count_all by done.
  unfold lanes. rewrite length_seq. by case_decide.
Qed.

Lemma count_ReadY_block i :
  0 < m c / mTile c ->
  count is_ReadY (block_trace c yvec i) = nTile c.
Proof.
  intros Htiles. unfold block_trace, tiles.
  destruct (m c / mTile c) as [|MB]; [lia|].
  rewrite (count_flat_map_first _ _ _ 0).
  - unfold tile_trace. rewrite (count_flat_map_uniform _ _ _ 1).
    + unfold rows. rewrite length_seq. lia.
    + intros ii _. apply count_ReadY_row.
  - intros j Hj. unfold tile_trace.
    rewrite (count_flat_map_uniform _ _ _ 0); [lia|].
    intros ii _. rewrite count_ReadY_row. rewrite decide_False; [done|lia].
Qed.

Lemma count_ReadEmpty_block i :
  0 < m c / mTile c ->
  count is_ReadEmpty (block_trace c yvec i)
  = (m c / mTile c - 1) * nTile c.
Proof.
  intros Htiles. unfold block_trace, tiles.
  destruct (m c / mTile c) as [|MB]; [lia|].
  rewrite (count_flat_map_first _ _ _ (nTile c)).
  - unfold tile_trace. rewrite (count_flat_map_uniform _ _ _ 0).
    + lia.
    + intros ii _. apply count_ReadEmpty_row.
  - intros j Hj. unfold tile_trace.
    rewrite (count_flat_map_uniform _ _ _ 1).
    + unfold rows. rewrite length_seq. lia.
    + intros ii _. rewrite count_ReadEmpty_row.
      rewrite decide_False; [done|lia].
Qed.

Lemma count_Compute_block i :
  count is_Compute (block_trace c yvec i)
  = m c / mTile c * (nTile c * K).
Proof.
  unfold block_trace, tiles.
  rewrite (count_flat_map_uniform _ _ _ (nTile c * K)).
  - by rewrite length_seq.
  - intros j _. unfold tile_trace.
    rewrite (count_flat_map_uniform _ _ _ K).
    + unfold rows. by rewrite length_seq.
    + intros ii _. apply count_Compute_row.
Qed.

Lemma count_ReadY_all :
  0 < m c / mTile c ->
  count is_ReadY (flat_map (block_trace c yvec) (blocks c))
  = n c / nTile c * nTile c.
Proof.
  intros Htiles. rewrite (count_flat_map_uniform _ _ _ (nTile c)).
  - unfold blocks. by rewrite length_seq.
  - intros i _. by apply count_ReadY_block.
Qed.

End ScheduleProofs.

(** ** The tiled streaming graph between its stream adapters *)

Section NodeStreams.

Import Expand_GER_FPGA_Streaming_RowTiles.

Context {dt : Dtype}.
Variable node : Ger.Node.
Variables x y A : list Z.
Hypothesis Hvalid : valid node.

Local Abbreviation c := (config node).
Local Abbreviation Avec := (node_Avec node A).
Local Abbreviation xvec := (node_xvec node x).
Local Abbreviation yvec := (node_yvec node y).

(** The quotients of a valid configuration. *)
Lemma valid_quotients :
  exists NB MB K,
    0 < NB /\ 0 < MB /\ 0 < K /\
    Ger.n node = NB * Ger.nTile node /\
    Ger.m node = MB * Ger.mTile node /\
    Ger.mTile node = K * Ger.vecWidthM node /\
    Ger.n node / Ger.nTile node = NB /\
    Ger.m node / Ger.mTile node = MB /\
    Ger.mTile node / Ger.vecWidthM node = K /\
    Ger.m node / Ger.vecWidthM node = MB * K.
Proof.
  destruct Hvalid as (Hn & Hm & HnT & HmT & HW & [NB HNB] & [MB HMB] & [K HK]).
  exists NB, MB, K. rewrite HNB, HMB, HK. rewrite HNB in Hn.
  rewrite HMB in Hm. rewrite HK in HmT.
  repeat split; try nia.
  - apply Nat.div_mul. lia.
  - apply Nat.div_mul. nia.
  - apply Nat.div_mul. lia.
  - rewrite Nat.mul_assoc. apply Nat.div_mul. lia.
Qed.

Lemma reader_A_schedule :
  Ger.getStreamReader_A node A = flat_map (block_A c Avec) (blocks c).
Proof. reflexivity. Qed.

Lemma reader_x_schedule :
  Ger.getStreamReader_x node x = flat_map (block_x c xvec) (blocks c).
Proof.
  destruct valid_quotients as (NB & MB & K & _ & _ & _ & _ & _ & _ & _ & HMB & HK & HMK).
  unfold Ger.getStreamReader_x, StreamReadVector, blocks, block_x, tiles,
    tile_x, lanes, node_xvec. simpl.
  rewrite HMK, HMB, HK. apply flat_map_ext. intros _.
  apply (map_seq_mul (fun k => pack _ x (k * _))).
Qed.

Lemma reader_y_schedule :
  Ger.getStreamReader_y node y = flat_map (block_y c yvec) (blocks c).
Proof.
  destruct valid_quotients as (NB & MB & K & _ & _ & _ & HNB & _ & _ & HNB' & _).
  unfold Ger.getStreamReader_y, StreamReadVector, blocks, block_y, rows,
    node_yvec. cbn [flat_map seq config n nTile].
  rewrite app_nil_r, Nat.div_1_r, HNB'.
  rewrite HNB at 1. apply (map_seq_mul (fun k => pack 1 y (k * 1))).
Qed.

(** With a valid configuration the graph runs to its end: it takes every
    vector of its three input streams and puts on its output stream the
    results of the schedule. *)
Lemma run_streams_closed_form y_buf_row0 x_buf0 :
  length y_buf_row0 = Ger.nTile node ->
  length x_buf0 = Ger.mTile node ->
  run_streams node x y A y_buf_row0 x_buf0 =
  Ok {| A_in := []; x_in := []; y_in := [];
        res := flat_map (block_res c Avec xvec yvec) (blocks c);
        y_buf_row := fill_y_all c yvec (blocks c) y_buf_row0;
        x_buf := fill_x_all c xvec (blocks c) x_buf0;
        trace := flat_map (block_trace c yvec) (blocks c) |}.
Proof.
  intros Hy Hx.
  destruct valid_quotients as (NB & MB & K & _ & HMBpos & _ & _ & _ & HK & _ & HMB & HK' & _).
  destruct Hvalid as (_ & _ & HnT & _).
  unfold run_streams.
  rewrite (make_sdfg_closed_form c Avec xvec yvec) with
    (Arest := []) (xrest := []) (yrest := []); simpl.
  - done.
  - intros. apply length_pack.
  - done.
  - rewrite HMB. done.
  - by rewrite app_nil_r, reader_A_schedule.
  - by rewrite app_nil_r, reader_x_schedule.
  - by rewrite app_nil_r, reader_y_schedule.
  - rewrite HK', Hx. lia.
  - lia.
Qed.

(** One lane of the tasklet on vectors loaded from [A] and [x]. *)
Lemma lookup_total_compute_task a W offA offx y_con l :
  l < W ->
  compute_task a (pack W A offA) (pack W x offx) y_con !!! l
  = (let A_l := A !!! (offA + l) in
     let x_l := x !!! (offx + l) in
     e_add A_l (e_mul (e_mul x_l y_con) (e_const a))).
Proof.
  intros Hl. apply list_lookup_total_correct. unfold compute_task, pack.
  rewrite lookup_zip_with, !lookup_map, lookup_seq_lt by done. reflexivity.
Qed.

(** The matrix that the stream writer stores from a stream of one vector
    per step, when the lanes of the vectors are the entries [f r col] of a
    matrix. *)
Lemma writer_stream_of (vec : nat -> nat -> nat -> nat -> Vec)
    (f : nat -> nat -> Z) :
  (forall i j ii jj l,
     i < Ger.n node / Ger.nTile node ->
     j < Ger.m node / Ger.mTile node ->
     ii < Ger.nTile node ->
     jj < Ger.mTile node / Ger.vecWidthM node ->
     l < Ger.vecWidthM node ->
     vec i j ii jj !!! l
     = f (i * Ger.nTile node + ii)
         (j * Ger.mTile node + jj * Ger.vecWidthM node + l)) ->
  Ger.getStreamWriter_RES node (stream_of c vec)
  = tabulate2 (Ger.n node) (Ger.m node) f.
Proof.
  intros Hvec.
  destruct valid_quotients
    as (NB & MB & K & HNBpos & HMBpos & HKpos & HNB & HMB & HK
        & HNB' & HMB' & HK' & _).
  destruct Hvalid as (_ & _ & HnT & HmT & HW & _).
  unfold Ger.getStreamWriter_RES, StreamWriteMatrixFull.
  apply tabulate2_ext. intros r col Hr Hcol. cbv zeta.
  pose proof (Nat.div_mod_eq r (Ger.nTile node)) as Hr_eq.
  pose proof (Nat.mod_upper_bound r (Ger.nTile node)) as Hii.
  pose proof (Nat.div_mod_eq col (Ger.mTile node)) as Hcol_eq.
  pose proof (Nat.mod_upper_bound col (Ger.mTile node)) as Hcm.
  pose proof (Nat.div_mod_eq (col mod Ger.mTile node) (Ger.vecWidthM node))
    as Hcm_eq.
  pose proof (Nat.mod_upper_bound (col mod Ger.mTile node)
                (Ger.vecWidthM node)) as Hl.
  assert (Hi : r / Ger.nTile node < NB).
  { apply Nat.Div0.div_lt_upper_bound. nia. }
  assert (Hj : col / Ger.mTile node < MB).
  { apply Nat.Div0.div_lt_upper_bound. nia. }
  assert (Hjj : col mod Ger.mTile node / Ger.vecWidthM node < K).
  { apply Nat.Div0.div_lt_upper_bound. nia. }
  set (i := r / Ger.nTile node) in *.
  set (ii := r mod Ger.nTile node) in *.
  set (j := col / Ger.mTile node) in *.
  set (cm := col mod Ger.mTile node) in *.
  set (jj := cm / Ger.vecWidthM node) in *.
  set (l := cm mod Ger.vecWidthM node) in *.
  clearbody i ii j cm jj l.
  rewrite (lookup_total_stream_of c); simpl; [|lia..].
  rewrite Hvec by lia. subst cm. subst r col. f_equal; ring.
Qed.

(** The matrix that the stream writer stores from the output stream of the
    schedule. *)
Lemma writer_schedule :
  Ger.getStreamWriter_RES node (flat_map (block_res c Avec xvec yvec) (blocks c))
  = rank1_update (Ger.a node) (Ger.n node) (Ger.m node) x y A.
Proof.
  destruct valid_quotients
    as (NB & MB & K & _ & _ & _ & _ & _ & HK & _ & _ & HK' & _).
  rewrite stream_of_res. apply writer_stream_of.
  intros i j ii jj l Hi Hj Hii Hjj Hl.
  unfold RT.out_vec, node_Avec, node_xvec, RT.yval, node_yvec. simpl.
  rewrite lookup_total_compute_task by lia. cbv zeta.
  rewrite HK', HK.
  f_equal; [f_equal; ring|]. f_equal. f_equal; f_equal; ring.
Qed.

(** The stream writer stores back what the stream reader of the matrix
    streams. *)
Lemma writer_reader_A :
  length A = Ger.n node * Ger.m node ->
  Ger.getStreamWriter_RES node (Ger.getStreamReader_A node A) = A.
Proof.
  intros HA. rewrite reader_A_schedule, stream_of_A.
  rewrite (writer_stream_of _ (fun r col => A !!! (r * Ger.m node + col))).
  - by apply tabulate2_lookup_total.
  - intros i j ii jj l Hi Hj Hii Hjj Hl. unfold node_Avec.
    rewrite lookup_pack by done. f_equal. ring.
Qed.

(** The matrix that the graph computes between its adapters. *)
Lemma run_rank1_update y_buf_row0 x_buf0 :
  length y_buf_row0 = Ger.nTile node ->
  length x_buf0 = Ger.mTile node ->
  run node x y A y_buf_row0 x_buf0 =
  Ok (rank1_update (Ger.a node) (Ger.n node) (Ger.m node) x y A).
Proof.
  intros Hy Hx. unfold run.
  rewrite run_streams_closed_form, bind_Ok by done. simpl.
  by rewrite writer_schedule.
Qed.

Lemma length_reader_A :
  length (Ger.getStreamReader_A node A)
  = length (flat_map (block_res c Avec xvec yvec) (blocks c)).
Proof.
  rewrite reader_A_schedule, stream_of_A, stream_of_res.
  by rewrite !length_stream_of.
Qed.

(** The element of [y] that the schedule reads for the row [ii] of the
    row-block [i]. *)
Lemma yval_node i ii :
  yval yvec i ii = y !!! (i * Ger.nTile node + ii).
Proof.
  unfold yval, node_yvec. rewrite lookup_pack by lia. f_equal. lia.
Qed.

(** The events of a run. *)
Lemma in_node_trace e :
  In e (flat_map (block_trace c yvec) (blocks c)) <->
  exists i j ii,
    i < Ger.n node / Ger.nTile node /\
    j < Ger.m node / Ger.mTile node /\
    ii < Ger.nTile node /\
    (e = (if decide (j = 0)
          then ReadY i j ii (y !!! (i * Ger.nTile node + ii))
          else ReadEmpty i j ii)
     \/ exists jj, jj < Ger.mTile node / Ger.vecWidthM node /\
                   e = Compute i j ii jj (y !!! (i * Ger.nTile node + ii))).
Proof.
  rewrite in_trace. simpl.
  split; intros (i & j & ii & Hi & Hj & Hii & He); exists i, j, ii;
    (repeat split; [done..|]).
  - apply in_row_trace in He. by rewrite yval_node in He.
  - apply in_row_trace. by rewrite yval_node.
Qed.

(** The counters of a run. *)
Lemma node_counters i :
  i < Ger.n node / Ger.nTile node ->
  y_stream_reads (flat_map (block_trace c yvec) (blocks c)) = Ger.n node
  /\ y_stream_reads_in i (flat_map (block_trace c yvec) (blocks c))
     = Ger.nTile node
  /\ reuse_passes_in i (flat_map (block_trace c yvec) (blocks c))
     = (Ger.m node / Ger.mTile node - 1) * Ger.nTile node
  /\ y_buffer_reads_in i (flat_map (block_trace c yvec) (blocks c))
     = Ger.m node / Ger.mTile node
       * (Ger.nTile node * (Ger.mTile node / Ger.vecWidthM node)).
Proof.
  intros Hi.
  destruct valid_quotients
    as (NB & MB & K & _ & HMBpos & _ & HNB & _ & _ & HNB' & HMB' & _).
  assert (Htiles : 0 < m c / mTile c) by (simpl; lia).
  unfold y_stream_reads, y_stream_reads_in, reuse_passes_in,
    y_buffer_reads_in.
  split.
  { rewrite (count_ReadY_all c yvec Htiles). simpl. lia. }
  unfold blocks.
  rewrite !count_in_block by (done || apply block_of_block_trace).
  split; [|split].
  - by rewrite count_ReadY_block.
  - by rewrite count_ReadEmpty_block.
  - by rewrite count_Compute_block.
Qed.

End NodeStreams.

(** ** Floating-point elements *)

Section FormatProofs.

Local Open Scope Z_scope.

Variables ebits mbits : Z.
Hypothesis Hebits : 1 <= ebits.
Hypothesis Hmbits : 1 <= mbits.

Local Abbreviation decode := (IEEE.decode ebits mbits).
Local Abbreviation encode := (IEEE.encode ebits mbits).
Local Abbreviation sign_bit := (IEEE.sign_bit ebits mbits).
Local Abbreviation M := (2 ^ mbits).
Local Abbreviation E := (2 ^ ebits).

(** The formats have at least one bit of exponent and one of mantissa. *)
Lemma pow_mbits_ge_2 : 2 <= M.
Proof.
  change 2 with (2 ^ 1) at 1. apply Z.pow_le_mono_r; lia.
Qed.

Lemma pow_ebits_ge_2 : 2 <= E.
Proof.
  change 2 with (2 ^ 1) at 1. apply Z.pow_le_mono_r; lia.
Qed.

(** The fields of a bit pattern put together from its pattern_fields. *)
Lemma pattern_fields sign e mant :
  0 <= e < E -> 0 <= mant < M ->
  let w := sign_bit sign + e * M + mant in
  Z.testbit w (ebits + mbits) = sign
  /\ (w / M) mod E = e
  /\ w mod M = mant.
Proof.
  intros He Hm w. pose proof pow_mbits_ge_2. pose proof pow_ebits_ge_2.
  assert (Hsb : sign_bit sign = (if sign then 1 else 0) * (E * M)).
  { unfold IEEE.sign_bit. rewrite Z.pow_add_r by lia. destruct sign; lia. }
  assert (Hw : w = M * ((if sign then 1 else 0) * E + e) + mant)
    by (unfold w; rewrite Hsb; ring).
  assert (Hdiv : w / M = (if sign then 1 else 0) * E + e).
  { symmetry. apply (Z.div_unique_pos _ _ _ mant); lia. }
  split; [|split].
  - rewrite Z.testbit_odd, Z.shiftr_div_pow2 by lia.
    rewrite Z.pow_add_r by lia.
    rewrite (Z.mul_comm E M), <- Z.div_div, Hdiv by lia.
    replace (((if sign then 1 else 0) * E + e) / E)
      with (if sign then 1 else 0 : Z).
    + by destruct sign.
    + apply (Z.div_unique_pos _ _ _ e); lia.
  - rewrite Hdiv. symmetry.
    apply (Z.mod_unique_pos _ _ (if sign then 1 else 0)); lia.
  - symmetry. apply (Z.mod_unique_pos _ _ ((if sign then 1 else 0) * E + e)); lia.
Qed.


(** Reading a bit pattern put together from its pattern_fields. *)
Lemma decode_fields sign e mant :
  0 <= e < E -> 0 <= mant < M ->
  decode (sign_bit sign + e * M + mant)
  = if decide (e = E - 1) then
      if decide (mant = 0) then S754_infinity sign else S754_nan
    else if decide (e = 0) then
      match mant with
      | Zpos p => S754_finite sign p (emin (IEEE.prec mbits) (IEEE.emax ebits))
      | _ => S754_zero sign
      end
    else
      match mant + M with
      | Zpos p => S754_finite sign p
                    (e + emin (IEEE.prec mbits) (IEEE.emax ebits) - 1)
      | _ => S754_nan
      end.
Proof.
  intros He Hm. destruct (pattern_fields sign e mant He Hm) as (Hs & He' & Hm').
  unfold IEEE.decode. cbv zeta. by rewrite Hs, He', Hm'.
Qed.

Lemma decode_encode_zero sign :
  decode (encode (S754_zero sign)) = S754_zero sign.
Proof.
  pose proof pow_mbits_ge_2. pose proof pow_ebits_ge_2. simpl.
  replace (sign_bit sign) with (sign_bit sign + 0 * M + 0) by lia.
  rewrite decode_fields by lia.
  rewrite decide_False by lia. by rewrite decide_True.
Qed.

Lemma decode_encode_infinity sign :
  decode (encode (S754_infinity sign)) = S754_infinity sign.
Proof.
  pose proof pow_mbits_ge_2. pose proof pow_ebits_ge_2. simpl.
  replace (sign_bit sign + (E - 1) * M)
    with (sign_bit sign + (E - 1) * M + 0) by lia.
  rewrite decode_fields by lia.
  by rewrite !decide_True.
Qed.

Lemma decode_encode_nan : decode (encode S754_nan) = S754_nan.
Proof.
  pose proof pow_mbits_ge_2. pose proof pow_ebits_ge_2. simpl.
  assert (0 < 2 ^ (mbits - 1) < M).
  { split; [apply Z.pow_pos_nonneg; lia|].
    apply Z.pow_lt_mono_r; lia. }
  replace ((E - 1) * M + 2 ^ (mbits - 1))
    with (sign_bit false + (E - 1) * M + 2 ^ (mbits - 1))
    by (unfold IEEE.sign_bit; lia).
  rewrite decode_fields by lia.
  rewrite decide_True by done. by rewrite decide_False by lia.
Qed.

(** Writing what was read from a bit pattern and reading it again gives
    the same number. *)
Lemma decode_encode_decode w : decode (encode (decode w)) = decode w.
Proof.
  pose proof pow_mbits_ge_2. pose proof pow_ebits_ge_2.
  pose proof (Z.mod_pos_bound (w / M) E) as He.
  pose proof (Z.mod_pos_bound w M) as Hm.
  remember (decode w) as f eqn:Hf.
  unfold IEEE.decode in Hf. cbv zeta in Hf.
  set (sign := Z.testbit w (ebits + mbits)) in Hf.
  set (e := (w / M) mod E) in *. set (mant := w mod M) in *.
  clearbody sign e mant.
  destruct (decide (e = E - 1)) as [HeE|HeE].
  { destruct (decide (mant = 0)); subst f;
      [apply decode_encode_infinity|apply decode_encode_nan]. }
  destruct (decide (e = 0)) as [He0|He0].
  { destruct mant as [|p|p] eqn:Hmant; subst f;
      [apply decode_encode_zero| |lia].
    simpl. rewrite decide_True by lia.
    replace (sign_bit sign + Z.pos p)
      with (sign_bit sign + 0 * M + Z.pos p) by lia.
    rewrite decode_fields by lia.
    rewrite decide_False by lia. by rewrite decide_True. }
  destruct (mant + M) as [|p|p] eqn:Hp; subst f;
    [apply decode_encode_nan| |lia].
  simpl. rewrite decide_False by lia.
  replace (sign_bit sign
           + (e + emin (IEEE.prec mbits) (IEEE.emax ebits) - 1
              - emin (IEEE.prec mbits) (IEEE.emax ebits) + 1) * M
           + (Z.pos p - M))
    with (sign_bit sign + e * M + mant) by lia.
  rewrite decode_fields by lia.
  rewrite !decide_False by lia. by rewrite Hp.
Qed.


Local Abbreviation mul := (IEEE.mul ebits mbits).
Local Abbreviation add := (IEEE.add ebits mbits).
Local Abbreviation zero := (IEEE.const ebits mbits 0).
Local Abbreviation nan := (encode S754_nan).
Local Abbreviation is_finite := (IEEE.is_finite ebits mbits).
Local Abbreviation is_nan := (IEEE.is_nan ebits mbits).
Local Abbreviation eqb := (IEEE.eqb ebits mbits).

Lemma decode_zero : decode zero = S754_zero false.
Proof. apply decode_encode_zero. Qed.

(** A number that is not a NaN compares equal to itself. *)
Lemma SFeqb_refl f : f <> S754_nan -> SFeqb f f = true.
Proof.
  intros Hf. unfold SFeqb.
  destruct f as [s|s| |s p e]; simpl; [done|by destruct s|done|].
  rewrite Z.compare_refl, Pos.compare_cont_refl. by destruct s.
Qed.

(** Products with a zero. *)
Lemma mul_zero_l z sz x :
  decode z = S754_zero sz ->
  if is_finite x then exists s, decode (mul z x) = S754_zero s
  else mul z x = nan.
Proof.
  intros Hz. unfold IEEE.is_finite, IEEE.mul. rewrite Hz.
  destruct (decode x); cbn [SFmul];
    first [done|by rewrite decode_encode_zero; eauto].
Qed.

Lemma mul_zero_r z sz x :
  decode z = S754_zero sz ->
  if is_finite x then exists s, decode (mul x z) = S754_zero s
  else mul x z = nan.
Proof.
  intros Hz. unfold IEEE.is_finite, IEEE.mul. rewrite Hz.
  destruct (decode x); cbn [SFmul];
    first [done|by rewrite decode_encode_zero; eauto].
Qed.

Lemma mul_nan_l x : mul nan x = nan.
Proof. unfold IEEE.mul. by rewrite decode_encode_nan. Qed.

(** Sums with a zero and with the NaN. *)
Lemma add_zero_r v z sz :
  decode z = S754_zero sz -> is_nan v = false -> eqb (add v z) v = true.
Proof.
  intros Hz Hv. unfold IEEE.eqb, IEEE.is_nan, IEEE.add in *. rewrite Hz.
  destruct (decode v) as [s|s| |s p e] eqn:Hdv; [| |done|].
  - assert (Hsum : exists s', SFadd (IEEE.prec mbits) (IEEE.emax ebits)
                                (S754_zero s) (S754_zero sz) = S754_zero s')
      by (destruct s, sz; cbn [SFadd]; eauto).
    destruct Hsum as [s' ->]. by rewrite decode_encode_zero.
  - cbn [SFadd]. rewrite decode_encode_infinity. by apply SFeqb_refl.
  - cbn [SFadd]. rewrite <- Hdv, decode_encode_decode, Hdv.
    by apply SFeqb_refl.
Qed.

Lemma add_nan_r v : add v nan = nan.
Proof.
  unfold IEEE.add. rewrite decode_encode_nan. by destruct (decode v).
Qed.

Lemma add_zero_zero z sz :
  decode z = S754_zero sz -> exists s, decode (add zero z) = S754_zero s.
Proof.
  intros Hz. unfold IEEE.add. rewrite decode_zero, Hz.
  destruct sz; cbn [SFadd]; rewrite decode_encode_zero; eauto.
Qed.

(** The two tasklets with the scalar 0. *)
Lemma compute_zero A_l x_l y_con :
  let out := add A_l (mul (mul x_l y_con) zero) in
  if is_finite (mul x_l y_con)
  then is_nan A_l = false -> eqb out A_l = true
  else out = nan.
Proof.
  cbv zeta. pose proof (mul_zero_r zero false (mul x_l y_con) decode_zero) as Hp.
  destruct (is_finite (mul x_l y_con)).
  - destruct Hp as [s Hs]. intros HA. by apply (add_zero_r _ _ s).
  - by rewrite Hp, add_nan_r.
Qed.

Lemma outer_zero A_l x_l y_l :
  let out := add A_l (add zero (mul (mul zero x_l) y_l)) in
  if is_finite x_l && is_finite y_l
  then is_nan A_l = false -> eqb out A_l = true
  else out = nan.
Proof.
  cbv zeta. pose proof (mul_zero_l zero false x_l decode_zero) as Hx.
  destruct (is_finite x_l); simpl.
  - destruct Hx as [s Hs]. pose proof (mul_zero_l _ s y_l Hs) as Hy.
    destruct (is_finite y_l).
    + destruct Hy as [s' Hs']. destruct (add_zero_zero _ _ Hs') as [s'' Hs''].
      intros HA. by apply (add_zero_r _ _ s'').
    + by rewrite Hy, !add_nan_r.
  - by rewrite Hx, mul_nan_l, !add_nan_r.
Qed.

End FormatProofs.


(** * The claims *)

Lemma scenario_valid : RT.valid scenario_node.
Proof.
  unfold RT.valid. simpl. repeat split; try lia.
  - by exists 2.
  - by exists 2.
  - by exists 2.
Qed.

Lemma wide_valid : RT.valid wide_node.
Proof.
  unfold RT.valid. simpl. repeat split; try lia.
  - by exists 2.
  - by exists 2.
  - by exists 2.
Qed.

(** ** Tiled expansion against the reference *)

(** The matrix of the tiled graph is the one of the reference with the two
    vectors exchanged. *)
Lemma rank1_update_reference node shape_A x y A :
  length x = Ger.m node ->
  length y = Ger.n node ->
  length A = Ger.n node * Ger.m node ->
  Ger.alpha node = Ger.a node ->
  Pure.reference node shape_A y x A
  = Ok (RT.rank1_update (Ger.a node) (Ger.n node) (Ger.m node) x y A).
Proof.
  intros Hx Hy HA Halpha.
  rewrite reference_closed_form by (rewrite Hx, Hy; done).
  rewrite Hx, Hy, Halpha. f_equal. unfold RT.rank1_update.
  apply tabulate2_ext. intros r col _ _. simpl. lia.
Qed.

(** C1 (as stated, refuted): on the scenario of the specification
    ([n = m = 4], tiles of 2 by 2, [x = [1,2,3,4]], [y] all ones, [A]
    zero) the tiled graph and the pure reference run on the same inputs
    return different matrices: every row is [x] for the tiled graph, every
    column is [x] for the reference. *)
Lemma C1_counterexample :
  RT.run scenario_node scenario_x scenario_y scenario_A [0; 0]%Z [0; 0]%Z
  = Ok [1; 2; 3; 4; 1; 2; 3; 4; 1; 2; 3; 4; 1; 2; 3; 4]%Z
  /\ Pure.reference scenario_node [4; 4] scenario_x scenario_y scenario_A
     = Ok [1; 1; 1; 1; 2; 2; 2; 2; 3; 3; 3; 3; 4; 4; 4; 4]%Z
  /\ RT.run scenario_node scenario_x scenario_y scenario_A [0; 0]%Z [0; 0]%Z
     <> Pure.reference scenario_node [4; 4] scenario_x scenario_y scenario_A.
Proof. by vm_compute. Qed.

(** C1 (amended): for every valid configuration whose two scalars agree
    and inputs of matching lengths ([x] of length [m], [y] of length [n],
    [A] of [n * m] elements), whatever the buffers hold at the start, the
    output stream of the tiled graph stored back as an [n] by [m] matrix is
    the matrix of the pure reference run with the two vectors exchanged:
    [A + a * y[r] * x[col]] at row [r] and column [col].  In exact
    arithmetic the two are equal. *)
Theorem C1_tiled_equals_reference_with_vectors_exchanged
    node x y A y_buf_row0 x_buf0 :
  RT.valid node ->
  length x = Ger.m node ->
  length y = Ger.n node ->
  length A = Ger.n node * Ger.m node ->
  length y_buf_row0 = Ger.nTile node ->
  length x_buf0 = Ger.mTile node ->
  Ger.alpha node = Ger.a node ->
  RT.run node x y A y_buf_row0 x_buf0
  = Pure.reference node [Ger.n node; Ger.m node] y x A
  /\ RT.run node x y A y_buf_row0 x_buf0
     = Ok (RT.rank1_update (Ger.a node) (Ger.n node) (Ger.m node) x y A).
Proof.
  intros Hvalid Hx Hy HA Hyb Hxb Halpha.
  rewrite rank1_update_reference by done.
  split; by apply run_rank1_update.
Qed.

Lemma C1_witness :
  RT.run wide_node [1; 2; 3; 4; 5; 6; 7; 8]%Z [1; 10; 100; 1000]%Z
    (replicate 32 1%Z) [7; 7]%Z [9; 9; 9; 9]%Z
  = Pure.reference wide_node [4; 8] [1; 10; 100; 1000]%Z
      [1; 2; 3; 4; 5; 6; 7; 8]%Z (replicate 32 1%Z)
  /\ RT.run wide_node [1; 2; 3; 4; 5; 6; 7; 8]%Z [1; 10; 100; 1000]%Z
       (replicate 32 1%Z) [7; 7]%Z [9; 9; 9; 9]%Z
     = Ok (RT.rank1_update 3 4 8 [1; 2; 3; 4; 5; 6; 7; 8]%Z
             [1; 10; 100; 1000]%Z (replicate 32 1%Z)).
Proof.
  apply (C1_tiled_equals_reference_with_vectors_exchanged wide_node);
    try reflexivity.
  exact wide_valid.
Defined.

(** ** The concrete scenario *)

(** C2: with [n = 4], [m = 4], tiles of 2 by 2, vectors of one lane and
    scalar 1, [x = [1,2,3,4]], [y = [1,1,1,1]] and [A] the zero matrix, the
    matrix of the tiled graph has [x[j]] at every row [i] and column [j]. *)
Theorem C2_scenario_rows_equal_x y_buf_row0 x_buf0 :
  length y_buf_row0 = 2 ->
  length x_buf0 = 2 ->
  exists res,
    RT.run scenario_node scenario_x scenario_y scenario_A y_buf_row0 x_buf0
    = Ok res
    /\ length res = 16
    /\ forall i j, i < 4 -> j < 4 -> res !! (i * 4 + j) = scenario_x !! j.
Proof.
  intros Hyb Hxb. eexists. split; [|split].
  - apply (run_rank1_update scenario_node); [exact scenario_valid|done..].
  - reflexivity.
  - intros i j Hi Hj.
    do 4 (destruct i as [|i]; [do 4 (destruct j as [|j]; [reflexivity|]); lia|]).
    lia.
Qed.

Lemma C2_witness :
  exists res,
    RT.run scenario_node scenario_x scenario_y scenario_A [0; 0]%Z [0; 0]%Z
    = Ok res
    /\ length res = 16
    /\ forall i j, i < 4 -> j < 4 -> res !! (i * 4 + j) = scenario_x !! j.
Proof. apply C2_scenario_rows_equal_x; reflexivity. Defined.

(** ** Broadcasting of [A] in the pure expansion *)

(** C3 (the code at the failing inputs): [make_sdfg] never looks at the
    operand of the matrix; the comparisons of [list(shape_c)] always take
    the first branch, so no shape of [A] is rejected and no broadcast
    form is used.  With [x] of length 2 and [y] of length 3, a matrix of
    the shape [(5, 7)] is accepted, and a matrix given as the row
    [(1, 3)] is read as if it had the shape [(2, 3)], beyond its end. *)
Theorem C3_broadcast_branches_are_dead :
  (forall node x y cdata cdata',
     Pure.make_sdfg node x y cdata = Pure.make_sdfg node x y cdata')
  /\ (forall shape_c M N,
        shape_c = [M; N] -> Pure.broadcast_idx shape_c M N = Some Pure.idx_i0_i1)
  /\ (exists ops g,
        Pure.make_sdfg scenario_node (Pure.vector_operand [1; 2]%Z)
          (Pure.vector_operand [1; 1; 1]%Z) (Pure.matrix_operand [5; 7])
        = (ops, Ok g)
        /\ Pure.memlet_idx g = Pure.idx_i0_i1)
  /\ Pure.reference scenario_node [1; 3] [1; 2]%Z [1; 1; 1]%Z [10; 20; 30]%Z
     = Raise (OutOfBounds "_A")
  /\ Pure.reference scenario_node [2; 3] [1; 2]%Z [1; 1; 1]%Z
       [10; 20; 30; 10; 20; 30]%Z
     = Ok [11; 21; 31; 12; 22; 32]%Z.
Proof.
  split; [done|]. split.
  { intros shape_c M N ->. unfold Pure.broadcast_idx.
    by rewrite decide_True. }
  split; [by eexists _, _|]. by vm_compute.
Qed.

(** ** Validation of the node *)

(** [validate] only counts the edges. *)
Lemma validate_arity squeeze_size in_edges out_edges :
  Ger.validate squeeze_size in_edges out_edges =
  if decide (length in_edges = 3) then
    if decide (length out_edges = 1) then Ok tt
    else Raise (ValueError "Expected exactly one output from the ger operation")
  else
    Raise (ValueError "Expected exactly three inputs to the ger operation (vectors x, y and matrix A)").
Proof.
  unfold Ger.validate.
  destruct (decide (length in_edges = 3)) as [Hin|Hin];
    [rewrite decide_False by lia|by rewrite decide_True].
  destruct (decide (length out_edges = 1)) as [Hout|Hout];
    [rewrite decide_False by lia|by rewrite decide_True].
  destruct (Ger.operand_sizes squeeze_size in_edges) as [[? ?] ?].
  rewrite decide_False by lia. by destruct out_edges.
Qed.

(** C4 (as stated, refuted): a node with three inputs and one output whose
    shapes do not fit together ([x] of length 2, [y] of length 3, [A] of
    shape [(5, 7)], result of shape [(4, 4)]) passes the validation. *)
Lemma C4_counterexample :
  Ger.validate squeeze_ones
    [ {| Ger.conn := "_x"; Ger.subset := [2] |};
      {| Ger.conn := "_y"; Ger.subset := [3] |};
      {| Ger.conn := "_A"; Ger.subset := [5; 7] |} ]
    [ {| Ger.conn := "_res"; Ger.subset := [4; 4] |} ]
  = Ok tt.
Proof. reflexivity. Qed.

(** C4 (amended): validation raises an error exactly when the node does
    not have three incoming edges or does not have one outgoing edge; it
    does not compare the shapes of the operands, so every node with three
    inputs and one output passes, whatever the shapes. *)
Theorem C4_validate_checks_arity_only squeeze_size in_edges out_edges :
  Ger.validate squeeze_size in_edges out_edges =
  if decide (length in_edges = 3) then
    if decide (length out_edges = 1) then Ok tt
    else Raise (ValueError "Expected exactly one output from the ger operation")
  else
    Raise (ValueError "Expected exactly three inputs to the ger operation (vectors x, y and matrix A)").
Proof. apply validate_arity. Qed.

(** ** Errors of the pure expansion *)

(** [make_sdfg] by cases: the two tests, then the graph. *)
Lemma make_sdfg_cases node x y cdata :
  (length (Pure.shape x) <> 1 \/ length (Pure.shape y) <> 1) /\
  Pure.make_sdfg node x y cdata
  = ([], Raise (SyntaxError "Vectors must have single dimension"))
  \/
  (length (Pure.shape x) = 1 /\ length (Pure.shape y) = 1 /\
   Pure.storage x <> Pure.storage y) /\
  Pure.make_sdfg node x y cdata
  = ([], Raise (ValueError "Input vectors must have same storage."))
  \/
  (length (Pure.shape x) = 1 /\ length (Pure.shape y) = 1 /\
   Pure.storage x = Pure.storage y) /\
  exists ops g, Pure.make_sdfg node x y cdata = (ops, Ok g).
Proof.
  unfold Pure.make_sdfg.
  destruct (decide (length (Pure.shape x) <> 1 \/ length (Pure.shape y) <> 1))
    as [Hdim|Hdim]; [by left|]. right.
  assert (length (Pure.shape x) = 1 /\ length (Pure.shape y) = 1) as [? ?]
    by lia.
  destruct (decide (Pure.storage x <> Pure.storage y)) as [Hstor|Hstor];
    [by left|]. right.
  split; [repeat split; try done; by destruct (decide (Pure.storage x = Pure.storage y))|].
  unfold Pure.broadcast_idx. rewrite decide_True by done. by eexists _, _.
Qed.

(** [expansion] fails without a graph whenever [make_sdfg] does. *)
Lemma expansion_fails squeeze_size node in_edges out_edges x y cdata e :
  Pure.make_sdfg node x y cdata = ([], Raise e) ->
  exists e', Pure.expansion squeeze_size node in_edges out_edges x y cdata
             = ([], Raise e').
Proof.
  intros Hmake. unfold Pure.expansion.
  destruct (Ger.validate _ _ _); [|by eexists].
  destruct (Ger.dtype node); [|by eexists]. by eexists.
Qed.

(** The errors of [expansion] that do not come from [make_sdfg] are value
    errors of the validation and of the test of the data type. *)
Lemma expansion_error squeeze_size node in_edges out_edges x y cdata e :
  (Pure.expansion squeeze_size node in_edges out_edges x y cdata).2 = Raise e ->
  (exists msg, e = ValueError msg
               /\ msg <> "Input vectors must have same storage.")
  \/ (Pure.make_sdfg node x y cdata).2 = Raise e.
Proof.
  unfold Pure.expansion. rewrite validate_arity.
  repeat case_decide; simpl.
  - destruct (Ger.dtype node); [by right|]. simpl.
    intros [= <-]. left. by eexists.
  - intros [= <-]. left. by eexists.
  - intros [= <-]. left. by eexists.
Qed.

(** On a node that passes the validation and has its data type set,
    [expansion] is [make_sdfg]. *)
Lemma expansion_make_sdfg squeeze_size node in_edges out_edges x y cdata :
  length in_edges = 3 ->
  length out_edges = 1 ->
  Ger.dtype node <> None ->
  Pure.expansion squeeze_size node in_edges out_edges x y cdata
  = Pure.make_sdfg node x y cdata.
Proof.
  intros Hin Hout Hdtype. unfold Pure.expansion.
  rewrite validate_arity, !decide_True by done.
  by destruct (Ger.dtype node).
Qed.

(** C5: when the storage classes of [x] and [y] differ, [make_sdfg] and
    [expansion] of the pure variant fail before any call that adds
    something to the graph, for vectors of one dimension with the error
    "Input vectors must have same storage."; this error is raised exactly
    when both vectors have one dimension and their storage classes differ,
    and is never raised when the storage classes are the same. *)
Theorem C5_storage_mismatch_is_rejected
    squeeze_size node in_edges out_edges x y cdata :
  (Pure.storage x <> Pure.storage y ->
   (exists e, Pure.make_sdfg node x y cdata = ([], Raise e))
   /\ (exists e, Pure.expansion squeeze_size node in_edges out_edges x y cdata
                 = ([], Raise e))
   /\ (length (Pure.shape x) = 1 -> length (Pure.shape y) = 1 ->
       Pure.make_sdfg node x y cdata
       = ([], Raise (ValueError "Input vectors must have same storage."))
       /\ (length in_edges = 3 -> length out_edges = 1 ->
           Ger.dtype node <> None ->
           Pure.expansion squeeze_size node in_edges out_edges x y cdata
           = ([], Raise (ValueError "Input vectors must have same storage.")))))
  /\ ((Pure.make_sdfg node x y cdata).2
      = Raise (ValueError "Input vectors must have same storage.")
      <-> length (Pure.shape x) = 1 /\ length (Pure.shape y) = 1
          /\ Pure.storage x <> Pure.storage y)
  /\ (Pure.storage x = Pure.storage y ->
      (Pure.expansion squeeze_size node in_edges out_edges x y cdata).2
      <> Raise (ValueError "Input vectors must have same storage.")).
Proof.
  destruct (make_sdfg_cases node x y cdata)
    as [[Hdim Hmake]|[[(Hx & Hy & Hstor) Hmake]
                     |[(Hx & Hy & Hstor) (ops & g & Hmake)]]].
  - split; [|split].
    + intros _. split; [by eexists|]. split; [by eapply expansion_fails|].
      intros Hx Hy. lia.
    + rewrite Hmake. simpl. split; [done|]. lia.
    + intros _ [(msg & [= <-] & Hmsg)|He]%expansion_error; [done|].
      by rewrite Hmake in He.
  - split; [|split].
    + intros _. split; [by eexists|]. split; [by eapply expansion_fails|].
      intros _ _. split; [done|]. intros Hin Hout Hdtype.
      by rewrite expansion_make_sdfg.
    + by rewrite Hmake.
    + done.
  - split; [|split].
    + done.
    + rewrite Hmake. simpl. split; [done|]. by intros (_ & _ & ?).
    + intros _ [(msg & [= <-] & Hmsg)|He]%expansion_error; [done|].
      by rewrite Hmake in He.
Qed.

Lemma C5_witness :
  Pure.make_sdfg scenario_node
    {| Pure.shape := [4]; Pure.strides := [1];
       Pure.storage := "FPGA_Local" |}
    {| Pure.shape := [4]; Pure.strides := [1];
       Pure.storage := "FPGA_Registers" |}
    (Pure.matrix_operand [4; 4])
  = ([], Raise (ValueError "Input vectors must have same storage."))
  /\ Pure.expansion squeeze_ones scenario_node
       scenario_in_edges scenario_out_edges
       {| Pure.shape := [4]; Pure.strides := [1];
          Pure.storage := "FPGA_Local" |}
       {| Pure.shape := [4]; Pure.strides := [1];
          Pure.storage := "FPGA_Registers" |}
       (Pure.matrix_operand [4; 4])
     = ([], Raise (ValueError "Input vectors must have same storage.")).
Proof.
  destruct (C5_storage_mismatch_is_rejected squeeze_ones scenario_node
              scenario_in_edges scenario_out_edges
              {| Pure.shape := [4]; Pure.strides := [1];
                 Pure.storage := "FPGA_Local" |}
              {| Pure.shape := [4]; Pure.strides := [1];
                 Pure.storage := "FPGA_Registers" |}
              (Pure.matrix_operand [4; 4])) as [Hfail _].
  destruct Hfail as (_ & _ & Hexact); [simpl; discriminate|].
  destruct Hexact as [Hmake Hexp]; [reflexivity..|].
  split; [exact Hmake|]. apply Hexp; [reflexivity..|]. simpl. discriminate.
Defined.

(** C10: when [x] or [y] has more than one dimension, [make_sdfg] of the
    pure variant raises the syntax error "Vectors must have single
    dimension" before any call that adds something to the graph, and so
    does [expansion] on a node that passes the validation; this error is
    raised exactly when one of the two shapes does not have one dimension,
    and never for vectors of one dimension. *)
Theorem C10_vectors_must_have_one_dimension
    squeeze_size node in_edges out_edges x y cdata :
  (1 < length (Pure.shape x) \/ 1 < length (Pure.shape y) ->
   Pure.make_sdfg node x y cdata
   = ([], Raise (SyntaxError "Vectors must have single dimension"))
   /\ (exists e, Pure.expansion squeeze_size node in_edges out_edges x y cdata
                 = ([], Raise e))
   /\ (length in_edges = 3 -> length out_edges = 1 ->
       Ger.dtype node <> None ->
       Pure.expansion squeeze_size node in_edges out_edges x y cdata
       = ([], Raise (SyntaxError "Vectors must have single dimension"))))
  /\ ((Pure.make_sdfg node x y cdata).2
      = Raise (SyntaxError "Vectors must have single dimension")
      <-> length (Pure.shape x) <> 1 \/ length (Pure.shape y) <> 1)
  /\ (length (Pure.shape x) = 1 -> length (Pure.shape y) = 1 ->
      (Pure.expansion squeeze_size node in_edges out_edges x y cdata).2
      <> Raise (SyntaxError "Vectors must have single dimension")).
Proof.
  destruct (make_sdfg_cases node x y cdata)
    as [[Hdim Hmake]|[[(Hx & Hy & Hstor) Hmake]
                     |[(Hx & Hy & Hstor) (ops & g & Hmake)]]].
  - split; [|split].
    + intros _. split; [done|]. split; [by eapply expansion_fails|].
      intros Hin Hout Hdtype. by rewrite expansion_make_sdfg.
    + by rewrite Hmake.
    + intros Hx Hy. lia.
  - split; [|split].
    + lia.
    + rewrite Hmake. simpl. split; [done|]. lia.
    + intros _ _ [(msg & [=] & _)|He]%expansion_error.
      by rewrite Hmake in He.
  - split; [|split].
    + lia.
    + rewrite Hmake. simpl. split; [done|]. lia.
    + intros _ _ [(msg & [=] & _)|He]%expansion_error.
      by rewrite Hmake in He.
Qed.

Lemma C10_witness :
  Pure.make_sdfg scenario_node
    {| Pure.shape := [4; 1]; Pure.strides := [1; 1];
       Pure.storage := "Default" |}
    (Pure.vector_operand scenario_y) (Pure.matrix_operand [4; 4])
  = ([], Raise (SyntaxError "Vectors must have single dimension"))
  /\ Pure.expansion squeeze_ones scenario_node
       scenario_in_edges scenario_out_edges
       {| Pure.shape := [4; 1]; Pure.strides := [1; 1];
          Pure.storage := "Default" |}
       (Pure.vector_operand scenario_y) (Pure.matrix_operand [4; 4])
     = ([], Raise (SyntaxError "Vectors must have single dimension")).
Proof.
  destruct (C10_vectors_must_have_one_dimension squeeze_ones scenario_node
              scenario_in_edges scenario_out_edges
              {| Pure.shape := [4; 1]; Pure.strides := [1; 1];
                 Pure.storage := "Default" |}
              (Pure.vector_operand scenario_y) (Pure.matrix_operand [4; 4]))
    as [Hfail _].
  destruct Hfail as (Hmake & _ & Hexp); [simpl; lia|].
  split; [exact Hmake|]. apply Hexp; [reflexivity..|]. simpl. discriminate.
Defined.

(** ** The buffer of [y] *)

(** C6: in a run of the tiled graph on a valid configuration, the stream
    of [y] is read exactly in the tiles [j = 0] (state
    [read_y_reduceTile]), one element per row index and [nTile] elements per
    row-block; the tiles [j <> 0] run [read_empty_reduceTile] and read
    nothing from the stream; and the value of the buffer that a compute
    step of the row [ii] of the row-block [i] receives, at any tile [j], is
    the value stored for the row [ii] in the tile [j = 0] of the same
    row-block [i]. *)
Theorem C6_y_buffer_fill_and_reuse node x y A y_buf_row0 x_buf0 :
  RT.valid node ->
  length x = Ger.m node ->
  length y = Ger.n node ->
  length A = Ger.n node * Ger.m node ->
  length y_buf_row0 = Ger.nTile node ->
  length x_buf0 = Ger.mTile node ->
  exists s,
    RT.run_streams node x y A y_buf_row0 x_buf0 = Ok s
    /\ (forall i j ii,
          i < Ger.n node / Ger.nTile node ->
          j < Ger.m node / Ger.mTile node ->
          ii < Ger.nTile node ->
          (j = 0 ->
           In (RT.ReadY i j ii (y !!! (i * Ger.nTile node + ii))) (RT.trace s)
           /\ ~ In (RT.ReadEmpty i j ii) (RT.trace s))
          /\ (j <> 0 ->
              In (RT.ReadEmpty i j ii) (RT.trace s)
              /\ forall v, ~ In (RT.ReadY i j ii v) (RT.trace s)))
    /\ (forall i j ii v,
          In (RT.ReadY i j ii v) (RT.trace s) ->
          j = 0 /\ v = y !!! (i * Ger.nTile node + ii))
    /\ (forall i,
          i < Ger.n node / Ger.nTile node ->
          RT.y_stream_reads_in i (RT.trace s) = Ger.nTile node)
    /\ (forall i j ii jj,
          i < Ger.n node / Ger.nTile node ->
          j < Ger.m node / Ger.mTile node ->
          ii < Ger.nTile node ->
          jj < Ger.mTile node / Ger.vecWidthM node ->
          exists v, In (RT.Compute i j ii jj v) (RT.trace s))
    /\ (forall i j ii jj v,
          In (RT.Compute i j ii jj v) (RT.trace s) ->
          In (RT.ReadY i 0 ii v) (RT.trace s)).
Proof.
  intros Hvalid Hx Hy HA Hyb Hxb. eexists. split.
  { by apply run_streams_closed_form. }
  simpl.
  assert (Htiles : 0 < Ger.m node / Ger.mTile node).
  { destruct (valid_quotients node Hvalid)
      as (NB & MB & K & _ & HMBpos & _ & _ & _ & _ & _ & HMB' & _). lia. }
  split; [|split; [|split; [|split]]].
  - intros i j ii Hi Hj Hii. split; intros Hj0.
    + split.
      * apply in_node_trace. exists i, j, ii.
        repeat split; [done..|]. left. by rewrite decide_True.
      * intros (i' & j' & ii' & _ & _ & _ & [He|(jj & _ & He)])
                 %in_node_trace; [|done..].
        case_decide; [done|]. by injection He as -> -> ->.
    + split.
      * apply in_node_trace. exists i, j, ii.
        repeat split; [done..|]. left. by rewrite decide_False.
      * intros v (i' & j' & ii' & _ & _ & _ & [He|(jj & _ & He)])
                 %in_node_trace; [|done..].
        case_decide; [|done]. injection He as -> -> -> ->. done.
  - intros i j ii v (i' & j' & ii' & _ & _ & _ & [He|(jj & _ & He)])
             %in_node_trace; [|done..].
    case_decide; [|done]. by injection He as -> -> -> ->.
  - intros i Hi. by apply node_counters.
  - intros i j ii jj Hi Hj Hii Hjj. eexists.
    apply in_node_trace. exists i, j, ii.
    repeat split; [done..|]. right. by exists jj.
  - intros i j ii jj v (i' & j' & ii' & Hi & Hj & Hii & [He|(jj' & _ & He)])
             %in_node_trace.
    { by case_decide. }
    injection He as <- <- <- <- ->.
    apply in_node_trace. exists i, 0, ii.
    repeat split; [done..|]. left. by rewrite decide_True.
Qed.

Lemma C6_witness :
  exists s,
    RT.run_streams scenario_node scenario_x [1; 10; 100; 1000]%Z scenario_A
      [0; 0]%Z [0; 0]%Z = Ok s
    /\ (forall i j ii,
          i < 2 -> j < 2 -> ii < 2 ->
          (j = 0 ->
           In (RT.ReadY i j ii ([1; 10; 100; 1000]%Z !!! (i * 2 + ii)))
             (RT.trace s)
           /\ ~ In (RT.ReadEmpty i j ii) (RT.trace s))
          /\ (j <> 0 ->
              In (RT.ReadEmpty i j ii) (RT.trace s)
              /\ forall v, ~ In (RT.ReadY i j ii v) (RT.trace s)))
    /\ (forall i j ii v,
          In (RT.ReadY i j ii v) (RT.trace s) ->
          j = 0 /\ v = [1; 10; 100; 1000]%Z !!! (i * 2 + ii))
    /\ (forall i, i < 2 -> RT.y_stream_reads_in i (RT.trace s) = 2)
    /\ (forall i j ii jj,
          i < 2 -> j < 2 -> ii < 2 -> jj < 2 ->
          exists v, In (RT.Compute i j ii jj v) (RT.trace s))
    /\ (forall i j ii jj v,
          In (RT.Compute i j ii jj v) (RT.trace s) ->
          In (RT.ReadY i 0 ii v) (RT.trace s)).
Proof.
  apply (C6_y_buffer_fill_and_reuse scenario_node scenario_x
           [1; 10; 100; 1000]%Z scenario_A [0; 0]%Z [0; 0]%Z);
    try reflexivity.
  exact scenario_valid.
Defined.

(** ** Counts of reads *)

(** C7 (as stated, refuted): on the scenario of the specification ([n = 4],
    [m = 4], tiles of 2 by 2, vectors of one lane) the graph takes 4
    elements from the stream of [y], not [n / nTile = 2]; in the first
    row-block 2 rows of tiles run in the state that reads nothing from the
    stream, and the tasklet reads the buffer 8 times, not
    [(m / mTile - 1) * nTile = 2]. *)
Lemma C7_counterexample :
  exists s,
    RT.run_streams scenario_node scenario_x scenario_y scenario_A
      [0; 0]%Z [0; 0]%Z = Ok s
    /\ RT.y_stream_reads (RT.trace s) = 4
    /\ Ger.n scenario_node / Ger.nTile scenario_node = 2
    /\ RT.y_stream_reads (RT.trace s)
       <> Ger.n scenario_node / Ger.nTile scenario_node
    /\ RT.reuse_passes_in 0 (RT.trace s) = 2
    /\ RT.y_buffer_reads_in 0 (RT.trace s) = 8
    /\ RT.y_buffer_reads_in 0 (RT.trace s)
       <> (Ger.m scenario_node / Ger.mTile scenario_node - 1)
          * Ger.nTile scenario_node.
Proof. eexists. split; [by vm_compute|]. by vm_compute. Qed.

(** C7 (amended): in a run of the tiled graph on a valid configuration,
    the number of elements taken from the stream of [y] is [n], that is
    [nTile] in each of the [n / nTile] row-blocks, independently of
    [m / mTile]; in every row-block [(m / mTile - 1) * nTile] rows of tiles
    run in the state that reads nothing from the stream, and the tasklet
    reads the buffer once per compute step,
    [(m / mTile) * nTile * (mTile / vecWidthM)] times. *)
Theorem C7_read_counts node x y A y_buf_row0 x_buf0 :
  RT.valid node ->
  length x = Ger.m node ->
  length y = Ger.n node ->
  length A = Ger.n node * Ger.m node ->
  length y_buf_row0 = Ger.nTile node ->
  length x_buf0 = Ger.mTile node ->
  exists s,
    RT.run_streams node x y A y_buf_row0 x_buf0 = Ok s
    /\ RT.y_stream_reads (RT.trace s) = Ger.n node
    /\ forall i,
         i < Ger.n node / Ger.nTile node ->
         RT.y_stream_reads_in i (RT.trace s) = Ger.nTile node
         /\ RT.reuse_passes_in i (RT.trace s)
            = (Ger.m node / Ger.mTile node - 1) * Ger.nTile node
         /\ RT.y_buffer_reads_in i (RT.trace s)
            = Ger.m node / Ger.mTile node
              * (Ger.nTile node * (Ger.mTile node / Ger.vecWidthM node)).
Proof.
  intros Hvalid Hx Hy HA Hyb Hxb. eexists. split.
  { by apply run_streams_closed_form. }
  simpl. split.
  - destruct (valid_quotients node Hvalid)
      as (NB & MB & K & HNBpos & _ & _ & _ & _ & _ & HNB' & _).
    apply (node_counters node y Hvalid 0). lia.
  - intros i Hi. by apply node_counters.
Qed.

Lemma C7_witness :
  exists s,
    RT.run_streams wide_node [1; 2; 3; 4; 5; 6; 7; 8]%Z [1; 10; 100; 1000]%Z
      (replicate 32 1%Z) [7; 7]%Z [9; 9; 9; 9]%Z = Ok s
    /\ RT.y_stream_reads (RT.trace s) = 4
    /\ forall i,
         i < 4 / 2 ->
         RT.y_stream_reads_in i (RT.trace s) = 2
         /\ RT.reuse_passes_in i (RT.trace s) = (8 / 4 - 1) * 2
         /\ RT.y_buffer_reads_in i (RT.trace s) = 8 / 4 * (2 * (4 / 2)).
Proof.
  apply (C7_read_counts wide_node); try reflexivity. exact wide_valid.
Defined.

(** ** The scalar zero *)

(** C8 (as stated, refuted): the graphs do not short-circuit a scalar
    equal to 0, they run the same tasklets.  With elements of type
    [float32] (the default of the node) or [float64], the matrix [[1]] and
    the vectors [x = [infinity]], [y = [1]], both expansions return [[NaN]]
    and not the matrix; with the finite vectors [x = y = [2 ^ 100]] of
    [float32], whose product overflows, the tiled graph returns [[NaN]]. *)
Lemma C8_counterexample :
  (RT.run (dt := float32) (Ger.with_scalar unit_node 0)
     [f32_inf] [f32_one] [f32_one] [0%Z] [0%Z] = Ok [f32_nan]
   /\ Pure.reference (dt := float32) (Ger.with_scalar unit_node 0) [1; 1]
        [f32_one] [f32_inf] [f32_one] = Ok [f32_nan]
   /\ RT.run (dt := float32) (Ger.with_scalar unit_node 0)
        [f32_big] [f32_big] [f32_one] [0%Z] [0%Z] = Ok [f32_nan]
   /\ [f32_nan] <> [f32_one])
  /\ (RT.run (dt := float64) (Ger.with_scalar unit_node 0)
        [f64_inf] [f64_one] [f64_one] [0%Z] [0%Z] = Ok [f64_nan]
      /\ Pure.reference (dt := float64) (Ger.with_scalar unit_node 0) [1; 1]
           [f64_one] [f64_inf] [f64_one] = Ok [f64_nan]
      /\ [f64_nan] <> [f64_one]).
Proof. vm_compute. repeat split; done. Qed.

(** With the scalar 0 the tasklets add a zero in exact arithmetic. *)
Lemma rank1_update_zero rows cols x y A :
  length A = rows * cols ->
  RT.rank1_update 0 rows cols x y A = A.
Proof.
  intros HA. rewrite <- (tabulate2_lookup_total rows cols A) at 2 by done.
  apply tabulate2_ext. intros r col _ _. simpl. lia.
Qed.

Lemma update_zero rows cols x y A :
  length A = rows * cols ->
  Pure.update 0 rows cols x y A = A.
Proof.
  intros HA. rewrite <- (tabulate2_lookup_total rows cols A) at 2 by done.
  apply tabulate2_ext. intros r col _ _. simpl. lia.
Qed.

(** C8 (amended): with the scalar equal to 0 and inputs of matching
    lengths, for every element type the tiled graph raises no error, takes
    every vector of its three input streams and puts one vector on the
    output stream for each vector of the matrix; nothing is
    short-circuited: the matrix stored from the output stream has
    [A[r][col] + x[col] * y[r] * 0] at row [r] and column [col], and the pure
    reference returns [A[r][col] + (0 + 0 * y[r] * x[col])], computed in the
    element type.  In exact arithmetic both matrices are [A].  With
    elements of type [float32], the element at row [r] and column [col] of
    the matrix of the tiled graph compares equal to [A[r][col]] when the
    product [x[col] * y[r]] is finite and [A[r][col]] is not a NaN, and is
    the NaN when that product is infinite or a NaN (when it overflows, for
    one); the element of the pure reference compares equal to [A[r][col]]
    when [y[r]] and [x[col]] are finite and [A[r][col]] is not a NaN, and
    is the NaN otherwise. *)
Theorem C8_scalar_zero_adds_the_zero_product
    (dt : Dtype) node x y A y_buf_row0 x_buf0 :
  RT.valid node ->
  length x = Ger.m node ->
  length y = Ger.n node ->
  length A = Ger.n node * Ger.m node ->
  length y_buf_row0 = Ger.nTile node ->
  length x_buf0 = Ger.mTile node ->
  Ger.a node = 0%Z ->
  Ger.alpha node = 0%Z ->
  (exists s,
     RT.run_streams (dt := dt) node x y A y_buf_row0 x_buf0 = Ok s
     /\ RT.A_in s = [] /\ RT.x_in s = [] /\ RT.y_in s = []
     /\ length (RT.res s) = length (Ger.getStreamReader_A node A)
     /\ Ger.getStreamWriter_RES node (RT.res s)
        = RT.rank1_update (dt := dt) 0 (Ger.n node) (Ger.m node) x y A)
  /\ RT.run (dt := dt) node x y A y_buf_row0 x_buf0
     = Ok (RT.rank1_update (dt := dt) 0 (Ger.n node) (Ger.m node) x y A)
  /\ Pure.reference (dt := dt) node [Ger.n node; Ger.m node] y x A
     = Ok (Pure.update (dt := dt) 0
             (Ger.n node) (Ger.m node) y x A)
  /\ RT.run (dt := exact) node x y A y_buf_row0 x_buf0 = Ok A
  /\ Pure.reference (dt := exact) node [Ger.n node; Ger.m node] y x A
     = Ok A
  /\ (exists out ref,
        RT.run (dt := float32) node x y A y_buf_row0 x_buf0 = Ok out
        /\ Pure.reference (dt := float32) node [Ger.n node; Ger.m node]
             y x A = Ok ref
        /\ forall r col,
             r < Ger.n node -> col < Ger.m node ->
             let A_rc := A !!! (r * Ger.m node + col) in
             let out_rc := out !!! (r * Ger.m node + col) in
             let ref_rc := ref !!! (r * Ger.m node + col) in
             (if IEEE.is_finite 8 23
                   (e_mul (Dtype := float32) (x !!! col) (y !!! r))
              then IEEE.is_nan 8 23 A_rc = false ->
                   IEEE.eqb 8 23 out_rc A_rc = true
              else out_rc = f32_nan)
             /\ (if IEEE.is_finite 8 23 (y !!! r)
                     && IEEE.is_finite 8 23 (x !!! col)
                  then IEEE.is_nan 8 23 A_rc = false ->
                       IEEE.eqb 8 23 ref_rc A_rc = true
                  else ref_rc = f32_nan)).
Proof.
  intros Hvalid Hx Hy HA Hyb Hxb Ha Halpha.
  assert (Hpure : forall dt' : Dtype,
            Pure.reference (dt := dt') node [Ger.n node; Ger.m node] y x A
            = Ok (Pure.update (dt := dt') 0
                    (Ger.n node) (Ger.m node) y x A)).
  { intros dt'. rewrite reference_update by congruence.
    by rewrite Halpha, Hx, Hy. }
  split; [|split; [|split; [|split; [|split]]]].
  - eexists. split; [by apply run_streams_closed_form|]. simpl.
    repeat split; [by rewrite (length_reader_A node x y A)|].
    by rewrite writer_schedule, Ha.
  - rewrite run_rank1_update by done. by rewrite Ha.
  - apply Hpure.
  - rewrite run_rank1_update by done. by rewrite Ha, rank1_update_zero.
  - by rewrite Hpure, update_zero.
  - eexists _, _. split; [by apply run_rank1_update|].
    split; [apply Hpure|].
    intros r col Hr Hcol. cbv zeta. rewrite Ha.
    unfold RT.rank1_update, Pure.update.
    rewrite !lookup_total_tabulate2 by done. cbv zeta.
    split.
    + apply (compute_zero 8 23); lia.
    + apply (outer_zero 8 23); lia.
Qed.

Lemma C8_witness :
  let node := Ger.with_scalar wide_node 0 in
  let x := map (IEEE.const 8 23) [1; 2; 3; 4; 5; 6; 7; 8]%Z in
  let y := map (IEEE.const 8 23) [1; 10; 100; 1000]%Z in
  let A := map (IEEE.const 8 23) (seqZ 0 32) in
  (exists s,
     RT.run_streams (dt := float32) node x y A [7; 7]%Z [9; 9; 9; 9]%Z = Ok s
     /\ RT.A_in s = [] /\ RT.x_in s = [] /\ RT.y_in s = []
     /\ length (RT.res s) = length (Ger.getStreamReader_A node A)
     /\ Ger.getStreamWriter_RES node (RT.res s)
        = RT.rank1_update (dt := float32) 0 4 8 x y A)
  /\ RT.run (dt := float32) node x y A [7; 7]%Z [9; 9; 9; 9]%Z
     = Ok (RT.rank1_update (dt := float32) 0 4 8 x y A)
  /\ Pure.reference (dt := float32) node [4; 8] y x A
     = Ok (Pure.update (dt := float32) 0 4 8 y x A)
  /\ RT.run (dt := exact) node x y A [7; 7]%Z [9; 9; 9; 9]%Z = Ok A
  /\ Pure.reference (dt := exact) node [4; 8] y x A = Ok A
  /\ (exists out ref,
        RT.run (dt := float32) node x y A [7; 7]%Z [9; 9; 9; 9]%Z = Ok out
        /\ Pure.reference (dt := float32) node [4; 8] y x A = Ok ref
        /\ forall r col,
             r < 4 -> col < 8 ->
             let A_rc := A !!! (r * 8 + col) in
             let out_rc := out !!! (r * 8 + col) in
             let ref_rc := ref !!! (r * 8 + col) in
             (if IEEE.is_finite 8 23
                   (e_mul (Dtype := float32) (x !!! col) (y !!! r))
              then IEEE.is_nan 8 23 A_rc = false ->
                   IEEE.eqb 8 23 out_rc A_rc = true
              else out_rc = f32_nan)
             /\ (if IEEE.is_finite 8 23 (y !!! r)
                     && IEEE.is_finite 8 23 (x !!! col)
                  then IEEE.is_nan 8 23 A_rc = false ->
                       IEEE.eqb 8 23 ref_rc A_rc = true
                  else ref_rc = f32_nan)).
Proof.
  intros node x y A.
  apply (C8_scalar_zero_adds_the_zero_product float32 node x y A);
    try reflexivity.
  exact wide_valid.
Defined.

(** ** Linearity in the scalar *)

(** C9 (as stated, refuted): with elements of type [float32] or [float64]
    the sums round.  On the matrix [[1]], with [y = [1]] and [x] holding half
    the distance from 1 to the next number, two updates with the scalar 1
    leave the matrix as it is, and one update with the scalar [1 + 1] gives
    the next number after 1; this holds for the tiled graph and for the
    pure reference. *)
Lemma C9_counterexample :
  (RT.run (dt := float32) (Ger.with_scalar unit_node 1)
     [f32_half_ulp] [f32_one] [f32_one] [0%Z] [0%Z] = Ok [f32_one]
   /\ RT.run (dt := float32) (Ger.with_scalar unit_node (1 + 1))
        [f32_half_ulp] [f32_one] [f32_one] [0%Z] [0%Z] = Ok [f32_one_succ]
   /\ Pure.reference (dt := float32) (Ger.with_scalar unit_node 1) [1; 1]
        [f32_one] [f32_half_ulp] [f32_one] = Ok [f32_one]
   /\ Pure.reference (dt := float32) (Ger.with_scalar unit_node (1 + 1))
        [1; 1] [f32_one] [f32_half_ulp] [f32_one] = Ok [f32_one_succ]
   /\ [f32_one] <> [f32_one_succ])
  /\ (RT.run (dt := float64) (Ger.with_scalar unit_node 1)
        [f64_half_ulp] [f64_one] [f64_one] [0%Z] [0%Z] = Ok [f64_one]
      /\ RT.run (dt := float64) (Ger.with_scalar unit_node (1 + 1))
           [f64_half_ulp] [f64_one] [f64_one] [0%Z] [0%Z]
         = Ok [f64_one_succ]
      /\ Pure.reference (dt := float64) (Ger.with_scalar unit_node 1) [1; 1]
           [f64_one] [f64_half_ulp] [f64_one] = Ok [f64_one]
      /\ Pure.reference (dt := float64) (Ger.with_scalar unit_node (1 + 1))
           [1; 1] [f64_one] [f64_half_ulp] [f64_one] = Ok [f64_one_succ]
      /\ [f64_one] <> [f64_one_succ]).
Proof. vm_compute. repeat split; done. Qed.

(** In exact arithmetic two updates with the same vectors add up their
    scalars. *)
Lemma rank1_update_twice a1 a2 rows cols x y A :
  RT.rank1_update a2 rows cols x y (RT.rank1_update a1 rows cols x y A)
  = RT.rank1_update (a1 + a2) rows cols x y A.
Proof.
  unfold RT.rank1_update. apply tabulate2_ext. intros r col Hr Hcol.
  rewrite lookup_total_tabulate2 by done. simpl. lia.
Qed.

Lemma length_rank1_update {dt : Dtype} a rows cols x y A :
  length (RT.rank1_update a rows cols x y A) = rows * cols.
Proof. apply length_tabulate2. Qed.

Lemma length_update {dt : Dtype} alpha rows cols x y A :
  length (Pure.update alpha rows cols x y A) = rows * cols.
Proof. apply length_tabulate2. Qed.

(** C9 (amended): for every element type, each application of the update
    returns the matrix of its tasklets, so that the update with [alpha2]
    of the result of the update with [alpha1], with the same [x] and [y],
    has [(A[r][col] + x[col] * y[r] * alpha1) + x[col] * y[r] * alpha2] at
    row [r] and column [col], and one update with [alpha1 + alpha2] has
    [A[r][col] + x[col] * y[r] * (alpha1 + alpha2)], computed in the element
    type (the pure reference likewise, with its own tasklets).  In exact
    arithmetic the two matrices are the same, for the pure reference and
    for the tiled graph. *)
Theorem C9_update_is_linear_in_exact_arithmetic
    (dt : Dtype) node alpha1 alpha2 x y A y_buf_row0 x_buf0 :
  RT.valid node ->
  length x = Ger.m node ->
  length y = Ger.n node ->
  length A = Ger.n node * Ger.m node ->
  length y_buf_row0 = Ger.nTile node ->
  length x_buf0 = Ger.mTile node ->
  (let A1 := RT.rank1_update (dt := dt) alpha1 (Ger.n node) (Ger.m node)
               x y A in
   RT.run (dt := dt) (Ger.with_scalar node alpha1) x y A y_buf_row0 x_buf0
   = Ok A1
   /\ RT.run (dt := dt) (Ger.with_scalar node alpha2) x y A1
        y_buf_row0 x_buf0
      = Ok (RT.rank1_update (dt := dt) alpha2 (Ger.n node) (Ger.m node)
              x y A1)
   /\ RT.run (dt := dt) (Ger.with_scalar node (alpha1 + alpha2)) x y A
        y_buf_row0 x_buf0
      = Ok (RT.rank1_update (dt := dt) (alpha1 + alpha2)
              (Ger.n node) (Ger.m node) x y A))
  /\ (let A1 := Pure.update (dt := dt) alpha1
                  (Ger.n node) (Ger.m node) y x A in
      Pure.reference (dt := dt) (Ger.with_scalar node alpha1)
        [Ger.n node; Ger.m node] y x A = Ok A1
      /\ Pure.reference (dt := dt) (Ger.with_scalar node alpha2)
           [Ger.n node; Ger.m node] y x A1
         = Ok (Pure.update (dt := dt) alpha2
                 (Ger.n node) (Ger.m node) y x A1)
      /\ Pure.reference (dt := dt) (Ger.with_scalar node (alpha1 + alpha2))
           [Ger.n node; Ger.m node] y x A
         = Ok (Pure.update (dt := dt) (alpha1 + alpha2)
                 (Ger.n node) (Ger.m node) y x A))
  /\ (exists A1 A2,
        Pure.reference (dt := exact) (Ger.with_scalar node alpha1)
          [Ger.n node; Ger.m node] y x A = Ok A1
        /\ Pure.reference (dt := exact) (Ger.with_scalar node alpha2)
             [Ger.n node; Ger.m node] y x A1 = Ok A2
        /\ Pure.reference (dt := exact)
             (Ger.with_scalar node (alpha1 + alpha2))
             [Ger.n node; Ger.m node] y x A = Ok A2)
  /\ (exists A1 A2,
        RT.run (dt := exact) (Ger.with_scalar node alpha1) x y A
          y_buf_row0 x_buf0 = Ok A1
        /\ RT.run (dt := exact) (Ger.with_scalar node alpha2) x y A1
             y_buf_row0 x_buf0 = Ok A2
        /\ RT.run (dt := exact) (Ger.with_scalar node (alpha1 + alpha2))
             x y A y_buf_row0 x_buf0 = Ok A2).
Proof.
  intros Hvalid Hx Hy HA Hyb Hxb.
  pose proof (length_rank1_update (dt := exact) alpha1 (Ger.n node)
                (Ger.m node) x y A) as HA1.
  split; [|split; [|split]].
  - cbv zeta.
    by rewrite !(run_rank1_update (Ger.with_scalar node _)).
  - cbv zeta.
    rewrite !(reference_update (Ger.with_scalar node _));
      rewrite ?length_update; try congruence.
    by rewrite Hx, Hy.
  - eexists _, _.
    rewrite !(rank1_update_reference (Ger.with_scalar node _)); simpl;
      try done.
    by rewrite rank1_update_twice.
  - eexists _, _.
    rewrite !(run_rank1_update (Ger.with_scalar node _)); simpl; try done.
    by rewrite rank1_update_twice.
Qed.

Lemma C9_witness :
  let x := map (IEEE.const 8 23) [1; 2; 3; 4; 5; 6; 7; 8]%Z in
  let y := map (IEEE.const 8 23) [1; 10; 100; 1000]%Z in
  let A := map (IEEE.const 8 23) (seqZ 0 32) in
  let yb := [7; 7]%Z in
  let xb := [9; 9; 9; 9]%Z in
  (let A1 := RT.rank1_update (dt := float32) 2 4 8 x y A in
   RT.run (dt := float32) (Ger.with_scalar wide_node 2) x y A yb xb = Ok A1
   /\ RT.run (dt := float32) (Ger.with_scalar wide_node 5) x y A1 yb xb
      = Ok (RT.rank1_update (dt := float32) 5 4 8 x y A1)
   /\ RT.run (dt := float32) (Ger.with_scalar wide_node (2 + 5)) x y A yb xb
      = Ok (RT.rank1_update (dt := float32) (2 + 5) 4 8 x y A))
  /\ (let A1 := Pure.update (dt := float32) 2 4 8 y x A in
      Pure.reference (dt := float32) (Ger.with_scalar wide_node 2) [4; 8]
        y x A = Ok A1
      /\ Pure.reference (dt := float32) (Ger.with_scalar wide_node 5) [4; 8]
           y x A1
         = Ok (Pure.update (dt := float32) 5 4 8 y x A1)
      /\ Pure.reference (dt := float32) (Ger.with_scalar wide_node (2 + 5))
           [4; 8] y x A
         = Ok (Pure.update (dt := float32) (2 + 5) 4 8 y x A))
  /\ (exists A1 A2,
        Pure.reference (dt := exact) (Ger.with_scalar wide_node 2) [4; 8]
          y x A = Ok A1
        /\ Pure.reference (dt := exact) (Ger.with_scalar wide_node 5) [4; 8]
             y x A1 = Ok A2
        /\ Pure.reference (dt := exact) (Ger.with_scalar wide_node (2 + 5))
             [4; 8] y x A = Ok A2)
  /\ (exists A1 A2,
        RT.run (dt := exact) (Ger.with_scalar wide_node 2) x y A yb xb
        = Ok A1
        /\ RT.run (dt := exact) (Ger.with_scalar wide_node 5) x y A1 yb xb
           = Ok A2
        /\ RT.run (dt := exact) (Ger.with_scalar wide_node (2 + 5))
             x y A yb xb = Ok A2).
Proof.
  intros x y A yb xb.
  apply (C9_update_is_linear_in_exact_arithmetic float32 wide_node 2 5
           x y A yb xb); try reflexivity.
  exact wide_valid.
Defined.


(** * Further properties of the code *)

(** ** The pure expansion as a whole *)

(** A map over indices whose entries succeed or raise the error [e]
    succeeds with all its entries, or raises [e] at one of them. *)
Lemma map_range_cases {B : Type} (f : nat -> Result B) (l : list nat) e :
  (forall k, k ∈ l -> (exists b, f k = Ok b) \/ f k = Raise e) ->
  (exists bs, map_range f l = Ok bs /\ forall k, k ∈ l -> exists b, f k = Ok b)
  \/ (map_range f l = Raise e /\ exists k, k ∈ l /\ f k = Raise e).
Proof.
  induction l as [|k l IH]; intros Hf; simpl.
  { left. exists []. split; [done|]. by intros k Hk%elem_of_nil. }
  destruct (Hf k) as [[b Hb]|Hk]; [by left| |].
  - rewrite Hb, bind_Ok.
    destruct IH as [(bs & Hbs & Hall)|(Hraise & k' & Hk' & Hfk')].
    + intros k' Hk'. apply Hf. by right.
    + left. exists (b :: bs). rewrite Hbs. split; [done|].
      intros k' [->|Hk']%elem_of_cons; [by eexists|by apply Hall].
    + right. rewrite Hraise. split; [done|]. exists k'. split; [by right|done].
  - right. rewrite Hk. split; [done|]. exists k. split; [by left|done].
Qed.

Section PureReference.

Import ExpandGerPure.

Variable node : Ger.Node.
Variable shape_A : list nat.
Variables x y A : list Z.

(** The graph that [reference] builds and runs. *)
Lemma reference_graph :
  reference node shape_A x y A =
  run {| M := length x; N := length y; shape_c := [length x; length y];
         mul_program := if decide (Ger.alpha node = 1%Z) then mul_x_y
                        else mul_alpha_x_y (Ger.alpha node);
         memlet_idx := idx_i0_i1 |} x y A.
Proof.
  unfold reference.
  by destruct (make_sdfg_ok node (vector_operand x) (vector_operand y)
                 (matrix_operand shape_A)) as [ops ->].
Qed.

(** The transient after the map of the outer product. *)
Lemma outer_product_map (p : MulProgram) :
  map2_range (length x) (length y) (fun __i0 __i1 =>
    old ← read "tmp" (tabulate2 (length x) (length y) (fun _ _ => 0%Z))
            (__i0 * length y + __i1);
    __x ← read "_x" x __i0;
    __y ← read "_y" y __i1;
    Ok (old + run_mul p __x __y)%Z)
  = Ok (tabulate2 (length x) (length y) (fun __i0 __i1 =>
          (0 + run_mul p (x !!! __i0) (y !!! __i1))%Z)).
Proof.
  apply map2_range_ok. intros r col Hr Hcol.
  rewrite !read_ok, !bind_Ok;
    [by rewrite lookup_total_tabulate2|..];
    rewrite ?length_tabulate2; first [by apply index_bound|lia].
Qed.

Lemma reference_closed_form_ge :
  length x * length y <= length A ->
  reference node shape_A x y A =
  Ok (tabulate2 (length x) (length y) (fun __i0 __i1 =>
        let __A := A !!! (__i0 * length y + __i1) in
        let __x := x !!! __i0 in
        let __y := y !!! __i1 in
        (__A + Ger.alpha node * __x * __y)%Z)).
Proof.
  intros HA. rewrite reference_graph. unfold run. simpl.
  rewrite outer_product_map, bind_Ok.
  apply map2_range_ok. intros r col Hr Hcol. unfold memlet_offset. simpl.
  pose proof (index_bound _ _ _ _ Hr Hcol) as Hidx.
  rewrite !read_ok, !bind_Ok; [|lia|by rewrite length_tabulate2].
  rewrite lookup_total_tabulate2 by done. rewrite run_mul_alpha.
  f_equal; lia.
Qed.

Lemma reference_raises :
  length A < length x * length y ->
  reference node shape_A x y A = Raise (OutOfBounds "_A").
Proof.
  intros HA. rewrite reference_graph. unfold run. simpl.
  rewrite outer_product_map, bind_Ok. unfold map2_range, memlet_offset.
  simpl.
  set (tmp := tabulate2 _ _ _).
  pose (f := fun __i0 __i1 : nat =>
               __A ← read "_A" A (__i0 * length y + __i1);
               __tmp ← read "tmp" tmp (__i0 * length y + __i1);
               Ok (__A + __tmp)%Z).
  change (map_range (fun r => map_range (f r) (seq 0 (length y)))
            (seq 0 (length x)) ≫= (fun rs => Ok (concat rs))
          = Raise (OutOfBounds "_A")).
  assert (Hcell : forall r col, r < length x -> col < length y ->
            (r * length y + col < length A /\ exists b, f r col = Ok b)
            \/ (length A <= r * length y + col
                /\ f r col = Raise (OutOfBounds "_A"))).
  { intros r col Hr Hcol. pose proof (index_bound _ _ _ _ Hr Hcol) as Hidx.
    destruct (decide (r * length y + col < length A)) as [Hlt|Hge].
    - left. split; [done|]. unfold f.
      rewrite !read_ok, !bind_Ok;
        [by eexists|done|by unfold tmp; rewrite length_tabulate2].
    - right. split; [lia|]. unfold f, read.
      by rewrite (lookup_ge_None_2 A) by lia. }
  assert (Hy : length y <> 0) by (intros Hy; rewrite Hy in HA; lia).
  pose proof (Nat.div_mod_eq (length A) (length y)) as Hdiv.
  pose proof (Nat.mod_upper_bound (length A) (length y) Hy) as Hmod.
  assert (Hrow : length A / length y < length x).
  { apply Nat.Div0.div_lt_upper_bound. lia. }
  destruct (map_range_cases
              (fun r => map_range (f r) (seq 0 (length y)))
              (seq 0 (length x)) (OutOfBounds "_A"))
    as [(bs & _ & Hall)|[-> _]]; [|exfalso|done].
  - intros r Hr%elem_of_seq.
    destruct (map_range_cases (f r) (seq 0 (length y)) (OutOfBounds "_A"))
      as [(bs & -> & _)|[-> _]]; [|by left; eexists|by right].
    intros col Hcol%elem_of_seq.
    destruct (Hcell r col) as [[_ Hok]|[_ Hraise]]; [lia..|by left|by right].
  - destruct (Hall (length A / length y)) as [bs' Hbs'];
      [apply elem_of_seq; lia|].
    destruct (map_range_cases (f (length A / length y)) (seq 0 (length y))
                (OutOfBounds "_A")) as [(bs'' & _ & Hall')|[Hraise _]].
    + intros col Hcol%elem_of_seq.
      destruct (Hcell (length A / length y) col) as [[_ Hok]|[_ Hr']];
        [lia..|by left|by right].
    + destruct (Hall' (length A mod length y)) as [b Hb];
        [apply elem_of_seq; lia|].
      destruct (Hcell (length A / length y) (length A mod length y))
        as [[Hlt _]|[_ Hr']]; [lia..|lia|congruence].
    + congruence.
Qed.

End PureReference.

(** X1: on a matrix that holds at least [len(x) * len(y)] elements, the
    pure expansion returns the [len(x)] by [len(y)] matrix with
    [A[i0, i1] + alpha * x[i0] * y[i1]] at row [i0] and column [i1]; [x] runs
    along the rows.  Both forms of the tasklet ([alpha == 1.0] or not) give
    this value. *)
Theorem X1_reference_computes_the_rank1_update node shape_A x y A :
  length x * length y <= length A ->
  exists res,
    Pure.reference node shape_A x y A = Ok res
    /\ length res = length x * length y
    /\ forall i0 i1,
         i0 < length x -> i1 < length y ->
         res !! (i0 * length y + i1)
         = Some (Z.add (A !!! (i0 * length y + i1))
                   (Ger.alpha node * x !!! i0 * y !!! i1)%Z).
Proof.
  intros HA. eexists. split; [by apply reference_closed_form_ge|].
  split; [apply length_tabulate2|].
  intros i0 i1 Hi0 Hi1. by rewrite lookup_tabulate2.
Qed.

Lemma X1_witness :
  exists res,
    Pure.reference scenario_node [2; 3] [1; 2]%Z [1; 10; 100]%Z
      [5; 5; 5; 5; 5; 5; 9]%Z = Ok res
    /\ length res = 2 * 3
    /\ forall i0 i1,
         i0 < 2 -> i1 < 3 ->
         res !! (i0 * 3 + i1)
         = Some (Z.add ([5; 5; 5; 5; 5; 5; 9]%Z !!! (i0 * 3 + i1))
                   (1 * [1; 2]%Z !!! i0 * [1; 10; 100]%Z !!! i1)%Z).
Proof.
  apply (X1_reference_computes_the_rank1_update scenario_node [2; 3]
           [1; 2]%Z [1; 10; 100]%Z [5; 5; 5; 5; 5; 5; 9]%Z).
  simpl. lia.
Defined.

(** X2: the pure expansion never broadcasts: on a matrix that holds fewer
    than [len(x) * len(y)] elements the map of the addition reads [_A]
    beyond its end. *)
Theorem X2_reference_reads_a_short_matrix_out_of_bounds node shape_A x y A :
  length A < length x * length y ->
  Pure.reference node shape_A x y A = Raise (OutOfBounds "_A").
Proof. apply reference_raises. Qed.

Lemma X2_witness :
  Pure.reference scenario_node [3; 1] [1; 2; 3]%Z [1; 1]%Z [10; 20; 30]%Z
  = Raise (OutOfBounds "_A").
Proof.
  apply (X2_reference_reads_a_short_matrix_out_of_bounds scenario_node).
  simpl. lia.
Defined.

(** X3: [expansion] of the pure variant returns a graph exactly when the
    node has three incoming edges and one outgoing edge, its data type is
    set, both vectors have one dimension and their storage classes are the
    same; the graph then has the sizes of the two vectors, was built by
    eleven calls, and reads [_A] at [__i0, __i1].  The tests come in this
    order: a node without data type is refused for this reason whatever
    the vectors are. *)
Theorem X3_pure_expansion_succeeds_iff
    squeeze_size node in_edges out_edges x y cdata :
  ((exists ops g,
      Pure.expansion squeeze_size node in_edges out_edges x y cdata
      = (ops, Ok g))
   <-> length in_edges = 3 /\ length out_edges = 1
       /\ Ger.dtype node <> None
       /\ length (Pure.shape x) = 1 /\ length (Pure.shape y) = 1
       /\ Pure.storage x = Pure.storage y)
  /\ (forall ops g,
        Pure.expansion squeeze_size node in_edges out_edges x y cdata
        = (ops, Ok g) ->
        length ops = 11
        /\ Pure.M g = Pure.shape x !!! 0 /\ Pure.N g = Pure.shape y !!! 0
        /\ Pure.memlet_idx g = Pure.idx_i0_i1)
  /\ (length in_edges = 3 -> length out_edges = 1 ->
      Ger.dtype node = None ->
      Pure.expansion squeeze_size node in_edges out_edges x y cdata
      = ([], Raise (ValueError ("Data type must be set to expand "
                                +:+ Ger.label node +:+ ".")))).
Proof.
  assert (Hok : forall ops g,
            Pure.expansion squeeze_size node in_edges out_edges x y cdata
            = (ops, Ok g) ->
            (length in_edges = 3 /\ length out_edges = 1
             /\ Ger.dtype node <> None)
            /\ Pure.make_sdfg node x y cdata = (ops, Ok g)).
  { intros ops g. unfold Pure.expansion. rewrite validate_arity.
    repeat case_decide; [|done..].
    destruct (Ger.dtype node); [|done]. by intros ->. }
  split; [split|split].
  - intros (ops & g & Hexp). destruct (Hok _ _ Hexp) as [(? & ? & ?) Hmake].
    destruct (make_sdfg_cases node x y cdata)
      as [[_ Hm]|[[_ Hm]|[(? & ? & ?) _]]]; [congruence..|done].
  - intros (Hin & Hout & Hdtype & Hx & Hy & Hstor).
    rewrite expansion_make_sdfg by done.
    destruct (make_sdfg_ok node x y cdata) as [ops ->]; [done..|].
    by eexists _, _.
  - intros ops g Hexp. destruct (Hok _ _ Hexp) as [_ Hmake].
    destruct (make_sdfg_cases node x y cdata)
      as [[_ Hm]|[[_ Hm]|[(Hx & Hy & Hstor) _]]]; [congruence..|].
    destruct (make_sdfg_ok node x y cdata Hx Hy Hstor) as [ops' Hmake'].
    rewrite Hmake' in Hmake. injection Hmake as <- <-. simpl.
    repeat split. unfold Pure.make_sdfg in Hmake'.
    rewrite decide_False in Hmake' by lia.
    rewrite decide_False in Hmake' by (by intros []).
    unfold Pure.broadcast_idx in Hmake'.
    rewrite decide_True in Hmake' by done. by injection Hmake' as <-.
  - intros Hin Hout Hdtype. unfold Pure.expansion.
    rewrite validate_arity, !decide_True by done. by rewrite Hdtype.
Qed.

(** ** What one run of the nested graphs does to the store *)

Section Frames.

Import Expand_GER_FPGA_Streaming_RowTiles.

Context {dt : Dtype}.
Variable c : Config.

(** A loop whose iterations do not change [f] does not change it. *)
Lemma for_range_preserves {S B : Type} (body : nat -> S -> Result S)
    (f : S -> B) (l : list nat) (s s' : S) :
  (forall i s1 s2, body i s1 = Ok s2 -> f s2 = f s1) ->
  for_range body l s = Ok s' -> f s' = f s.
Proof.
  intros Hbody. revert s. induction l as [|i l IH]; intros s; simpl.
  { by intros [= ->]. }
  destruct (body i s) as [s1|e] eqn:Hstep; [|done]. rewrite bind_Ok.
  intros Hrest. rewrite (IH _ Hrest). by eapply Hbody.
Qed.

(** A loop whose iteration [i] takes [k i] elements from the front of a
    stream takes them one iteration after the other. *)
Lemma for_range_takes {S B : Type} (body : nat -> S -> Result S)
    (f : S -> list B) (k : nat -> nat) (l : list nat) (s s' : S) :
  (forall i s1 s2, body i s1 = Ok s2 ->
     exists taken, f s1 = taken ++ f s2 /\ length taken = k i) ->
  for_range body l s = Ok s' ->
  exists taken, f s = taken ++ f s' /\ length taken = sum_list (map k l).
Proof.
  intros Hbody. revert s. induction l as [|i l IH]; intros s; simpl.
  { intros [= ->]. by exists []. }
  destruct (body i s) as [s1|e] eqn:Hstep; [|done]. rewrite bind_Ok.
  intros Hrest. destruct (Hbody _ _ _ Hstep) as (t1 & Ht1 & Hlen1).
  destruct (IH _ Hrest) as (t2 & Ht2 & Hlen2).
  exists (t1 ++ t2). rewrite Ht1, Ht2, <- app_assoc. split; [done|].
  rewrite length_app. lia.
Qed.

(** A loop whose iteration [i] puts [k i] elements at the end of a stream
    puts them one iteration after the other. *)
Lemma for_range_puts {S B : Type} (body : nat -> S -> Result S)
    (f : S -> list B) (k : nat -> nat) (l : list nat) (s s' : S) :
  (forall i s1 s2, body i s1 = Ok s2 ->
     exists put, f s2 = f s1 ++ put /\ length put = k i) ->
  for_range body l s = Ok s' ->
  exists put, f s' = f s ++ put /\ length put = sum_list (map k l).
Proof.
  intros Hbody. revert s. induction l as [|i l IH]; intros s; simpl.
  { intros [= ->]. exists []. by rewrite app_nil_r. }
  destruct (body i s) as [s1|e] eqn:Hstep; [|done]. rewrite bind_Ok.
  intros Hrest. destruct (Hbody _ _ _ Hstep) as (t1 & Ht1 & Hlen1).
  destruct (IH _ Hrest) as (t2 & Ht2 & Hlen2).
  exists (t1 ++ t2). rewrite Ht2, Ht1, <- app_assoc. split; [done|].
  rewrite length_app. lia.
Qed.

Lemma sum_list_const {B : Type} (k : nat) (l : list B) :
  sum_list (map (fun _ => k) l) = length l * k.
Proof. induction l as [|b l IH]; simpl; [done|]. rewrite IH. lia. Qed.

(** Only the first index counts. *)
Lemma sum_list_first (k N : nat) :
  sum_list (map (fun i => if decide (i = 0) then k else 0) (seq 0 N))
  = if decide (N = 0) then 0 else k.
Proof.
  destruct N as [|N]; [done|]. rewrite <- cons_seq. simpl.
  rewrite (map_ext_in _ (fun _ => 0)), sum_list_const; [lia|].
  intros i Hi%in_seq. rewrite decide_False; [done|lia].
Qed.

(** One step of the inner graph that succeeds. *)
Lemma unrolled_step i j ii jj s s' :
  make_unrolledCompute c i j ii jj s = Ok s' ->
  (exists A_con, A_in s = A_con :: A_in s')
  /\ (exists outCon v, res s' = res s ++ [outCon]
                       /\ trace s' = trace s ++ [Compute i j ii jj v]
                       /\ y_buf_row s !! ii = Some v)
  /\ y_in s' = y_in s
  /\ y_buf_row s' = y_buf_row s
  /\ length (x_buf s') = length (x_buf s)
  /\ (ii = 0 -> exists inCon, x_in s = inCon :: x_in s')
  /\ (ii <> 0 -> x_in s' = x_in s /\ x_buf s' = x_buf s).
Proof.
  unfold make_unrolledCompute.
  destruct (decide (ii = 0)) as [Hii|Hii].
  - destruct (x_in s) as [|inCon rest] eqn:Hx; [done|].
    case_decide; [|done]. rewrite bind_Ok. simpl.
    destruct (A_in s) as [|A_con Arest]; [done|].
    destruct (sublist_lookup _ _ _); [|done].
    destruct (y_buf_row s !! ii) as [v|] eqn:Hv; [|done].
    intros [= <-]. simpl. rewrite length_inserts.
    repeat split; try (intros; done); eauto.
  - rewrite bind_Ok.
    destruct (A_in s) as [|A_con Arest]; [done|].
    destruct (sublist_lookup _ _ _); [|done].
    destruct (y_buf_row s !! ii) as [v|] eqn:Hv; [|done].
    intros [= <-]. simpl.
    repeat split; try (intros; done); eauto.
Qed.

(** What the step computes: the tasklet on the vector taken from the
    stream of the matrix, the vector of the buffer of [x] at
    [jj * vecWidthM] after the read of the stream of [x], and the element
    [ii] of the buffer of [y]. *)
Lemma unrolled_step_value i j ii jj s s' :
  make_unrolledCompute c i j ii jj s = Ok s' ->
  (exists A_con x_con y_con,
     A_in s = A_con :: A_in s'
     /\ sublist_lookup (jj * vecWidthM c) (vecWidthM c) (x_buf s')
        = Some x_con
     /\ y_buf_row s !! ii = Some y_con
     /\ res s' = res s ++ [compute_task (a c) A_con x_con y_con]
     /\ trace s' = trace s ++ [Compute i j ii jj y_con])
  /\ (ii = 0 ->
      exists inCon, x_in s = inCon :: x_in s'
                    /\ jj * vecWidthM c + vecWidthM c <= length (x_buf s)
                    /\ x_buf s' = list_inserts (jj * vecWidthM c) inCon
                                    (x_buf s)).
Proof.
  unfold make_unrolledCompute.
  destruct (decide (ii = 0)) as [Hii|Hii].
  - destruct (x_in s) as [|inCon rest] eqn:Hx; [done|].
    case_decide; [|done]. rewrite bind_Ok. simpl.
    destruct (A_in s) as [|A_con Arest]; [done|].
    destruct (sublist_lookup _ _ _) as [x_con|] eqn:Hxc; [|done].
    destruct (y_buf_row s !! ii) as [v|] eqn:Hv; [|done].
    intros [= <-]. simpl. split; [|by eauto].
    by eexists _, _, _.
  - rewrite bind_Ok.
    destruct (A_in s) as [|A_con Arest]; [done|].
    destruct (sublist_lookup _ _ _) as [x_con|] eqn:Hxc; [|done].
    destruct (y_buf_row s !! ii) as [v|] eqn:Hv; [|done].
    intros [= <-]. simpl. split; [|done].
    by eexists _, _, _.
Qed.

#[warnings="-inconsistent-scopes"]
Local Abbreviation takes f k s s' :=
  (exists taken, f s = (taken ++ f s')%list /\ length taken = k).
#[warnings="-inconsistent-scopes"]
Local Abbreviation puts f k s s' :=
  (exists put, f s' = (f s ++ put)%list /\ length put = k).
Local Abbreviation K := (mTile c / vecWidthM c).

(** The steps of one row of a tile. *)
Lemma row_steps i j ii s s' :
  for_range (make_unrolledCompute c i j ii) (lanes c) s = Ok s' ->
  takes A_in K s s'
  /\ puts res K s s'
  /\ takes x_in (if decide (ii = 0) then K else 0) s s'
  /\ (ii <> 0 -> x_buf s' = x_buf s)
  /\ length (x_buf s') = length (x_buf s)
  /\ y_in s' = y_in s
  /\ y_buf_row s' = y_buf_row s.
Proof.
  intros Hrun.
  assert (HK : length (lanes c) = K) by (unfold lanes; apply length_seq).
  split; [|split; [|split; [|split; [|split; [|split]]]]].
  - destruct (for_range_takes _ A_in (fun _ => 1) _ _ _
                ltac:(intros jj s1 s2 (HA & _)%unrolled_step;
                      destruct HA as [v ->]; by exists [v]) Hrun)
      as (taken & ? & Hlen).
    exists taken. rewrite sum_list_const in Hlen. split; [done|lia].
  - destruct (for_range_puts _ res (fun _ => 1) _ _ _
                ltac:(intros jj s1 s2 (_ & (o & v & -> & _) & _)%unrolled_step;
                      by exists [o]) Hrun)
      as (put & ? & Hlen).
    exists put. rewrite sum_list_const in Hlen. split; [done|lia].
  - destruct (for_range_takes _ x_in
                (fun _ => if decide (ii = 0) then 1 else 0) _ _ _
                ltac:(intros jj s1 s2 (_ & _ & _ & _ & _ & Hx0 & Hx1)
                              %unrolled_step;
                      case_decide;
                        [destruct (Hx0 ltac:(done)) as [v ->]; by exists [v]
                        |destruct (Hx1 ltac:(done)) as [-> _]; by exists []])
                Hrun)
      as (taken & ? & Hlen).
    exists taken. rewrite sum_list_const in Hlen. split; [done|].
    case_decide; lia.
  - intros Hii. eapply for_range_preserves; [|exact Hrun].
    intros jj s1 s2 (_ & _ & _ & _ & _ & _ & Hx1)%unrolled_step.
    by destruct (Hx1 Hii).
  - eapply (for_range_preserves _ (fun s => length (x_buf s))); [|exact Hrun].
    by intros jj s1 s2 (_ & _ & _ & _ & ? & _)%unrolled_step.
  - eapply for_range_preserves; [|exact Hrun].
    by intros jj s1 s2 (_ & _ & ? & _)%unrolled_step.
  - eapply for_range_preserves; [|exact Hrun].
    by intros jj s1 s2 (_ & _ & _ & ? & _)%unrolled_step.
Qed.

(** One row of a tile that succeeds. *)
Lemma tile_row_frame i j ii s s' :
  make_computeTileRowStreamed c i j ii s = Ok s' ->
  takes A_in K s s'
  /\ puts res K s s'
  /\ takes x_in (if decide (ii = 0) then K else 0) s s'
  /\ (ii <> 0 -> x_buf s' = x_buf s)
  /\ length (x_buf s') = length (x_buf s)
  /\ (j = 0 ->
      exists y_buf, y_in s = y_buf :: y_in s'
                    /\ ii < length (y_buf_row s)
                    /\ y_buf_row s' = <[ii := y_buf !!! 0]> (y_buf_row s))
  /\ (j <> 0 -> y_in s' = y_in s /\ y_buf_row s' = y_buf_row s).
Proof.
  unfold make_computeTileRowStreamed.
  destruct (decide (j = 0)) as [Hj|Hj].
  - destruct (y_in s) as [|y_buf rest] eqn:Hy; [done|].
    case_decide; [|done]. rewrite bind_Ok.
    intros (HA & Hres & Hx & Hxb & Hxl & Hyin & Hyb)%row_steps.
    simpl in *. repeat split; try done. intros _. exists y_buf.
    by rewrite Hyin, Hyb.
  - rewrite bind_Ok.
    intros (HA & Hres & Hx & Hxb & Hxl & Hyin & Hyb)%row_steps.
    simpl in *. repeat split; try done.
Qed.

(** The rows of one tile. *)
Lemma tile_frame i j s s' :
  for_range (make_computeTileRowStreamed c i j) (rows c) s = Ok s' ->
  takes A_in (nTile c * K) s s'
  /\ puts res (nTile c * K) s s'
  /\ takes x_in (if decide (nTile c = 0) then 0 else K) s s'
  /\ takes y_in (if decide (j = 0) then nTile c else 0) s s'
  /\ length (x_buf s') = length (x_buf s)
  /\ length (y_buf_row s') = length (y_buf_row s).
Proof.
  intros Hrun.
  assert (Hrows : length (rows c) = nTile c) by (unfold rows; apply length_seq).
  split; [|split; [|split; [|split; [|split]]]].
  - destruct (for_range_takes _ A_in (fun _ => K) _ _ _
                ltac:(by intros ii s1 s2 (? & _)%tile_row_frame) Hrun)
      as (taken & ? & Hlen).
    exists taken. by rewrite sum_list_const, Hrows in Hlen.
  - destruct (for_range_puts _ res (fun _ => K) _ _ _
                ltac:(by intros ii s1 s2 (_ & ? & _)%tile_row_frame) Hrun)
      as (put & ? & Hlen).
    exists put. by rewrite sum_list_const, Hrows in Hlen.
  - destruct (for_range_takes _ x_in
                (fun ii => if decide (ii = 0) then K else 0) _ _ _
                ltac:(by intros ii s1 s2 (_ & _ & ? & _)%tile_row_frame) Hrun)
      as (taken & ? & Hlen).
    exists taken. unfold rows in Hlen. by rewrite sum_list_first in Hlen.
  - destruct (for_range_takes _ y_in
                (fun _ => if decide (j = 0) then 1 else 0) _ _ _
                ltac:(intros ii s1 s2 (_ & _ & _ & _ & _ & Hy0 & Hy1)
                              %tile_row_frame;
                      case_decide;
                        [destruct (Hy0 ltac:(done)) as (v & -> & _);
                         by exists [v]
                        |destruct (Hy1 ltac:(done)) as [-> _]; by exists []])
                Hrun)
      as (taken & ? & Hlen).
    exists taken. rewrite sum_list_const, Hrows in Hlen. split; [done|].
    case_decide; lia.
  - eapply (for_range_preserves _ (fun s => length (x_buf s))); [|exact Hrun].
    by intros ii s1 s2 (_ & _ & _ & _ & ? & _)%tile_row_frame.
  - eapply (for_range_preserves _ (fun s => length (y_buf_row s)));
      [|exact Hrun].
    intros ii s1 s2 (_ & _ & _ & _ & _ & Hy0 & Hy1)%tile_row_frame.
    destruct (decide (j = 0)) as [Hj|Hj].
    + destruct (Hy0 Hj) as (v & _ & _ & ->). apply length_insert.
    + by destruct (Hy1 Hj) as [_ ->].
Qed.

(** The tiles of one row-block. *)
Lemma block_frame i s s' :
  for_range (fun j => for_range (make_computeTileRowStreamed c i j) (rows c))
    (tiles c) s = Ok s' ->
  takes A_in (m c / mTile c * (nTile c * K)) s s'
  /\ puts res (m c / mTile c * (nTile c * K)) s s'
  /\ takes x_in (m c / mTile c * (if decide (nTile c = 0) then 0 else K)) s s'
  /\ takes y_in (if decide (m c / mTile c = 0) then 0 else nTile c) s s'
  /\ length (x_buf s') = length (x_buf s)
  /\ length (y_buf_row s') = length (y_buf_row s).
Proof.
  intros Hrun.
  assert (Htiles : length (tiles c) = m c / mTile c)
    by (unfold tiles; apply length_seq).
  split; [|split; [|split; [|split; [|split]]]].
  - destruct (for_range_takes _ A_in (fun _ => nTile c * K) _ _ _
                ltac:(by intros j s1 s2 (? & _)%tile_frame) Hrun)
      as (taken & ? & Hlen).
    exists taken. by rewrite sum_list_const, Htiles in Hlen.
  - destruct (for_range_puts _ res (fun _ => nTile c * K) _ _ _
                ltac:(by intros j s1 s2 (_ & ? & _)%tile_frame) Hrun)
      as (put & ? & Hlen).
    exists put. by rewrite sum_list_const, Htiles in Hlen.
  - destruct (for_range_takes _ x_in
                (fun _ => if decide (nTile c = 0) then 0 else K) _ _ _
                ltac:(by intros j s1 s2 (_ & _ & ? & _)%tile_frame) Hrun)
      as (taken & ? & Hlen).
    exists taken. by rewrite sum_list_const, Htiles in Hlen.
  - destruct (for_range_takes _ y_in
                (fun j => if decide (j = 0) then nTile c else 0) _ _ _
                ltac:(by intros j s1 s2 (_ & _ & _ & ? & _)%tile_frame) Hrun)
      as (taken & ? & Hlen).
    exists taken. unfold tiles in Hlen. by rewrite sum_list_first in Hlen.
  - eapply (for_range_preserves _ (fun s => length (x_buf s))); [|exact Hrun].
    by intros j s1 s2 (_ & _ & _ & _ & ? & _)%tile_frame.
  - eapply (for_range_preserves _ (fun s => length (y_buf_row s)));
      [|exact Hrun].
    by intros j s1 s2 (_ & _ & _ & _ & _ & ?)%tile_frame.
Qed.

(** The whole graph. *)
Lemma graph_frame s s' :
  make_sdfg c s = Ok s' ->
  takes A_in (n c / nTile c * (m c / mTile c * (nTile c * K))) s s'
  /\ puts res (n c / nTile c * (m c / mTile c * (nTile c * K))) s s'
  /\ takes x_in (n c / nTile c
                 * (m c / mTile c * (if decide (nTile c = 0) then 0 else K)))
       s s'
  /\ takes y_in (n c / nTile c
                 * (if decide (m c / mTile c = 0) then 0 else nTile c)) s s'
  /\ length (x_buf s') = length (x_buf s)
  /\ length (y_buf_row s') = length (y_buf_row s).
Proof.
  unfold make_sdfg. intros Hrun.
  assert (Hblocks : length (seq 0 (n c / nTile c)) = n c / nTile c)
    by apply length_seq.
  split; [|split; [|split; [|split; [|split]]]].
  - destruct (for_range_takes _ A_in
                (fun _ => m c / mTile c * (nTile c * K)) _ _ _
                ltac:(by intros i s1 s2 (? & _)%block_frame) Hrun)
      as (taken & ? & Hlen).
    exists taken. by rewrite sum_list_const, Hblocks in Hlen.
  - destruct (for_range_puts _ res
                (fun _ => m c / mTile c * (nTile c * K)) _ _ _
                ltac:(by intros i s1 s2 (_ & ? & _)%block_frame) Hrun)
      as (put & ? & Hlen).
    exists put. by rewrite sum_list_const, Hblocks in Hlen.
  - destruct (for_range_takes _ x_in
                (fun _ => m c / mTile c
                          * (if decide (nTile c = 0) then 0 else K)) _ _ _
                ltac:(by intros i s1 s2 (_ & _ & ? & _)%block_frame) Hrun)
      as (taken & ? & Hlen).
    exists taken. by rewrite sum_list_const, Hblocks in Hlen.
  - destruct (for_range_takes _ y_in
                (fun _ => if decide (m c / mTile c = 0) then 0 else nTile c)
                _ _ _
                ltac:(by intros i s1 s2 (_ & _ & _ & ? & _)%block_frame) Hrun)
      as (taken & ? & Hlen).
    exists taken. by rewrite sum_list_const, Hblocks in Hlen.
  - eapply (for_range_preserves _ (fun s => length (x_buf s))); [|exact Hrun].
    by intros i s1 s2 (_ & _ & _ & _ & ? & _)%block_frame.
  - eapply (for_range_preserves _ (fun s => length (y_buf_row s)));
      [|exact Hrun].
    by intros i s1 s2 (_ & _ & _ & _ & _ & ?)%block_frame.
Qed.

End Frames.

(** The lanes of the result of the tasklet. *)
Lemma compute_task_lanes {dt : Dtype} a A_con x_con y_con :
  length (RT.compute_task a A_con x_con y_con)
  = length A_con `min` length x_con
  /\ forall l A_l x_l,
       A_con !! l = Some A_l -> x_con !! l = Some x_l ->
       RT.compute_task a A_con x_con y_con !! l
       = Some (e_add A_l (e_mul (e_mul x_l y_con) (e_const a))).
Proof.
  unfold RT.compute_task. split; [apply length_zip_with|].
  intros l A_l x_l HA Hx. by rewrite lookup_zip_with, HA, Hx.
Qed.

(** X4: a run of the inner graph that succeeds, for every element type,
    configuration and store, takes exactly one vector [A_con] from the
    stream of the matrix and puts exactly one vector [outCon] at the end of
    the output stream.  With [x_con] the [vecWidthM] elements of the buffer
    of [x] from [jj * vecWidthM] on and [y_con] the element at [ii] of the
    buffer of [y], every lane of [outCon] is
    [A_con[l] + x_con[l] * y_con * a], and [outCon] has as many lanes as the
    shorter of [A_con] and [x_con].  The run never touches the stream of
    [y] or the buffer of [y]; when [ii = 0] it first takes one vector from
    the stream of [x] and stores it in the buffer of [x] at
    [jj * vecWidthM], so that [x_con] is that vector when it has
    [vecWidthM] lanes; otherwise it leaves the stream of [x] and the buffer
    of [x] as they are. *)
Theorem X4_inner_graph_takes_one_vector_and_emits_one
    (dt : Dtype) c i j ii jj s s' :
  RT.make_unrolledCompute (dt := dt) c i j ii jj s = Ok s' ->
  (exists A_con x_con y_con outCon,
     RT.A_in s = A_con :: RT.A_in s'
     /\ sublist_lookup (jj * RT.vecWidthM c) (RT.vecWidthM c) (RT.x_buf s')
        = Some x_con
     /\ RT.y_buf_row s !! ii = Some y_con
     /\ RT.res s' = RT.res s ++ [outCon]
     /\ length outCon = length A_con `min` RT.vecWidthM c
     /\ (forall l A_l x_l,
          A_con !! l = Some A_l -> x_con !! l = Some x_l ->
          outCon !! l
          = Some (e_add A_l (e_mul (e_mul x_l y_con) (e_const (RT.a c)))))
     /\ RT.trace s' = RT.trace s ++ [RT.Compute i j ii jj y_con])
  /\ RT.y_in s' = RT.y_in s
  /\ RT.y_buf_row s' = RT.y_buf_row s
  /\ length (RT.x_buf s') = length (RT.x_buf s)
  /\ (ii = 0 ->
      exists inCon,
        RT.x_in s = inCon :: RT.x_in s'
        /\ jj * RT.vecWidthM c + RT.vecWidthM c <= length (RT.x_buf s)
        /\ RT.x_buf s' = list_inserts (jj * RT.vecWidthM c) inCon (RT.x_buf s)
        /\ (length inCon = RT.vecWidthM c ->
            sublist_lookup (jj * RT.vecWidthM c) (RT.vecWidthM c)
              (RT.x_buf s') = Some inCon))
  /\ (ii <> 0 -> RT.x_in s' = RT.x_in s /\ RT.x_buf s' = RT.x_buf s).
Proof.
  intros Hrun.
  destruct (unrolled_step_value c i j ii jj s s' Hrun)
    as [(A_con & x_con & y_con & HA & Hxc & Hyc & Hres & Htrace) Hx].
  destruct (unrolled_step c i j ii jj s s' Hrun)
    as (_ & _ & Hy & Hyb & Hlen & _ & Hx').
  destruct (compute_task_lanes (RT.a c) A_con x_con y_con)
    as [Hlanes Hlane].
  split.
  { exists A_con, x_con, y_con, (RT.compute_task (RT.a c) A_con x_con y_con).
    rewrite Hlanes, (sublist_lookup_length _ _ _ _ Hxc). done. }
  split; [done|]. split; [done|]. split; [done|].
  split; [|done].
  intros Hii. destruct (Hx Hii) as (inCon & Hin & Hbound & Hbuf).
  exists inCon. split; [done|]. split; [done|]. split; [done|].
  intros HinCon. rewrite Hbuf, <- HinCon.
  apply sublist_lookup_inserts. lia.
Qed.

Lemma X4_witness :
  let s := {| RT.A_in := [[5; 6]; [7; 8]]%Z; RT.x_in := [[3; 4]]%Z;
              RT.y_in := [[9]]%Z; RT.res := []; RT.y_buf_row := [2; 0]%Z;
              RT.x_buf := [0; 0; 0; 0]%Z; RT.trace := [] |} in
  let s' := {| RT.A_in := [[7; 8]]%Z; RT.x_in := [];
               RT.y_in := [[9]]%Z; RT.res := [[23; 30]]%Z;
               RT.y_buf_row := [2; 0]%Z;
               RT.x_buf := [0; 0; 3; 4]%Z;
               RT.trace := [RT.Compute 0 0 0 1 2] |} in
  let c := RT.config wide_node in
  (exists A_con x_con y_con outCon,
     RT.A_in s = A_con :: RT.A_in s'
     /\ sublist_lookup (1 * RT.vecWidthM c) (RT.vecWidthM c) (RT.x_buf s')
        = Some x_con
     /\ RT.y_buf_row s !! 0 = Some y_con
     /\ RT.res s' = RT.res s ++ [outCon]
     /\ length outCon = length A_con `min` RT.vecWidthM c
     /\ (forall l A_l x_l,
          A_con !! l = Some A_l -> x_con !! l = Some x_l ->
          outCon !! l
          = Some (e_add (Dtype := exact) A_l
                    (e_mul (e_mul x_l y_con) (e_const (RT.a c)))))
     /\ RT.trace s' = RT.trace s ++ [RT.Compute 0 0 0 1 y_con])
  /\ RT.y_in s' = RT.y_in s
  /\ RT.y_buf_row s' = RT.y_buf_row s
  /\ length (RT.x_buf s') = length (RT.x_buf s)
  /\ (0 = 0 ->
      exists inCon,
        RT.x_in s = inCon :: RT.x_in s'
        /\ 1 * RT.vecWidthM c + RT.vecWidthM c <= length (RT.x_buf s)
        /\ RT.x_buf s' = list_inserts (1 * RT.vecWidthM c) inCon (RT.x_buf s)
        /\ (length inCon = RT.vecWidthM c ->
            sublist_lookup (1 * RT.vecWidthM c) (RT.vecWidthM c)
              (RT.x_buf s') = Some inCon))
  /\ (0 <> 0 -> RT.x_in s' = RT.x_in s /\ RT.x_buf s' = RT.x_buf s).
Proof.
  intros s s' c.
  apply (X4_inner_graph_takes_one_vector_and_emits_one exact c 0 0 0 1 s s').
  reflexivity.
Defined.

(** X5: a run of the tile graph that succeeds takes [mTile / vecWidthM]
    vectors from the stream of the matrix and puts as many on the output
    stream; when [j = 0] it takes exactly one element from the stream of
    [y] and stores it at [ii] of the buffer of [y], changing no other
    element; when [j <> 0] it leaves the stream of [y] and the buffer of [y]
    as they are; it takes [mTile / vecWidthM] vectors from the stream of
    [x] when [ii = 0] and none otherwise.  This holds for every
    configuration and every store. *)
Theorem X5_tile_graph_reads_y_only_in_the_first_tile c i j ii s s' :
  RT.make_computeTileRowStreamed c i j ii s = Ok s' ->
  (exists taken, RT.A_in s = taken ++ RT.A_in s'
                 /\ length taken = RT.mTile c / RT.vecWidthM c)
  /\ (exists put, RT.res s' = RT.res s ++ put
                  /\ length put = RT.mTile c / RT.vecWidthM c)
  /\ (exists taken, RT.x_in s = taken ++ RT.x_in s'
                    /\ length taken = if decide (ii = 0)
                                      then RT.mTile c / RT.vecWidthM c else 0)
  /\ (ii <> 0 -> RT.x_buf s' = RT.x_buf s)
  /\ length (RT.x_buf s') = length (RT.x_buf s)
  /\ (j = 0 ->
      exists y_buf, RT.y_in s = y_buf :: RT.y_in s'
                    /\ ii < length (RT.y_buf_row s)
                    /\ RT.y_buf_row s' = <[ii := y_buf !!! 0]> (RT.y_buf_row s))
  /\ (j <> 0 -> RT.y_in s' = RT.y_in s /\ RT.y_buf_row s' = RT.y_buf_row s).
Proof. apply tile_row_frame. Qed.

Lemma X5_witness :
  let s := {| RT.A_in := [[5; 6]; [7; 8]; [1; 1]]%Z; RT.x_in := [[3; 4]]%Z;
              RT.y_in := [[9]]%Z; RT.res := []; RT.y_buf_row := [2; 10]%Z;
              RT.x_buf := [1; 2; 3; 4]%Z; RT.trace := [] |} in
  let s' := {| RT.A_in := [[1; 1]]%Z; RT.x_in := [[3; 4]]%Z;
               RT.y_in := [[9]]%Z; RT.res := [[35; 66]; [97; 128]]%Z;
               RT.y_buf_row := [2; 10]%Z;
               RT.x_buf := [1; 2; 3; 4]%Z;
               RT.trace := [RT.ReadEmpty 0 1 1; RT.Compute 0 1 1 0 10;
                            RT.Compute 0 1 1 1 10] |} in
  (exists taken, RT.A_in s = taken ++ RT.A_in s' /\ length taken = 4 / 2)
  /\ (exists put, RT.res s' = RT.res s ++ put /\ length put = 4 / 2)
  /\ (exists taken, RT.x_in s = taken ++ RT.x_in s'
                    /\ length taken = if decide (1 = 0) then 4 / 2 else 0)
  /\ (1 <> 0 -> RT.x_buf s' = RT.x_buf s)
  /\ length (RT.x_buf s') = length (RT.x_buf s)
  /\ (1 = 0 ->
      exists y_buf, RT.y_in s = y_buf :: RT.y_in s'
                    /\ 1 < length (RT.y_buf_row s)
                    /\ RT.y_buf_row s' = <[1 := y_buf !!! 0]> (RT.y_buf_row s))
  /\ (1 <> 0 -> RT.y_in s' = RT.y_in s /\ RT.y_buf_row s' = RT.y_buf_row s).
Proof.
  intros s s'.
  apply (X5_tile_graph_reads_y_only_in_the_first_tile (RT.config wide_node)
           0 1 1 s s').
  reflexivity.
Defined.

(** X6: a run of the whole graph that succeeds, on any configuration and
    any store, takes from the front of the stream of the matrix exactly
    [(n / nTile) * (m / mTile) * nTile * (mTile / vecWidthM)] vectors and
    puts exactly as many at the end of the output stream, leaving what was
    on the output stream before in place; with [nTile > 0] and
    [m / mTile > 0] it takes [(n / nTile) * (m / mTile) * (mTile /
    vecWidthM)] vectors of [x] and [(n / nTile) * nTile] elements of [y];
    the two buffers keep their sizes. *)
Theorem X6_graph_emits_one_vector_per_vector_of_the_matrix c s s' :
  RT.make_sdfg c s = Ok s' ->
  (exists taken,
     RT.A_in s = taken ++ RT.A_in s'
     /\ length taken
        = RT.n c / RT.nTile c
          * (RT.m c / RT.mTile c * (RT.nTile c * (RT.mTile c / RT.vecWidthM c))))
  /\ (exists put,
        RT.res s' = RT.res s ++ put
        /\ length put
           = RT.n c / RT.nTile c
             * (RT.m c / RT.mTile c
                * (RT.nTile c * (RT.mTile c / RT.vecWidthM c))))
  /\ (0 < RT.nTile c -> 0 < RT.m c / RT.mTile c ->
      (exists taken,
         RT.x_in s = taken ++ RT.x_in s'
         /\ length taken
            = RT.n c / RT.nTile c
              * (RT.m c / RT.mTile c * (RT.mTile c / RT.vecWidthM c)))
      /\ (exists taken,
            RT.y_in s = taken ++ RT.y_in s'
            /\ length taken = RT.n c / RT.nTile c * RT.nTile c))
  /\ length (RT.x_buf s') = length (RT.x_buf s)
  /\ length (RT.y_buf_row s') = length (RT.y_buf_row s).
Proof.
  intros (HA & Hres & Hx & Hy & Hxb & Hyb)%graph_frame.
  split; [done|]. split; [done|]. split; [|done].
  intros HnT Htiles. split.
  - destruct Hx as (taken & ? & Hlen). exists taken. split; [done|].
    by rewrite decide_False in Hlen by lia.
  - destruct Hy as (taken & ? & Hlen). exists taken. split; [done|].
    by rewrite decide_False in Hlen by lia.
Qed.

Lemma X6_witness :
  (exists taken,
     RT.A_in wide_store = taken ++ RT.A_in wide_final
     /\ length taken
        = RT.n (RT.config wide_node) / RT.nTile (RT.config wide_node)
          * (RT.m (RT.config wide_node) / RT.mTile (RT.config wide_node)
             * (RT.nTile (RT.config wide_node)
                * (RT.mTile (RT.config wide_node)
                   / RT.vecWidthM (RT.config wide_node)))))
  /\ (exists put,
        RT.res wide_final = RT.res wide_store ++ put
        /\ length put
           = RT.n (RT.config wide_node) / RT.nTile (RT.config wide_node)
             * (RT.m (RT.config wide_node) / RT.mTile (RT.config wide_node)
                * (RT.nTile (RT.config wide_node)
                   * (RT.mTile (RT.config wide_node)
                      / RT.vecWidthM (RT.config wide_node)))))
  /\ (0 < RT.nTile (RT.config wide_node) ->
      0 < RT.m (RT.config wide_node) / RT.mTile (RT.config wide_node) ->
      (exists taken,
         RT.x_in wide_store = taken ++ RT.x_in wide_final
         /\ length taken
            = RT.n (RT.config wide_node) / RT.nTile (RT.config wide_node)
              * (RT.m (RT.config wide_node) / RT.mTile (RT.config wide_node)
                 * (RT.mTile (RT.config wide_node)
                    / RT.vecWidthM (RT.config wide_node))))
      /\ (exists taken,
            RT.y_in wide_store = taken ++ RT.y_in wide_final
            /\ length taken
               = RT.n (RT.config wide_node) / RT.nTile (RT.config wide_node)
                 * RT.nTile (RT.config wide_node)))
  /\ length (RT.x_buf wide_final) = length (RT.x_buf wide_store)
  /\ length (RT.y_buf_row wide_final) = length (RT.y_buf_row wide_store).
Proof.
  apply (X6_graph_emits_one_vector_per_vector_of_the_matrix
           (RT.config wide_node) wide_store wide_final).
  vm_compute. reflexivity.
Defined.

(** X7: when the stream of the matrix holds fewer vectors than the
    schedule takes, the graph fails: no result is returned. *)
Theorem X7_graph_fails_on_a_short_matrix_stream c s :
  length (RT.A_in s)
  < RT.n c / RT.nTile c
    * (RT.m c / RT.mTile c * (RT.nTile c * (RT.mTile c / RT.vecWidthM c))) ->
  exists e, RT.make_sdfg c s = Raise e.
Proof.
  intros Hshort. destruct (RT.make_sdfg c s) as [s'|e] eqn:Hrun; [|by eexists].
  apply graph_frame in Hrun as ((taken & HA & Hlen) & _).
  rewrite HA, length_app in Hshort. lia.
Qed.

Lemma X7_witness :
  exists e,
    RT.make_sdfg (RT.config wide_node)
      {| RT.A_in := [[1; 2]; [3; 4]; [5; 6]]%Z;
         RT.x_in := Ger.getStreamReader_x wide_node (seqZ 0 8);
         RT.y_in := Ger.getStreamReader_y wide_node (seqZ 0 4);
         RT.res := []; RT.y_buf_row := [0; 0]%Z;
         RT.x_buf := [0; 0; 0; 0]%Z; RT.trace := [] |}
    = Raise e.
Proof.
  apply (X7_graph_fails_on_a_short_matrix_stream (RT.config wide_node)).
  vm_compute. lia.
Defined.

(** ** The graph on streams in the order of the schedule *)

(** X8: when the three input streams hold, in the order of the maps, the
    vectors [Avec i j ii jj] of the matrix, the vectors [xvec i j jj] of
    [x] (one pass per row-block) and the elements [yvec i ii] of [y], and
    the buffers are large enough, the graph succeeds, takes exactly these
    vectors and leaves what follows them on the streams, and appends to the
    output stream, in the same order, the results
    [Avec i j ii jj + xvec i j jj * yvec i ii * a] of the tasklet.  No
    divisibility is needed for this. *)
Theorem X8_graph_on_streams_in_schedule_order
    c Avec xvec yvec s Arest xrest yrest :
  (forall i j jj, length (xvec i j jj) = RT.vecWidthM c) ->
  0 < RT.nTile c ->
  0 < RT.m c / RT.mTile c ->
  RT.A_in s = RT.stream_of c Avec ++ Arest ->
  RT.x_in s = flat_map (RT.block_x c xvec) (RT.blocks c) ++ xrest ->
  RT.y_in s = flat_map (RT.block_y c yvec) (RT.blocks c) ++ yrest ->
  RT.mTile c / RT.vecWidthM c * RT.vecWidthM c <= length (RT.x_buf s) ->
  RT.nTile c <= length (RT.y_buf_row s) ->
  exists s',
    RT.make_sdfg c s = Ok s'
    /\ RT.A_in s' = Arest /\ RT.x_in s' = xrest /\ RT.y_in s' = yrest
    /\ RT.res s'
       = RT.res s
         ++ RT.stream_of c (fun i j ii jj =>
              RT.compute_task (RT.a c) (Avec i j ii jj) (xvec i j jj)
                (yvec i ii !!! 0)).
Proof.
  intros Hxvec HnT Htiles HA Hx Hy Hxb Hyb. eexists. split.
  { by apply (make_sdfg_closed_form c Avec xvec yvec Hxvec s Arest xrest yrest). }
  done.
Qed.

Lemma X8_witness :
  exists s',
    RT.make_sdfg (RT.config wide_node) wide_store = Ok s'
    /\ RT.A_in s' = [] /\ RT.x_in s' = [] /\ RT.y_in s' = []
    /\ RT.res s'
       = RT.res wide_store
         ++ RT.stream_of (RT.config wide_node) (fun i j ii jj =>
              RT.compute_task (RT.a (RT.config wide_node))
                (RT.node_Avec wide_node (seqZ 0 32) i j ii jj)
                (RT.node_xvec wide_node (seqZ 0 8) i j jj)
                (RT.node_yvec wide_node (seqZ 0 4) i ii !!! 0)).
Proof.
  apply (X8_graph_on_streams_in_schedule_order (RT.config wide_node)
           (RT.node_Avec wide_node (seqZ 0 32))
           (RT.node_xvec wide_node (seqZ 0 8))
           (RT.node_yvec wide_node (seqZ 0 4)) wide_store [] [] []).
  - intros i j jj. reflexivity.
  - vm_compute. lia.
  - vm_compute. lia.
  - vm_compute. reflexivity.
  - vm_compute. reflexivity.
  - vm_compute. reflexivity.
  - vm_compute. lia.
  - vm_compute. lia.
Defined.

(** ** The graph between the stream adapters of the node *)

Lemma length_StreamReadVector src len veclen repeat :
  length (StreamReadVector src len veclen repeat) = repeat * (len / veclen).
Proof.
  unfold StreamReadVector. apply length_flat_map_seq. intros k _.
  by rewrite length_map, length_seq.
Qed.

(** X9: the stream readers that the node declares supply exactly what its
    graph takes.  For every valid configuration and every scalar the
    stream of [x] holds [x] [n / nTile] times over ([(n / nTile) * (m /
    vecWidthM)] vectors), the stream of [y] holds its [n] elements once and
    the stream of the matrix holds one vector per step; the graph runs to
    its end, leaves the three streams empty and puts one vector per step
    on the output stream. *)
Theorem X9_stream_readers_supply_what_the_graph_takes
    node x y A y_buf_row0 x_buf0 :
  RT.valid node ->
  length y_buf_row0 = Ger.nTile node ->
  length x_buf0 = Ger.mTile node ->
  length (Ger.getStreamReader_x node x)
  = Ger.n node / Ger.nTile node * (Ger.m node / Ger.vecWidthM node)
  /\ length (Ger.getStreamReader_y node y) = Ger.n node
  /\ length (Ger.getStreamReader_A node A)
     = Ger.n node / Ger.nTile node
       * (Ger.m node / Ger.mTile node
          * (Ger.nTile node * (Ger.mTile node / Ger.vecWidthM node)))
  /\ exists s,
       RT.run_streams node x y A y_buf_row0 x_buf0 = Ok s
       /\ RT.A_in s = [] /\ RT.x_in s = [] /\ RT.y_in s = []
       /\ length (RT.res s) = length (Ger.getStreamReader_A node A).
Proof.
  intros Hvalid Hyb Hxb.
  split; [apply length_StreamReadVector|].
  split.
  { unfold Ger.getStreamReader_y. rewrite length_StreamReadVector.
    rewrite Nat.div_1_r. lia. }
  split.
  { rewrite reader_A_schedule, stream_of_A. apply length_stream_of. }
  eexists. split; [by apply run_streams_closed_form|]. simpl.
  repeat split. by rewrite (length_reader_A node x y A).
Qed.

Lemma X9_witness :
  length (Ger.getStreamReader_x wide_node (seqZ 0 8))
  = Ger.n wide_node / Ger.nTile wide_node
    * (Ger.m wide_node / Ger.vecWidthM wide_node)
  /\ length (Ger.getStreamReader_y wide_node (seqZ 0 4)) = Ger.n wide_node
  /\ length (Ger.getStreamReader_A wide_node (seqZ 0 32))
     = Ger.n wide_node / Ger.nTile wide_node
       * (Ger.m wide_node / Ger.mTile wide_node
          * (Ger.nTile wide_node
             * (Ger.mTile wide_node / Ger.vecWidthM wide_node)))
  /\ exists s,
       RT.run_streams wide_node (seqZ 0 8) (seqZ 0 4) (seqZ 0 32)
         [7; 7]%Z [9; 9; 9; 9]%Z = Ok s
       /\ RT.A_in s = [] /\ RT.x_in s = [] /\ RT.y_in s = []
       /\ length (RT.res s)
          = length (Ger.getStreamReader_A wide_node (seqZ 0 32)).
Proof.
  apply (X9_stream_readers_supply_what_the_graph_takes wide_node);
    [exact wide_valid|reflexivity..].
Defined.

(** ** The buffers after a run *)

(** A long vector is made of its short vectors. *)
Lemma sublist_lookup_pack src off K W jj :
  jj < K ->
  sublist_lookup (jj * W) W (pack (K * W) src off)
  = Some (pack W src (off + jj * W)).
Proof.
  intros Hjj. apply sublist_lookup_Some'. split; [|rewrite length_pack; nia].
  apply list_eq. intros l. unfold pack.
  destruct (decide (l < W)) as [Hl|Hl].
  - rewrite lookup_take_lt, lookup_drop, !lookup_map by done.
    rewrite !lookup_seq_lt by nia. simpl. f_equal. f_equal. lia.
  - rewrite lookup_take_ge by lia. rewrite lookup_map.
    by rewrite lookup_seq_ge by lia.
Qed.

Section Buffers.

Import Expand_GER_FPGA_Streaming_RowTiles.

Variable c : Config.
Variable xvec : nat -> nat -> nat -> Vec.
Variable yvec : nat -> nat -> Vec.
Hypothesis xvec_length : forall i j jj, length (xvec i j jj) = vecWidthM c.

Local Abbreviation K := (mTile c / vecWidthM c).
Local Abbreviation W := (vecWidthM c).

(** Reading the stream of [y] for a row-block fills the whole buffer. *)
Lemma fill_y_rows i buf :
  length buf = nTile c ->
  fill_y yvec i (rows c) buf = map (yval yvec i) (seq 0 (nTile c)).
Proof.
  intros Hbuf.
  apply (list_eq_same_length _ _ (nTile c));
    [by rewrite length_map, length_seq|by rewrite length_fill_y|].
  intros ii v v' Hii Hv Hv'.
  rewrite lookup_fill_y in Hv.
  - rewrite lookup_map, lookup_seq_lt in Hv' by done. simpl in Hv'. congruence.
  - intros ii' Hii'%elem_of_rows. lia.
  - left. by apply elem_of_rows.
Qed.

Lemma fill_y_all_last N buf :
  length buf = nTile c ->
  fill_y_all c yvec (seq 0 (S N)) buf = map (yval yvec N) (seq 0 (nTile c)).
Proof.
  intros Hbuf. unfold fill_y_all. rewrite seq_S, foldl_app. simpl.
  apply fill_y_rows.
  generalize (seq 0 N). intros l. revert buf Hbuf.
  induction l as [|i l IH]; intros buf Hbuf; simpl; [done|].
  apply IH. by rewrite length_fill_y.
Qed.

(** Reading the stream of [x] for a tile fills the whole buffer, when the
    buffer is made of [K] vectors. *)
Lemma fill_x_lanes i j buf buf' :
  length buf = K * W ->
  (forall jj, jj < K -> sublist_lookup (jj * W) W buf' = Some (xvec i j jj)) ->
  length buf' = K * W ->
  fill_x c xvec i j (lanes c) buf = buf'.
Proof.
  intros Hbuf Hchunks Hbuf'.
  apply (sublist_eq_same_length _ _ K W);
    [by rewrite length_fill_x|done|].
  intros jj Hjj. rewrite Hchunks by done.
  apply sublist_lookup_fill_x; [done| |].
  - intros jj' Hjj'%elem_of_lanes. nia.
  - left. by apply elem_of_lanes.
Qed.

Lemma fill_x_block_last i N buf buf' :
  length buf = K * W ->
  (forall jj, jj < K -> sublist_lookup (jj * W) W buf' = Some (xvec i N jj)) ->
  length buf' = K * W ->
  fill_x_block c xvec i (seq 0 (S N)) buf = buf'.
Proof.
  intros Hbuf Hchunks Hbuf'. unfold fill_x_block.
  rewrite seq_S, foldl_app. simpl. apply fill_x_lanes; [|done..].
  generalize (seq 0 N). intros l. revert buf Hbuf.
  induction l as [|j l IH]; intros buf Hbuf; simpl; [done|].
  apply IH. by rewrite length_fill_x.
Qed.

Lemma fill_x_all_last NB MB buf buf' :
  m c / mTile c = S MB ->
  length buf = K * W ->
  (forall jj, jj < K -> sublist_lookup (jj * W) W buf' = Some (xvec NB MB jj)) ->
  length buf' = K * W ->
  fill_x_all c xvec (seq 0 (S NB)) buf = buf'.
Proof.
  intros Htiles Hbuf Hchunks Hbuf'. unfold fill_x_all.
  rewrite seq_S, foldl_app. cbn [foldl]. unfold tiles at 1. rewrite Htiles.
  apply fill_x_block_last; [|done..].
  generalize (seq 0 NB). intros l. revert buf Hbuf.
  induction l as [|i l IH]; intros buf Hbuf; cbn [foldl]; [done|].
  apply IH. by rewrite length_fill_x_block.
Qed.

End Buffers.

Section NodeBuffers.

Import Expand_GER_FPGA_Streaming_RowTiles.

Variable node : Ger.Node.
Variables x y : list Z.
Hypothesis Hvalid : valid node.

(** After the last row-block the buffer of [y] holds the last [nTile]
    elements of [y]. *)
Lemma node_fill_y_all buf :
  length buf = Ger.nTile node ->
  fill_y_all (config node) (node_yvec node y) (blocks (config node)) buf
  = pack (Ger.nTile node) y (Ger.n node - Ger.nTile node).
Proof.
  intros Hbuf.
  destruct (valid_quotients node Hvalid)
    as (NB & MB & K & HNBpos & _ & _ & Hn & _ & _ & HNB & _).
  unfold blocks. cbn [config n nTile]. rewrite HNB.
  destruct NB as [|N]; [lia|].
  rewrite fill_y_all_last by done. cbn [config nTile]. unfold pack.
  apply map_ext_seq. intros ii Hii. rewrite yval_node. f_equal. lia.
Qed.

(** After the last tile the buffer of [x] holds the last [mTile] elements of
    [x]. *)
Lemma node_fill_x_all buf :
  length buf = Ger.mTile node ->
  fill_x_all (config node) (node_xvec node x) (blocks (config node)) buf
  = pack (Ger.mTile node) x (Ger.m node - Ger.mTile node).
Proof.
  intros Hbuf.
  destruct (valid_quotients node Hvalid)
    as (NB & MB & K & HNBpos & HMBpos & _ & _ & Hm & HmT & HNB & HMB & HK & _).
  unfold blocks. cbn [config n nTile]. rewrite HNB.
  destruct NB as [|N]; [lia|]. destruct MB as [|M']; [lia|].
  apply (fill_x_all_last (config node) (node_xvec node x))
    with (MB := M');
    cbn [config m mTile vecWidthM]; rewrite ?HK, ?length_pack; try lia.
  { intros i j jj. apply length_pack. }
  intros jj Hjj. rewrite HmT at 1. rewrite sublist_lookup_pack by done.
  unfold node_xvec. rewrite HK. do 2 f_equal. nia.
Qed.

End NodeBuffers.

(** X10: after a run between the stream readers of a valid node the two
    buffers of the graph hold the last tiles that were streamed: the
    buffer of [y] holds the last [nTile] elements of [y] and the buffer of
    [x] holds the last [mTile] elements of [x], whatever the buffers held
    before the run. *)
Theorem X10_buffers_hold_the_last_tiles_after_a_run
    node x y A y_buf_row0 x_buf0 :
  RT.valid node ->
  length y_buf_row0 = Ger.nTile node ->
  length x_buf0 = Ger.mTile node ->
  exists s,
    RT.run_streams node x y A y_buf_row0 x_buf0 = Ok s
    /\ RT.y_buf_row s
       = pack (Ger.nTile node) y (Ger.n node - Ger.nTile node)
    /\ RT.x_buf s
       = pack (Ger.mTile node) x (Ger.m node - Ger.mTile node).
Proof.
  intros Hvalid Hyb Hxb. eexists.
  split; [by apply run_streams_closed_form|]. cbn [RT.y_buf_row RT.x_buf].
  split; [by apply node_fill_y_all|by apply node_fill_x_all].
Qed.

Lemma X10_witness :
  exists s,
    RT.run_streams wide_node (seqZ 0 8) (seqZ 0 4) (seqZ 0 32)
      [7; 7]%Z [9; 9; 9; 9]%Z = Ok s
    /\ RT.y_buf_row s
       = pack (Ger.nTile wide_node) (seqZ 0 4)
           (Ger.n wide_node - Ger.nTile wide_node)
    /\ RT.x_buf s
       = pack (Ger.mTile wide_node) (seqZ 0 8)
           (Ger.m wide_node - Ger.mTile wide_node).
Proof.
  apply (X10_buffers_hold_the_last_tiles_after_a_run wide_node);
    [exact wide_valid|reflexivity..].
Defined.

(** ** The adapters and the expansion of the streaming variant *)

(** X11: the stream writer that the node declares undoes the stream reader
    that it declares for the matrix: both are given the same sizes, tiles
    and vector width, so that writing back the stream of an [n] x [m]
    matrix gives the matrix, for every valid configuration. *)
Theorem X11_stream_writer_undoes_the_stream_reader node A :
  RT.valid node ->
  length A = Ger.n node * Ger.m node ->
  Ger.getStreamWriter_RES node (Ger.getStreamReader_A node A) = A.
Proof. intros Hvalid HA. by apply writer_reader_A. Qed.

Lemma X11_witness :
  Ger.getStreamWriter_RES wide_node
    (Ger.getStreamReader_A wide_node (seqZ 0 32))
  = seqZ 0 32.
Proof.
  apply (X11_stream_writer_undoes_the_stream_reader wide_node);
    [exact wide_valid|reflexivity].
Defined.

(** X12: [expansion] of the streaming variant gives [make_sdfg] the symbol
    [a] of the node and not its property [alpha].  For a valid node with
    three incoming edges, one outgoing edge and a data type, the graph
    between the adapters of the node computes the update with the scalar
    [a], whatever [alpha] is; without these edges or without data type the
    expansion raises a [ValueError]. *)
Theorem X12_streaming_expansion_uses_the_symbol_a
    squeeze_size node in_edges out_edges x y A y_buf_row0 x_buf0 v :
  RT.valid node ->
  length y_buf_row0 = Ger.nTile node ->
  length x_buf0 = Ger.mTile node ->
  (length in_edges = 3 -> length out_edges = 1 -> Ger.dtype node <> None ->
   exists s,
     RT.expansion squeeze_size (Ger.with_alpha node v) in_edges out_edges
       (RT.initial_store (Ger.with_alpha node v) x y A y_buf_row0 x_buf0)
     = Ok s
     /\ Ger.getStreamWriter_RES (Ger.with_alpha node v) (RT.res s)
        = RT.rank1_update (Ger.a node) (Ger.n node) (Ger.m node) x y A)
  /\ (length in_edges <> 3 \/ length out_edges <> 1 \/ Ger.dtype node = None ->
      exists msg,
        RT.expansion squeeze_size (Ger.with_alpha node v) in_edges out_edges
          (RT.initial_store (Ger.with_alpha node v) x y A y_buf_row0 x_buf0)
        = Raise (ValueError msg)).
Proof.
  intros Hvalid Hyb Hxb. unfold RT.expansion. rewrite validate_arity.
  split.
  - intros Hin Hout Hdtype. rewrite !decide_True by done.
    rewrite bind_Ok. cbn [Ger.with_alpha Ger.dtype].
    destruct (Ger.dtype node) as [t|]; [|done].
    change (RT.make_sdfg _ _)
      with (RT.run_streams node x y A y_buf_row0 x_buf0).
    rewrite run_streams_closed_form by done. eexists. split; [done|].
    cbn [RT.res].
    change (Ger.getStreamWriter_RES (Ger.with_alpha node v))
      with (Ger.getStreamWriter_RES node).
    by rewrite writer_schedule.
  - intros Hcases. repeat case_decide; [|by eexists..].
    rewrite bind_Ok. cbn [Ger.with_alpha Ger.dtype].
    destruct (Ger.dtype node); [|by eexists].
    by destruct Hcases as [?|[?|?]].
Qed.

Lemma X12_witness :
  exists s,
    RT.expansion squeeze_ones (Ger.with_alpha wide_node 5)
      scenario_in_edges scenario_out_edges
      (RT.initial_store (Ger.with_alpha wide_node 5)
         (seqZ 0 8) (seqZ 0 4) (seqZ 0 32) [7; 7]%Z [9; 9; 9; 9]%Z)
    = Ok s
    /\ Ger.getStreamWriter_RES (Ger.with_alpha wide_node 5) (RT.res s)
       = RT.rank1_update (Ger.a wide_node) (Ger.n wide_node)
           (Ger.m wide_node) (seqZ 0 8) (seqZ 0 4) (seqZ 0 32).
Proof.
  apply (X12_streaming_expansion_uses_the_symbol_a squeeze_ones wide_node
           scenario_in_edges scenario_out_edges (seqZ 0 8) (seqZ 0 4)
           (seqZ 0 32) [7; 7]%Z [9; 9; 9; 9]%Z 5%Z);
    [exact wide_valid|reflexivity..|done].
Defined.

(** ** The reads of the stream of [y] in the order of the run *)

Section TraceOrder.

Import Expand_GER_FPGA_Streaming_RowTiles.

Variable c : Config.
Variable yvec : nat -> nat -> Vec.

Local Abbreviation K := (mTile c / vecWidthM c).

(** A row-block starts with the read of the first element of its part of
    [y]. *)
Lemma block_trace_first_read i :
  0 < nTile c -> 0 < m c / mTile c ->
  exists rest, block_trace c yvec i = ReadY i 0 0 (yval yvec i 0) :: rest.
Proof.
  intros HnT Htiles. unfold block_trace, tiles, tile_trace, rows.
  destruct (m c / mTile c) as [|MB]; [lia|].
  destruct (nTile c) as [|R]; [lia|].
  rewrite <- !cons_seq. cbn [flat_map]. unfold row_trace at 1.
  rewrite decide_True by done. rewrite <- !app_assoc, <- app_comm_cons.
  by eexists.
Qed.

(** After the read of the last element of its part of [y], a row-block
    reads the stream of [y] no more: it runs the rest of the first tile of
    the row and the other tiles from the buffer. *)
Lemma block_trace_last_read i :
  0 < nTile c -> 0 < m c / mTile c ->
  exists pre post,
    block_trace c yvec i
    = pre ++ ReadY i 0 (nTile c - 1) (yval yvec i (nTile c - 1)) :: post
    /\ count is_ReadY post = 0
    /\ count is_Compute post = K + (m c / mTile c - 1) * (nTile c * K).
Proof.
  intros HnT Htiles. unfold block_trace, tiles.
  destruct (m c / mTile c) as [|MB]; [lia|].
  rewrite <- cons_seq. cbn [flat_map]. unfold tile_trace at 1, rows.
  destruct (nTile c) as [|R] eqn:HR; [lia|].
  rewrite seq_S, flat_map_app. cbn [flat_map]. rewrite app_nil_r.
  unfold row_trace at 2. rewrite decide_True by done.
  rewrite <- app_assoc, <- app_comm_cons.
  replace (S R - 1) with R by lia. eexists _, _. split; [done|].
  rewrite !count_app.
  rewrite (count_none is_ReadY (map _ _))
    by (by intros e (jj & <- & _)%in_map_iff).
  rewrite (count_all is_Compute) by done.
  unfold lanes at 1. rewrite length_seq.
  rewrite (count_flat_map_uniform is_ReadY _ _ 0).
  2:{ intros j Hj%in_seq. unfold tile_trace.
      rewrite (count_flat_map_uniform _ _ _ 0); [lia|].
      intros ii _. rewrite count_ReadY_row.
      rewrite decide_False; [done|lia]. }
  rewrite (count_flat_map_uniform is_Compute _ _ (S R * K)).
  2:{ intros j _. unfold tile_trace.
      rewrite (count_flat_map_uniform _ _ _ K).
      - unfold rows. by rewrite length_seq, HR.
      - intros ii _. apply count_Compute_row. }
  rewrite length_seq. split; lia.
Qed.

(** Two row-blocks that follow each other in the run. *)
Lemma trace_consecutive_blocks i :
  S i < n c / nTile c ->
  exists before after,
    flat_map (block_trace c yvec) (blocks c)
    = before ++ block_trace c yvec i ++ block_trace c yvec (S i) ++ after.
Proof.
  intros Hi. unfold blocks.
  replace (n c / nTile c) with (i + (2 + (n c / nTile c - S (S i)))) by lia.
  rewrite seq_app, flat_map_app. cbn [seq flat_map Nat.add].
  by eexists _, _.
Qed.

End TraceOrder.

(** X13: the entry [_y] of [streamConsumptionLatency],
    [(m / mTile - 1) * mTile * nTile + mTile], is the number of elements of
    the matrix that the graph processes between two bursts of reads of the
    stream of [y].  In a run on a valid configuration, the read of the last
    element of [y] of a row-block and the read of the first element of the
    next row-block are separated by compute steps only, none of which
    reads the stream of [y], and [vecWidthM] times their number is that
    entry. *)
Theorem X13_y_latency_is_the_work_between_bursts
    node x y A y_buf_row0 x_buf0 i :
  RT.valid node ->
  length y_buf_row0 = Ger.nTile node ->
  length x_buf0 = Ger.mTile node ->
  S i < Ger.n node / Ger.nTile node ->
  exists s before mid after,
    RT.run_streams node x y A y_buf_row0 x_buf0 = Ok s
    /\ RT.trace s
       = before
         ++ RT.ReadY i 0 (Ger.nTile node - 1)
              (y !!! (i * Ger.nTile node + (Ger.nTile node - 1)))
         :: mid
         ++ RT.ReadY (S i) 0 0 (y !!! (S i * Ger.nTile node + 0)) :: after
    /\ RT.count RT.is_ReadY mid = 0
    /\ In ("_y",
           Z.of_nat (Ger.vecWidthM node * RT.count RT.is_Compute mid))
         (Ger.streamConsumptionLatency node).
Proof.
  intros Hvalid Hyb Hxb Hi.
  destruct (valid_quotients node Hvalid)
    as (NB & MB & K & _ & HMBpos & _ & _ & _ & HmT & _ & HMB & HK & _).
  assert (HnT : 0 < RT.nTile (RT.config node)) by apply Hvalid.
  assert (Htiles : 0 < RT.m (RT.config node) / RT.mTile (RT.config node))
    by (simpl; lia).
  destruct (trace_consecutive_blocks (RT.config node)
              (RT.node_yvec node y) i Hi) as (before & after & Htrace).
  destruct (block_trace_last_read (RT.config node) (RT.node_yvec node y)
              i HnT Htiles) as (pre & post & Hlast & HreadY & Hcompute).
  destruct (block_trace_first_read (RT.config node) (RT.node_yvec node y)
              (S i) HnT Htiles) as (rest & Hfirst).
  rewrite yval_node in Hlast, Hfirst. cbn [RT.config RT.nTile] in Hlast.
  eexists. exists (before ++ pre), post, (rest ++ after).
  split; [by apply run_streams_closed_form|]. cbn [RT.trace].
  split.
  { rewrite Htrace, Hlast, Hfirst.
    by rewrite <- ?app_assoc, <- ?app_comm_cons, <- ?app_assoc. }
  split; [done|].
  rewrite Hcompute. cbn [RT.config RT.nTile RT.mTile RT.m RT.vecWidthM].
  unfold Ger.streamConsumptionLatency. right. left. f_equal.
  rewrite <- Nat2Z.inj_div. rewrite HMB, HK, HmT. nia.
Qed.

Lemma X13_witness :
  exists s before mid after,
    RT.run_streams wide_node (seqZ 0 8) (seqZ 0 4) (seqZ 0 32)
      [7; 7]%Z [9; 9; 9; 9]%Z = Ok s
    /\ RT.trace s
       = before
         ++ RT.ReadY 0 0 (Ger.nTile wide_node - 1)
              (seqZ 0 4 !!! (0 * Ger.nTile wide_node
                             + (Ger.nTile wide_node - 1)))
         :: mid
         ++ RT.ReadY 1 0 0 (seqZ 0 4 !!! (1 * Ger.nTile wide_node + 0))
         :: after
    /\ RT.count RT.is_ReadY mid = 0
    /\ In ("_y",
           Z.of_nat (Ger.vecWidthM wide_node * RT.count RT.is_Compute mid))
         (Ger.streamConsumptionLatency wide_node).
Proof.
  apply (X13_y_latency_is_the_work_between_bursts wide_node);
    [exact wide_valid|reflexivity|reflexivity|vm_compute; lia].
Defined.
